(** * tmhmm.py: model parser, tie normaliser, matrix builder, Viterbi decoder

    A shallow embedding of [tmhmm.py] and the verification of its
    specification.  Python values are embedded as follows.

    - [str] is [string]; a one-character string obtained by indexing or
      iterating a [str] is kept as a [string] where it is used as a
      dictionary key, and as an [ascii] in [summarize].
    - [dict] and [collections.OrderedDict] are association lists in
      insertion order, read and written only through [dict_get],
      [dict_set] and [dict_del], so that assigning to an existing key
      keeps its position.
    - [collections.deque] of tokens is a [list string] whose head is the
      left end.
    - Raised exceptions are the [Raise] results of the [result] monad.
    - The [float64] numbers of Python and numpy are an abstract type [F]
      with the operations the program uses (class [Numeric]).
    - A numpy array is a list (a matrix is a list of rows) with checked
      indexing.  An index is an integer: the [float64] that is read from
      an array is not one, and numpy raises [IndexError] for it. *)

From Stdlib Require Import ZArith Lia Ascii.
From stdpp Require Import base list strings.

Local Open Scope string_scope.
Local Open Scope list_scope.
Local Open Scope nat_scope.

(** ** Python runtime *)

Module Py.

(** The exceptions the program can raise. *)
Inductive exn : Set :=
  | IndexError | KeyError | ValueError | AttributeError | TypeError
  | AssertionError.

(** The outcome of a call: a returned value or a raised exception.
    [OutOfFuel] is the answer of a fuelled loop whose fuel ran out; it is
    shown never to be the outcome of [parse_model]. *)
Inductive result (A : Type) : Type :=
  | Ok (a : A)
  | Raise (e : exn)
  | OutOfFuel.
Arguments Ok {A} a.
Arguments Raise {A} e.
Arguments OutOfFuel {A}.

Definition bind {A B} (r : result A) (k : A → result B) : result B :=
  match r with
  | Ok a => k a
  | Raise e => Raise e
  | OutOfFuel => OutOfFuel
  end.

#[export] Instance result_bind : MBind result := λ A B k r, bind r k.
#[export] Instance result_ret : MRet result := @Ok.

Definition of_option {A} (e : exn) (o : option A) : result A :=
  match o with
  | Some a => Ok a
  | None => Raise e
  end.

(** [for x in xs: st = body(st, x)], stopping at the first exception. *)
Fixpoint for_each {A S} (xs : list A) (body : S → A → result S) (st : S)
  : result S :=
  match xs with
  | [] => Ok st
  | x :: xs' => body st x ≫= for_each xs' body
  end.

(** [range(lo, hi)] *)
Definition range (lo hi : nat) : list nat := seq lo (hi - lo).

(** [enumerate(xs)], counting from [i]. *)
Fixpoint enumerate_from {A} (i : nat) (xs : list A) : list (nat * A) :=
  match xs with
  | [] => []
  | x :: xs' => (i, x) :: enumerate_from (S i) xs'
  end.
Definition enumerate {A} (xs : list A) : list (nat * A) := enumerate_from 0 xs.

(** The characters of a [str], in order. *)
Fixpoint chars (s : string) : list ascii :=
  match s with
  | EmptyString => []
  | String c s' => c :: chars s'
  end.

Definition str_of_chars (cs : list ascii) : string := foldr String "" cs.

(** Iterating a [str] yields one-character strings. *)
Definition str_of_char (c : ascii) : string := String c EmptyString.
Definition str_iter (s : string) : list string := str_of_char <$> chars s.

(** [s[i]] for a non-negative [i]. *)
Definition str_get (s : string) (i : nat) : result string :=
  of_option IndexError (str_iter s !! i).

(** [''.join(xs)] *)
Definition join (xs : list string) : string := foldr String.append "" xs.

Section Dict.
Context {K V : Type} `{EqDecision K}.

(** [d[k]] is [dict_get]; a missing key is a [KeyError] at the use. *)
Fixpoint dict_get (d : list (K * V)) (k : K) : option V :=
  match d with
  | [] => None
  | (k', v) :: d' => if decide (k = k') then Some v else dict_get d' k
  end.

(** [d[k] = v]: an existing key keeps its position, a new key is added
    at the end. *)
Fixpoint dict_set (d : list (K * V)) (k : K) (v : V) : list (K * V) :=
  match d with
  | [] => [(k, v)]
  | (k', v') :: d' =>
      if decide (k = k') then (k', v) :: d' else (k', v') :: dict_set d' k v
  end.

(** [del d[k]] for a key that is present. *)
Fixpoint dict_del (d : list (K * V)) (k : K) : list (K * V) :=
  match d with
  | [] => []
  | (k', v) :: d' => if decide (k = k') then d' else (k', v) :: dict_del d' k
  end.

Definition keys (d : list (K * V)) : list K := fst <$> d.
Definition values (d : list (K * V)) : list V := snd <$> d.

(** [dict(pairs)]: the pairs are inserted from left to right. *)
Definition dict_of_pairs (ps : list (K * V)) : list (K * V) :=
  foldl (λ d p, dict_set d p.1 p.2) [] ps.

(** A list of pairs is a dictionary when no key occurs twice. *)
Definition dict_wf (d : list (K * V)) : Prop := NoDup (keys d).
End Dict.

Abbreviation dict K V := (list (K * V)).

(** [zip(xs, ys)] stops at the end of the shorter argument. *)
Fixpoint zip {A B} (xs : list A) (ys : list B) : list (A * B) :=
  match xs, ys with
  | x :: xs', y :: ys' => (x, y) :: zip xs' ys'
  | _, _ => []
  end.

(** [itertools.groupby(xs, key)]: maximal runs of consecutive elements
    with equal keys; every group is non-empty and is kept as its first
    element and the rest. *)
Fixpoint groupby_run {A K} `{EqDecision K} (key : A → K)
    (cur : K) (first : A) (rest : list A) (xs : list A)
  : list (K * (A * list A)) :=
  match xs with
  | [] => [(cur, (first, rest))]
  | x :: xs' =>
      if decide (key x = cur) then groupby_run key cur first (rest ++ [x]) xs'
      else (cur, (first, rest)) :: groupby_run key (key x) x [] xs'
  end.

Definition groupby {A K} `{EqDecision K} (key : A → K) (xs : list A)
  : list (K * (A * list A)) :=
  match xs with
  | [] => []
  | x :: xs' => groupby_run key (key x) x [] xs'
  end.

(** [min(xs, key=key)] and [max(xs, key=key)] of a non-empty list: the
    first element with the least (greatest) key. *)
Definition min_by {A} (key : A → nat) (first : A) (rest : list A) : A :=
  foldl (λ best x, if Nat.ltb (key x) (key best) then x else best) first rest.
Definition max_by {A} (key : A → nat) (first : A) (rest : list A) : A :=
  foldl (λ best x, if Nat.ltb (key best) (key x) then x else best) first rest.

End Py.

Import Py.

(** ** Numbers *)

(** The numeric operations of Python and numpy that the program applies to
    [float64] values and to tokens.  [fgt] is [>], [flog] is [np.log],
    [fzero] is the entry of [np.zeros], [fneg_inf] is [-np.inf];
    [float_of_str] and [int_of_str] are the builtins [float] and [int]
    on a [str], [None] standing for their [ValueError]. *)
Class Numeric (F : Type) := {
  fzero : F;
  fneg_inf : F;
  fadd : F → F → F;
  fgt : F → F → bool;
  flog : F → F;
  float_of_str : string → option F;
  int_of_str : string → option Z;
}.

(** ** Data model *)

(** The value of an entry of a parsed map: a [float] when it comes from
    the parser; [dict(...)] of a list of two-character tokens yields
    one-character [str] values. *)
Inductive pval (F : Type) : Type :=
  | PFloat (x : F)
  | PStr (s : string).
Arguments PFloat {F} x.
Arguments PStr {F} s.

(** The value of a field of a state. *)
Inductive value (F : Type) : Type :=
  | VStr (s : string)
  | VInt (z : Z)
  | VList (l : list string)
  | VMap (m : dict string (pval F)).
Arguments VStr {F} s.
Arguments VInt {F} z.
Arguments VList {F} l.
Arguments VMap {F} m.

Abbreviation state F := (dict string (value F)).

(** The six arrays and maps returned by [_to_matrix_form]. *)
Record matrix_form (F : Type) : Type := MatrixForm {
  initial : list F;
  transitions : list (list F);
  emissions : list (list F);
  char_map : dict string nat;
  label_map : dict nat (value F);
  name_map : dict nat string;
}.
Arguments MatrixForm {F}.
Arguments initial {F}.
Arguments transitions {F}.
Arguments emissions {F}.
Arguments char_map {F}.
Arguments label_map {F}.
Arguments name_map {F}.

Abbreviation model F := (dict string string * matrix_form F)%type.

(** ** Arrays *)

(** [a[i]] *)
Definition arr_get {A} (a : list A) (i : nat) : result A :=
  of_option IndexError (a !! i).

(** [a[i] = x] *)
Definition arr_set {A} (a : list A) (i : nat) (x : A) : result (list A) :=
  if decide (i < length a) then Ok (<[i:=x]> a) else Raise IndexError.

(** [m[i, j]] *)
Definition mat_get {A} (m : list (list A)) (i j : nat) : result A :=
  row ← arr_get m i; arr_get row j.

(** [m[i, j] = x] *)
Definition mat_set {A} (m : list (list A)) (i j : nat) (x : A)
  : result (list (list A)) :=
  row ← arr_get m i; row' ← arr_set row j x; arr_set m i row'.

(** ** Tokenizer *)

Definition is_word_char (c : ascii) : bool :=
  let n := nat_of_ascii c in
  (Nat.leb 65 n && Nat.leb n 90) || (Nat.leb 97 n && Nat.leb n 122)
  || (Nat.leb 48 n && Nat.leb n 57)
  || Nat.eqb n 46 || Nat.eqb n 45 || Nat.eqb n 95.

Definition is_punct (c : ascii) : bool :=
  let n := nat_of_ascii c in
  Nat.eqb n 58 || Nat.eqb n 59 || Nat.eqb n 123 || Nat.eqb n 125.

Definition flush_word (word : list ascii) : list string :=
  match word with
  | [] => []
  | _ => [str_of_chars word]
  end.

(** [re.findall(r'([A-Za-z0-9\.\-_]+|[:;\{\}])', contents)]: the maximal
    runs of word characters and the single punctuation characters, from
    left to right; every other character is skipped. *)
Fixpoint tokenize_from (word : list ascii) (cs : list ascii) : list string :=
  match cs with
  | [] => flush_word word
  | c :: cs' =>
      if is_word_char c then tokenize_from (word ++ [c]) cs'
      else flush_word word
           ++ (if is_punct c then [str_of_char c] else [])
           ++ tokenize_from [] cs'
  end.

Definition _tokenize (contents : string) : list string :=
  tokenize_from [] (chars contents).

Definition startswith_hash (l : string) : bool :=
  match l with
  | String c _ => Nat.eqb (nat_of_ascii c) 35
  | EmptyString => false
  end.

(** [file_like] is iterated line by line. *)
Definition _strip_comments (file_like : list string) : string :=
  join (filter (λ l, negb (startswith_hash l)) file_like).

(** ** Grammar parser *)

(** [tokens.popleft()] *)
Definition popleft (tokens : list string) : result (string * list string) :=
  match tokens with
  | [] => Raise IndexError
  | token :: tokens' => Ok (token, tokens')
  end.

Fixpoint _parse_list_loop (tokens : list string) (parsed_list : list string)
  : result (list string * list string) :=
  match tokens with
  | [] => Raise IndexError
  | token :: tokens' =>
      if decide (token = ";") then Ok (token :: tokens', parsed_list)
      else _parse_list_loop tokens' (parsed_list ++ [token])
  end.

Definition _parse_list (tokens : list string)
  : result (list string * list string) :=
  _parse_list_loop tokens [].

Section Program.
Context {F : Type} `{Numeric F}.

Fixpoint _parse_map_loop (tokens : list string)
    (parsed_map : dict string (pval F))
  : result (list string * option (dict string (pval F))) :=
  match tokens with
  | [] => Raise IndexError
  | token :: tokens1 =>
      if decide (token = ";") then Ok (token :: tokens1, Some parsed_map)
      else
        match tokens1 with
        | [] => Raise IndexError
        | next_token :: tokens2 =>
            if decide (next_token ≠ ":")
            then Ok (token :: next_token :: tokens2, None)
            else
              match tokens2 with
              | [] => Raise IndexError
              | value :: tokens3 =>
                  x ← of_option ValueError (float_of_str value);
                  _parse_map_loop tokens3 (dict_set parsed_map token (PFloat x))
              end
        end
  end.

Definition _parse_map (tokens : list string)
  : result (list string * option (dict string (pval F))) :=
  _parse_map_loop tokens [].

(** The value of one field of a state block, after its name [token]. *)
Definition parse_field (token : string) (tokens : list string)
  : result (list string * value F) :=
  if decide (token ∈ ["trans"; "only"]) then
    '(tokens, value) ← _parse_map tokens;
    match value with
    | Some m => Ok (tokens, VMap m)
    | None => '(tokens, l) ← _parse_list tokens; Ok (tokens, VList l)
    end
  else if decide (token ∈ ["type"; "end"]) then
    '(t, tokens) ← popleft tokens;
    z ← of_option ValueError (int_of_str t);
    Ok (tokens, VInt z)
  else
    '(t, tokens) ← popleft tokens;
    Ok (tokens, VStr t).

(** The [while True] loop of [_parse_state].  Every round removes a
    token, so [length tokens] rounds and one more are never used up. *)
Fixpoint _parse_state_loop (fuel : nat) (tokens : list string)
    (parsed_state : state F) : result (list string * state F) :=
  match fuel with
  | O => OutOfFuel
  | S fuel' =>
      '(token, tokens) ← popleft tokens;
      if decide (token = "}") then Ok (tokens, parsed_state)
      else
        '(tokens, value) ← parse_field token tokens;
        let parsed_state := dict_set parsed_state token value in
        '(_, tokens) ← popleft tokens;
        _parse_state_loop fuel' tokens parsed_state
  end.

Definition _parse_state (tokens : list string)
  : result (list string * (string * state F)) :=
  '(state_name, tokens) ← popleft tokens;
  '(_, tokens) ← popleft tokens;
  '(tokens, parsed_state) ← _parse_state_loop (S (length tokens)) tokens [];
  Ok (tokens, (state_name, parsed_state)).

Fixpoint _parse_header_loop (tokens : list string)
    (header : dict string string)
  : result (list string * dict string string) :=
  match tokens with
  | [] => Raise IndexError
  | token :: tokens1 =>
      if decide (token = "}") then Ok (tokens1, header)
      else
        match tokens1 with
        | [] => Raise IndexError
        | v :: tokens2 =>
            match tokens2 with
            | [] => Raise IndexError
            | _ :: tokens3 =>
                _parse_header_loop tokens3 (dict_set header token v)
            end
        end
  end.

Definition _parse_header (tokens : list string)
  : result (list string * dict string string) :=
  '(_, tokens) ← popleft tokens;
  '(_, tokens) ← popleft tokens;
  _parse_header_loop tokens [].

(** ** State normalizer *)

(** A field value used as a key of [states]. *)
Definition as_key (v : value F) : result string :=
  match v with
  | VStr s => Ok s
  | VInt _ => Raise KeyError
  | VList _ | VMap _ => Raise TypeError
  end.

(** Iterating a field value, as [zip] does: a map yields its keys. *)
Definition iter_value (v : value F) : result (list string) :=
  match v with
  | VList l => Ok l
  | VMap m => Ok (keys m)
  | VStr s => Ok (str_iter s)
  | VInt _ => Raise TypeError
  end.

(** [v.values()] *)
Definition map_values (v : value F) : result (list (pval F)) :=
  match v with
  | VMap m => Ok (values m)
  | _ => Raise AttributeError
  end.

(** [v.items()] *)
Definition map_items (v : value F) : result (list (string * pval F)) :=
  match v with
  | VMap m => Ok m
  | _ => Raise AttributeError
  end.

(** An element of the sequence given to [dict(...)] must itself have
    exactly two elements. *)
Definition pair_of_str (s : string) : result (string * pval F) :=
  match chars s with
  | [k; v] => Ok (str_of_char k, PStr (str_of_char v))
  | _ => Raise ValueError
  end.

(** [dict(v)] *)
Definition dict_copy (v : value F) : result (value F) :=
  match v with
  | VMap m => Ok (VMap m)
  | VList l => ps ← mapM pair_of_str l; Ok (VMap (dict_of_pairs ps))
  | VStr s => ps ← mapM pair_of_str (str_iter s); Ok (VMap (dict_of_pairs ps))
  | VInt _ => Raise TypeError
  end.

(** The body of the loop of [_normalize_states] for the state [name].
    [state] is the object [states[name]], so it is read again after
    [states[name]['trans']] has been assigned. *)
Definition normalize_state (states : dict string (state F)) (name : string)
  : result (dict string (state F)) :=
  state ← of_option KeyError (dict_get states name);
  states ←
    match dict_get state "tied_trans" with
    | Some tied =>
        parent_name ← as_key tied;
        parent_state ← of_option KeyError (dict_get states parent_name);
        to_states ← of_option KeyError (dict_get state "trans");
        parent_trans ← of_option KeyError (dict_get parent_state "trans");
        probs ← map_values parent_trans;
        targets ← iter_value to_states;
        Ok (dict_set states name
              (dict_set state "trans" (VMap (dict_of_pairs (zip targets probs)))))
    | None => Ok states
    end;
  state ← of_option KeyError (dict_get states name);
  match dict_get state "tied_letter" with
  | Some tied =>
      parent_state ← as_key tied;
      parent ← of_option KeyError (dict_get states parent_state);
      parent_only ← of_option KeyError (dict_get parent "only");
      only ← dict_copy parent_only;
      Ok (dict_set states name (dict_set state "only" only))
  | None => Ok states
  end.

(** [for name, state in states.items()]: the keys do not change during
    the loop, the states are read from the dictionary being updated. *)
Definition _normalize_states (states : dict string (state F))
  : result (dict string (state F)) :=
  for_each (keys states) normalize_state states.

(** ** Matrix builder *)

(** The number stored by [a[i] = v] in a [float64] array. *)
Definition as_float (v : pval F) : result F :=
  match v with
  | PFloat x => Ok x
  | PStr s => of_option ValueError (float_of_str s)
  end.

(** [{v: k for k, v in enumerate(xs)}] *)
Definition index_map (xs : list string) : dict string nat :=
  dict_of_pairs ((λ kv, (kv.2, kv.1)) <$> enumerate xs).

(** The body of the loop over the states in [_to_matrix_form]. *)
Definition fill_state (state_map char_map : dict string nat)
    (arrays : list (list F) * list (list F) * dict nat (value F))
    (item : string * state F)
  : result (list (list F) * list (list F) * dict nat (value F)) :=
  let '(transitions, emissions, label_map) := arrays in
  let '(state_name, state) := item in
  this_state_idx ← of_option KeyError (dict_get state_map state_name);
  let label_map :=
    match dict_get state "label" with
    | Some l => dict_set label_map this_state_idx l
    | None => label_map
    end in
  state_trans ← of_option KeyError (dict_get state "trans");
  trans_items ← map_items state_trans;
  transitions ←
    for_each trans_items (λ transitions '(other_state_name, trans_prob),
      other_state_idx ←
        of_option KeyError (dict_get state_map other_state_name);
      x ← as_float trans_prob;
      mat_set transitions this_state_idx other_state_idx x) transitions;
  state_only ← of_option KeyError (dict_get state "only");
  only_items ← map_items state_only;
  emissions ←
    for_each only_items (λ emissions '(character, emission_prob),
      this_character_idx ←
        of_option KeyError (dict_get char_map character);
      x ← as_float emission_prob;
      mat_set emissions this_state_idx this_character_idx x) emissions;
  Ok (transitions, emissions, label_map).

Definition _to_matrix_form (alphabet : string) (states : dict string (state F))
  : result (matrix_form F) :=
  begin ← of_option KeyError (dict_get states "begin");
  let states := dict_del states "begin" in
  let state_map := index_map (keys states) in
  let char_map := index_map (str_iter alphabet) in
  let no_states := length states in
  let initial := replicate no_states fzero in
  let transitions := replicate no_states (replicate no_states fzero) in
  let emissions :=
    replicate no_states (replicate (String.length alphabet) fzero) in
  let label_map : dict nat (value F) := [] in
  let name_map := dict_of_pairs (enumerate (keys states)) in
  begin_trans ← of_option KeyError (dict_get begin "trans");
  begin_items ← map_items begin_trans;
  initial ←
    for_each begin_items (λ initial '(state_name, trans_prob),
      this_state_idx ← of_option KeyError (dict_get state_map state_name);
      x ← as_float trans_prob;
      arr_set initial this_state_idx x) initial;
  '(transitions, emissions, label_map) ←
    for_each states (fill_state state_map char_map)
      (transitions, emissions, label_map);
  Ok (MatrixForm initial transitions emissions char_map label_map name_map).

(** ** Top-level parser *)

(** The [while tokens] loop of [parse_model].  A successful
    [_parse_state] removes at least three tokens, so [length tokens]
    rounds are never used up. *)
Fixpoint parse_states (fuel : nat) (tokens : list string)
    (states : dict string (state F))
  : result (list string * dict string (state F)) :=
  match tokens with
  | [] => Ok (tokens, states)
  | _ :: _ =>
      match fuel with
      | O => OutOfFuel
      | S fuel' =>
          '(tokens, (name, state)) ← _parse_state tokens;
          parse_states fuel' tokens (dict_set states name state)
      end
  end.

Definition parse_model (file_like : list string) : result (model F) :=
  let contents := _strip_comments file_like in
  let tokens := _tokenize contents in
  '(tokens, header) ← _parse_header tokens;
  '(tokens, states) ← parse_states (length tokens) tokens [];
  _ ← (if decide (tokens = []) then Ok () else Raise AssertionError);
  alphabet ← of_option KeyError (dict_get header "alphabet");
  states ← _normalize_states states;
  matrices ← _to_matrix_form alphabet states;
  Ok (header, matrices).
End Program.

(** ** Viterbi decoder *)

Section Decoder.
Context {F : Type} `{Numeric F}.

(** [np.log] of a vector and of a matrix. *)
Definition log_vec (v : list F) : list F := flog <$> v.
Definition log_mat (m : list (list F)) : list (list F) := log_vec <$> m.

(** The body of the loop over [k]: the candidate through predecessor
    [k] replaces the best one so far only when it is strictly greater. *)
Definition scan_step (M transitions : list (list F)) (i j : nat)
    (best : nat * F) (k : nat) : result (nat * F) :=
  let '(max_state, max_state_prob) := best in
  m ← mat_get M (i - 1) k;
  t ← mat_get transitions k j;
  let prob := fadd m t in
  if fgt prob max_state_prob then Ok (k, prob)
  else Ok (max_state, max_state_prob).

(** [max_state, max_state_prob] after the loop over [k]. *)
Definition best_predecessor (M transitions : list (list F))
    (no_states i j : nat) : result (nat * F) :=
  for_each (range 0 no_states) (scan_step M transitions i j) (0, fneg_inf).

(** The body of the loop over [j] in row [i]. *)
Definition fill_cell (sequence : string) (transitions emissions : list (list F))
    (char_map : dict string nat) (no_states i : nat)
    (MP : list (list F) * list (list nat)) (j : nat)
  : result (list (list F) * list (list nat)) :=
  let '(M, P) := MP in
  '(max_state, max_state_prob) ← best_predecessor M transitions no_states i j;
  symbol ← str_get sequence i;
  c ← of_option KeyError (dict_get char_map symbol);
  e ← mat_get emissions j c;
  M ← mat_set M i j (fadd max_state_prob e);
  P ← mat_set P i j max_state;
  Ok (M, P).

(** The body of the loop over [i] from 1. *)
Definition fill_row (sequence : string) (transitions emissions : list (list F))
    (char_map : dict string nat) (no_states : nat)
    (MP : list (list F) * list (list nat)) (i : nat)
  : result (list (list F) * list (list nat)) :=
  for_each (range 0 no_states)
    (fill_cell sequence transitions emissions char_map no_states i) MP.

(** The body of the first loop, which fills row 0. *)
Definition fill_base (sequence : string) (initial : list F)
    (emissions : list (list F)) (char_map : dict string nat)
    (M : list (list F)) (i : nat) : result (list (list F)) :=
  a ← arr_get initial i;
  symbol ← str_get sequence 0;
  c ← of_option KeyError (dict_get char_map symbol);
  e ← mat_get emissions i c;
  mat_set M 0 i (fadd a e).

(** The tables [M] and [P] when the two filling loops are done.  [P] is
    a [float64] array in the source: the entry written for the state [k]
    is the float [k.0], which is held here as [k].  What is read from
    [P] is a float (see [state_index]). *)
Definition viterbi_tables (sequence : string) (mf : matrix_form F)
  : result (list (list F) * list (list nat)) :=
  let initial := log_vec (initial mf) in
  let transitions := log_mat (transitions mf) in
  let emissions := log_mat (emissions mf) in
  let no_observations := String.length sequence in
  let no_states := length initial in
  let M := replicate no_observations (replicate no_states fzero) in
  let P := replicate no_observations (replicate no_states 0) in
  M ← for_each (range 0 no_states)
        (fill_base sequence initial emissions (char_map mf)) M;
  for_each (range 1 no_observations)
    (fill_row sequence transitions emissions (char_map mf) no_states) (M, P).

(** [np.argmax(row)]: the index of the first greatest entry; an empty
    row is a [ValueError]. *)
Definition argmax (row : list F) : result nat :=
  match row with
  | [] => Raise ValueError
  | x :: xs =>
      Ok (foldl (λ '(best, best_val, i) y,
                   if fgt y best_val then (i, y, S i) else (best, best_val, S i))
                (0, x, 1) xs).1.1
  end.

(** [M[-1,]] *)
Definition last_row {A} (M : list (list A)) : result (list A) :=
  of_option IndexError (last M).

(** The value of [next_state] in the backtracking loop: the integer
    that [np.argmax] returns, or the [float64] that is read from [P]. *)
Inductive state_index : Type :=
| IntIndex (s : nat)
| FloatIndex (s : nat).

(** The state that an index stands for.  As keys of a [dict] the
    integer [s] and the float [s.0] are equal and have the same hash, so
    [label_map[next_state]] finds the label of this state for both. *)
Definition index_state (next_state : state_index) : nat :=
  match next_state with
  | IntIndex s => s
  | FloatIndex s => s
  end.

(** [P[i, next_state]]: numpy takes only integers as indices and raises
    [IndexError] for a float; the entry that is read is a [float64]. *)
Definition read_predecessor (P : list (list nat)) (i : nat)
    (next_state : state_index) : result state_index :=
  match next_state with
  | IntIndex s => k ← mat_get P i s; Ok (FloatIndex k)
  | FloatIndex _ => Raise IndexError
  end.

(** The body of the backtracking loop. *)
Definition backtrack_step (label_map : dict nat (value F)) (P : list (list nat))
    (st : list (value F) * state_index) (i : nat)
  : result (list (value F) * state_index) :=
  let '(backtracked, next_state) := st in
  label ← of_option KeyError (dict_get label_map (index_state next_state));
  next_state' ← read_predecessor P i next_state;
  Ok ((backtracked ++ [label])%list, next_state').

(** [''.join(xs)] of field values: every one must be a [str]. *)
Definition join_values (xs : list (value F)) : result string :=
  ss ← mapM (λ v, match v with VStr s => Ok s | _ => Raise TypeError end) xs;
  Ok (join ss).

Definition optimal_path (sequence : string) (model : model F)
  : result (list (list F) * string) :=
  let '(header, mf) := model in
  let no_observations := String.length sequence in
  '(M, P) ← viterbi_tables sequence mf;
  row ← last_row M;
  next_state ← argmax row;
  '(backtracked, _) ←
    for_each (rev (range 0 no_observations))
      (backtrack_step (label_map mf) P) ([], IntIndex next_state);
  path ← join_values (rev backtracked);
  Ok (M, path).
End Decoder.

(** ** Path summarizer *)

(** The item yielded for one group. *)
Definition summarize_item (g : ascii * ((nat * ascii) * list (nat * ascii)))
  : nat * nat * ascii :=
  let '(state, (first, rest)) := g in
  let start := (min_by fst first rest).1 in
  let end_ := (max_by fst first rest).1 in
  (start, end_, state).

(** [summarize(path)]: the generator's items, in order. *)
Definition summarize (path : string) : list (nat * nat * ascii) :=
  summarize_item <$> groupby snd (enumerate (chars path)).

(** ** An exact numeric domain

    Integers extended with minus infinity, with the binary logarithm
    (rounded down) as [flog].  It is used to run the embedding on concrete
    models in the examples below. *)

Module LogInt.
Inductive t : Set :=
  | NegInf
  | Fin (z : Z).

Definition add (x y : t) : t :=
  match x, y with
  | Fin a, Fin b => Fin (a + b)
  | _, _ => NegInf
  end.

Definition gt (x y : t) : bool :=
  match x, y with
  | Fin a, Fin b => Z.ltb b a
  | Fin _, NegInf => true
  | NegInf, _ => false
  end.

Definition log (x : t) : t :=
  match x with
  | Fin a => if Z.leb a 0 then NegInf else Fin (Z.log2 a)
  | NegInf => NegInf
  end.

Definition digit (c : ascii) : option Z :=
  let n := nat_of_ascii c in
  if Nat.leb 48 n && Nat.leb n 57 then Some (Z.of_nat (n - 48)) else None.

Fixpoint digits (acc : Z) (cs : list ascii) : option Z :=
  match cs with
  | [] => Some acc
  | c :: cs' => d ← digit c; digits (10 * acc + d) cs'
  end.

(** A non-empty string of decimal digits. *)
Definition unsigned (cs : list ascii) : option Z :=
  match cs with
  | [] => None
  | _ => digits 0 cs
  end.

Definition signed (cs : list ascii) : option Z :=
  match cs with
  | c :: cs' =>
      if Nat.eqb (nat_of_ascii c) 45 then Z.opp <$> unsigned cs'
      else unsigned cs
  | [] => None
  end.

#[export] Instance numeric : Numeric t := {|
  fzero := Fin 0;
  fneg_inf := NegInf;
  fadd := add;
  fgt := gt;
  flog := log;
  float_of_str s := Fin <$> signed (chars s);
  int_of_str s := signed (chars s);
|}.
End LogInt.

(** ** Small models *)

Module Toy.
Import LogInt.

Definition nl : string := String (ascii_of_nat 10) "".

(** A model file with two tied states.  The probabilities are written
    as whole weights, whose binary logarithms are exact. *)
Definition file : list string :=
  [ "# a small model" +:+ nl;
    "header { alphabet AB; }" +:+ nl;
    "begin { trans s1:4 s2:4; type 0; end 0; letter NULL; }" +:+ nl;
    "s1 { trans s1:4 s2:2; label i; only A:8 B:1; }" +:+ nl;
    "s2 { trans s1 s2; tied_trans s1; label o; only A:1 B:8; }" +:+ nl;
    "s3 { trans s2 s1 s3; tied_trans s2; tied_letter s1; label M; }" +:+ nl ].

(** The states of [file] as the parser returns them. *)
Definition states : dict string (state t) :=
  [ ("begin", [ ("trans", VMap [("s1", PFloat (Fin 4)); ("s2", PFloat (Fin 4))]);
                ("type", VInt 0); ("end", VInt 0); ("letter", VStr "NULL") ]);
    ("s1", [ ("trans", VMap [("s1", PFloat (Fin 4)); ("s2", PFloat (Fin 2))]);
             ("label", VStr "i");
             ("only", VMap [("A", PFloat (Fin 8)); ("B", PFloat (Fin 1))]) ]);
    ("s2", [ ("trans", VList ["s1"; "s2"]); ("tied_trans", VStr "s1");
             ("label", VStr "o");
             ("only", VMap [("A", PFloat (Fin 1)); ("B", PFloat (Fin 8))]) ]);
    ("s3", [ ("trans", VList ["s2"; "s1"; "s3"]); ("tied_trans", VStr "s2");
             ("tied_letter", VStr "s1"); ("label", VStr "M") ]) ].

(** The states after normalization. *)
Definition normal : dict string (state t) :=
  [ ("begin", [ ("trans", VMap [("s1", PFloat (Fin 4)); ("s2", PFloat (Fin 4))]);
                ("type", VInt 0); ("end", VInt 0); ("letter", VStr "NULL") ]);
    ("s1", [ ("trans", VMap [("s1", PFloat (Fin 4)); ("s2", PFloat (Fin 2))]);
             ("label", VStr "i");
             ("only", VMap [("A", PFloat (Fin 8)); ("B", PFloat (Fin 1))]) ]);
    ("s2", [ ("trans", VMap [("s1", PFloat (Fin 4)); ("s2", PFloat (Fin 2))]);
             ("tied_trans", VStr "s1"); ("label", VStr "o");
             ("only", VMap [("A", PFloat (Fin 1)); ("B", PFloat (Fin 8))]) ]);
    ("s3", [ ("trans", VMap [("s2", PFloat (Fin 4)); ("s1", PFloat (Fin 2))]);
             ("tied_trans", VStr "s2"); ("tied_letter", VStr "s1");
             ("label", VStr "M");
             ("only", VMap [("A", PFloat (Fin 8)); ("B", PFloat (Fin 1))]) ]) ].

Definition matrices : matrix_form t := {|
  initial := [Fin 4; Fin 4; Fin 0];
  transitions := [ [Fin 4; Fin 2; Fin 0];
                   [Fin 4; Fin 2; Fin 0];
                   [Fin 2; Fin 4; Fin 0] ];
  emissions := [ [Fin 8; Fin 1]; [Fin 1; Fin 8]; [Fin 8; Fin 1] ];
  char_map := [("A", 0); ("B", 1)];
  label_map := [(0, VStr "i"); (1, VStr "o"); (2, VStr "M")];
  name_map := [(0, "s1"); (1, "s2"); (2, "s3")];
|}.

(** A file in which the block of [s1] is not closed before the block
    of [s2] starts, and the model of the one state [s1] that the parser
    returns for it. *)
Definition open_file : list string :=
  [ "header { alphabet AB; }" +:+ nl;
    "begin { trans s1:4; }" +:+ nl;
    "s1 { trans s1:1; only A:1 B:1; label i;" +:+ nl;
    "s2 { trans s1:1; only A:1; }" +:+ nl ].

Definition open_model : model t :=
  ([("alphabet", "AB")],
   {| initial := [Fin 4];
      transitions := [ [Fin 1] ];
      emissions := [ [Fin 1; Fin 1] ];
      char_map := [("A", 0); ("B", 1)];
      label_map := [(0, VStr "i")];
      name_map := [(0, "s1")] |}).

Definition model : model t := ([("alphabet", "AB")], matrices).

(** The states [c] tied to [b] tied to [a], with [c] before [b]. *)
Definition chain : dict string (state t) :=
  [ ("a", [ ("trans", VMap [("a", PFloat (Fin 2)); ("b", PFloat (Fin 1))]) ]);
    ("c", [ ("trans", VList ["b"; "c"]); ("tied_trans", VStr "b") ]);
    ("b", [ ("trans", VList ["a"; "b"]); ("tied_trans", VStr "a") ]) ].

(** The same states in the order [a], [b], [c]. *)
Definition chain_in_order : dict string (state t) :=
  [ ("a", [ ("trans", VMap [("a", PFloat (Fin 2)); ("b", PFloat (Fin 1))]) ]);
    ("b", [ ("trans", VList ["a"; "b"]); ("tied_trans", VStr "a") ]);
    ("c", [ ("trans", VList ["b"; "c"]); ("tied_trans", VStr "b") ]) ].

(** Two states with the same parameters: every comparison is a tie. *)
Definition twins : matrix_form t := {|
  initial := [Fin 1; Fin 1];
  transitions := [ [Fin 1; Fin 1]; [Fin 1; Fin 1] ];
  emissions := [ [Fin 1]; [Fin 1] ];
  char_map := [("A", 0)];
  label_map := [(0, VStr "x"); (1, VStr "y")];
  name_map := [(0, "x"); (1, "y")];
|}.
End Toy.

(** ** The specification of run-length summaries *)

(** [runs_of base cs rs]: [rs] lists, in order, the maximal blocks of
    equal characters of [cs], whose first character has index [base]; a
    block is given by the indices of its first and last character and by
    its character. *)
Inductive runs_of : nat → list ascii → list (nat * nat * ascii) → Prop :=
  | runs_nil base : runs_of base [] []
  | runs_block base n c cs rs :
      head cs ≠ Some c →
      runs_of (base + S n) cs rs →
      runs_of base (replicate (S n) c ++ cs) ((base, base + n, c) :: rs).

(** ** Outcomes *)

(** An outcome that is a returned value or an exception. *)
Definition terminates {A} (r : result A) : Prop := r ≠ OutOfFuel.

(** ** The vocabulary of the decoder's specification *)

(** [m[i, j]] for indices within bounds ([d] elsewhere). *)
Definition mat_at {A} (d : A) (m : list (list A)) (i j : nat) : A :=
  nth j (nth i m []) d.

(** [m] after [m[i, j] = x], for indices within bounds. *)
Definition mat_upd {A} (m : list (list A)) (i j : nat) (x : A) : list (list A) :=
  <[i := <[j := x]> (nth i m [])]> m.

(** A matrix with [rows] rows of [cols] entries each. *)
Definition mat_shape {A} (m : list (list A)) (rows cols : nat) : Prop :=
  length m = rows ∧ Forall (λ row, length row = cols) m.

Section DecoderSpec.
Context {F : Type} `{Numeric F}.

(** A set [ok] of scores that is closed under [+] and on which [>] is a
    strict weak order; [-inf] belongs to it and is its only member that
    is not above [-inf].  Among the IEEE doubles, the numbers that are
    not above 0 form such a set (NaN is not one of them), and the
    logarithm of every probability is in it. *)
Class NumericOrder (ok : F → Prop) : Prop := {
  ok_neg_inf : ok fneg_inf;
  ok_fadd x y : ok x → ok y → ok (fadd x y);
  fgt_irrefl x : ok x → fgt x x = false;
  fgt_trans x y z :
    ok x → ok y → ok z → fgt x y = true → fgt y z = true → fgt x z = true;
  fgt_cotrans x y z :
    ok x → ok y → ok z → fgt x y = true → fgt x z = true ∨ fgt z y = true;
  fgt_neg_inf x : ok x → fgt x fneg_inf = false → x = fneg_inf;
}.

(** The arrays of a model have the sizes [_to_matrix_form] gives them,
    for [no_states] states and an alphabet of [no_symbols] characters. *)
Definition model_shape (mf : matrix_form F) (no_symbols : nat) : Prop :=
  mat_shape (transitions mf) (length (initial mf)) (length (initial mf))
  ∧ mat_shape (emissions mf) (length (initial mf)) no_symbols
  ∧ ∀ symbol c, dict_get (char_map mf) symbol = Some c → c < no_symbols.

(** The logarithms of the entries of the model are in [ok]. *)
Definition scores_ok (ok : F → Prop) (mf : matrix_form F) : Prop :=
  Forall ok (log_vec (initial mf))
  ∧ Forall (Forall ok) (log_mat (transitions mf))
  ∧ Forall (Forall ok) (log_mat (emissions mf)).

(** The sequence is over the alphabet of the model. *)
Definition over_alphabet (sequence : string) (mf : matrix_form F) : Prop :=
  ∀ symbol, symbol ∈ str_iter sequence → is_Some (dict_get (char_map mf) symbol).

(** The column of [emissions] for the symbol at position [t]. *)
Definition obs (sequence : string) (mf : matrix_form F) (t : nat) : nat :=
  default 0 (str_iter sequence !! t ≫= dict_get (char_map mf)).

(** [log initial[s]], [log transitions[k][j]] and [log emissions[j][c]]. *)
Definition log_initial (mf : matrix_form F) (s : nat) : F :=
  nth s (log_vec (initial mf)) fzero.
Definition log_transition (mf : matrix_form F) (k j : nat) : F :=
  mat_at fzero (log_mat (transitions mf)) k j.
Definition log_emission (mf : matrix_form F) (j c : nat) : F :=
  mat_at fzero (log_mat (emissions mf)) j c.

(** The score of reaching state [j] at position [t] through state [k]. *)
Definition candidate (mf : matrix_form F) (M : list (list F)) (t j k : nat) : F :=
  fadd (mat_at fzero M (t - 1) k) (log_transition mf k j).

(** Row 0 of [M] holds the base case. *)
Definition base_row (sequence : string) (mf : matrix_form F)
    (M : list (list F)) : Prop :=
  ∀ s, s < length (initial mf) →
    mat_at fzero M 0 s
    = fadd (log_initial mf s) (log_emission mf s (obs sequence mf 0)).

(** [P[t][j]] is a state [k] whose candidate is greatest among all
    states, and [M[t][j]] is that candidate plus the log emission. *)
Definition viterbi_cell (sequence : string) (mf : matrix_form F)
    (M : list (list F)) (P : list (list nat)) (t j : nat) : Prop :=
  let k := mat_at 0 P t j in
  k < length (initial mf)
  ∧ mat_at fzero M t j
    = fadd (candidate mf M t j k) (log_emission mf j (obs sequence mf t))
  ∧ ∀ k', k' < length (initial mf) →
      fgt (candidate mf M t j k') (candidate mf M t j k) = false.

(** [P[t][j]] is strictly better than every state before it. *)
Definition first_best (mf : matrix_form F)
    (M : list (list F)) (P : list (list nat)) (t j : nat) : Prop :=
  let k := mat_at 0 P t j in
  ∀ k', k' < k → fgt (candidate mf M t j k) (candidate mf M t j k') = true.

(** The tables while row [i] is being filled: the rows before [i] and
    the first [j] cells of row [i] are done. *)
Definition tables_inv (ok : F → Prop) (sequence : string) (mf : matrix_form F)
    (i j : nat) (MP : list (list F) * list (list nat)) : Prop :=
  let n := length (initial mf) in
  let T := String.length sequence in
  mat_shape MP.1 T n ∧ mat_shape MP.2 T n
  ∧ (∀ t s, mat_at 0 MP.2 t s < n ∨ n = 0)
  ∧ (∀ t s, t < i ∨ (t = i ∧ s < j) → s < n → ok (mat_at fzero MP.1 t s))
  ∧ base_row sequence mf MP.1
  ∧ (∀ t s, 1 ≤ t < i → s < n →
       viterbi_cell sequence mf MP.1 MP.2 t s ∧ first_best mf MP.1 MP.2 t s)
  ∧ (∀ s, s < j →
       viterbi_cell sequence mf MP.1 MP.2 i s ∧ first_best mf MP.1 MP.2 i s).

(** The state of a left-to-right scan for the first greatest of the
    scores [c 0], ..., [c (m - 1)], started from [(0, -inf)]. *)
Definition scan_inv (c : nat → F) (m : nat) (best : nat * F) : Prop :=
  (best = (0, fneg_inf) ∧ ∀ k, k < m → fgt (c k) fneg_inf = false)
  ∨ (best.1 < m ∧ best.2 = c best.1
     ∧ (∀ k, k < m → fgt (c k) (c best.1) = false)
     ∧ (∀ k, k < best.1 → fgt (c best.1) (c k) = true)).

(** [np.argmax]: the state of the fold after the entries before
    position [m]. *)
Definition argmax_inv (row : list F) (m : nat) (st : nat * F * nat) : Prop :=
  st.2 = m ∧ st.1.1 < m ∧ st.1.2 = nth st.1.1 row fzero
  ∧ (∀ k, k < m → fgt (nth k row fzero) st.1.2 = false)
  ∧ (∀ k, k < st.1.1 → fgt st.1.2 (nth k row fzero) = true).

(** The chain of predecessors that [P] records for the state [s] at
    position [t]: [s], then the state whose number is the entry
    [P[t][s]], and so on down to position 0. *)
Fixpoint backtrace (P : list (list nat)) (t s : nat) : list nat :=
  match t with
  | O => [s]
  | S t' => s :: backtrace P t' (mat_at 0 P t s)
  end.

(** [label_map[s]] *)
Definition label_of (mf : matrix_form F) (s : nat) : result (value F) :=
  of_option KeyError (dict_get (label_map mf) s).
End DecoderSpec.
Arguments NumericOrder {F _} ok.

(** ** The vocabulary of the matrix builder's specification *)

Section BuilderSpec.
Context {F : Type} `{Numeric F}.

(** [x] is the number stored for the key [k] of the map [d]: the
    probability declared for [k], or 0 when [k] is not a key of [d]. *)
Definition declared (d : dict string (pval F)) (k : string) (x : F) : Prop :=
  match dict_get d k with
  | Some p => as_float p = Ok x
  | None => x = fzero
  end.

(** A map whose keys are all among [known] and whose values are
    numbers. *)
Definition resolved (known : list string) (d : dict string (pval F)) : Prop :=
  dict_wf d
  ∧ ∀ k p, (k, p) ∈ d → k ∈ known ∧ ∃ x, as_float p = Ok x.

(** Normalized states: there is a [begin] state with a [trans] map over
    the other states, and every other state has a [trans] map over the
    other states and an [only] map over the alphabet. *)
Definition normalized (alphabet : string) (states : dict string (state F)) : Prop :=
  let real := dict_del states "begin" in
  dict_wf states
  ∧ (∃ begin begin_trans,
       dict_get states "begin" = Some begin
       ∧ dict_get begin "trans" = Some (VMap begin_trans)
       ∧ resolved (keys real) begin_trans)
  ∧ ∀ name st, (name, st) ∈ real →
      ∃ trans only,
        dict_get st "trans" = Some (VMap trans)
        ∧ dict_get st "only" = Some (VMap only)
        ∧ resolved (keys real) trans
        ∧ resolved (str_iter alphabet) only.

(** Row [r] of [transitions] and of [emissions] holds what the state
    [st] declares: per target state in [trans], per symbol in [only],
    and 0 elsewhere. *)
Definition row_declared (alphabet : string) (real : dict string (state F))
    (transitions emissions : list (list F)) (r : nat) (st : state F) : Prop :=
  (∀ trans j target,
     dict_get st "trans" = Some (VMap trans) →
     keys real !! j = Some target →
     declared trans target (mat_at fzero transitions r j))
  ∧ (∀ only c,
       dict_get st "only" = Some (VMap only) →
       c < String.length alphabet →
       (∀ ch, dict_get (index_map (str_iter alphabet)) ch = Some c →
              declared only ch (mat_at fzero emissions r c))
       ∧ ((∀ ch, dict_get (index_map (str_iter alphabet)) ch ≠ Some c) →
          mat_at fzero emissions r c = fzero)).

(** The arrays when the first [i] states have been stored. *)
Definition rows_inv (alphabet : string) (real : dict string (state F)) (i : nat)
    (arrays : list (list F) * list (list F) * dict nat (value F)) : Prop :=
  let '(transitions, emissions, _) := arrays in
  mat_shape transitions (length real) (length real)
  ∧ mat_shape emissions (length real) (String.length alphabet)
  ∧ (∀ r c, i ≤ r →
       mat_at fzero transitions r c = fzero ∧ mat_at fzero emissions r c = fzero)
  ∧ ∀ r name st, r < i → real !! r = Some (name, st) →
      row_declared alphabet real transitions emissions r st.
End BuilderSpec.

(** ** The vocabulary of the further properties *)

(** A character that belongs to a token; every other character only
    separates tokens. *)
Definition is_token_char (c : ascii) : bool := is_word_char c || is_punct c.

(** A word: a non-empty string of word characters. *)
Definition is_word (t : string) : bool :=
  match chars t with
  | [] => false
  | cs => forallb is_word_char cs
  end.

(** A token: a word or one punctuation character. *)
Definition is_token (t : string) : bool :=
  is_word t
  || match chars t with
     | [c] => is_punct c
     | _ => false
     end.

(** The tokens written one after the other, each followed by the
    separator [sep]. *)
Definition unwords (sep : ascii) (ts : list string) : string :=
  join ((λ t, t +:+ str_of_char sep) <$> ts).

(** A line without a token: only separators. *)
Definition is_blank (l : string) : bool :=
  forallb (λ c, negb (is_token_char c)) (chars l).

Section Grammar.
Context {F : Type} `{Numeric F}.

(** An entry [key : value] of a map, with the number its value stands
    for. *)
Definition entry_ok (e : string * string * F) : Prop :=
  e.1.1 ≠ ";" ∧ float_of_str e.1.2 = Some e.2.

(** The tokens of a list of entries, and the items of the map they
    stand for. *)
Definition entry_tokens (entries : list (string * string * F)) : list string :=
  concat ((λ e, [e.1.1; ":"; e.1.2]) <$> entries).

Definition entry_items (entries : list (string * string * F))
  : list (string * pval F) :=
  (λ e, (e.1.1, PFloat e.2)) <$> entries.

(** A field of a state block: its name, the tokens of its value, the
    token that ends it, and the value the tokens stand for. *)
Record field : Type := Field {
  field_name : string;
  field_body : list string;
  field_end : string;
  field_value : value F;
}.

(** The tokens of a field: its name, its value and the token that ends
    it. *)
Definition field_tokens (f : field) : list string :=
  field_name f :: field_body f ++ [field_end f].

(** The tokens of the value stand for the value: in front of the token
    that ends the field they are read as the value, and that token is
    left. *)
Definition field_ok (f : field) : Prop :=
  field_name f ≠ "}"
  ∧ ∀ rest, parse_field (field_name f) (field_body f ++ field_end f :: rest)
            = Ok (field_end f :: rest, field_value f).

(** The items of the state of a list of fields. *)
Definition field_items (fields : list field) : list (string * value F) :=
  (λ f, (field_name f, field_value f)) <$> fields.
End Grammar.
Arguments field F : clear implicits.

(** An entry of the header: its key, its value and the token that ends
    it. *)
Definition header_tokens (entries : list (string * string * string))
  : list string :=
  concat ((λ e, [e.1.1; e.1.2; e.2]) <$> entries).

Section DecoderVocabulary.
Context {F : Type} `{Numeric F}.

(** The tables have one row per symbol and one column per state, and
    the entries of [P] are states. *)
Definition tables_shape (sequence : string) (mf : matrix_form F)
    (MP : list (list F) * list (list nat)) : Prop :=
  mat_shape MP.1 (String.length sequence) (length (initial mf))
  ∧ mat_shape MP.2 (String.length sequence) (length (initial mf))
  ∧ ∀ t s, mat_at 0 MP.2 t s < length (initial mf).

(** Every state has a label, which is a string. *)
Definition labelled (mf : matrix_form F) : Prop :=
  ∀ s, s < length (initial mf) → ∃ l, dict_get (label_map mf) s = Some (VStr l).

(** The label of the state [s]. *)
Definition state_label (mf : matrix_form F) (s : nat) : string :=
  match dict_get (label_map mf) s with
  | Some (VStr l) => l
  | _ => ""
  end.

(** Adding a score on the right keeps the order of two scores. *)
Definition fadd_monotone (ok : F → Prop) : Prop :=
  ∀ x y z, ok x → ok y → ok z →
    fgt x y = false → fgt (fadd x z) (fadd y z) = false.

(** The score of a path of states, given from its last state back to
    its first, added up in the order in which the decoder adds: the
    score of the path before its last state, plus the log transition
    into the last state, plus the log emission of the symbol there. *)
Fixpoint path_score (sequence : string) (mf : matrix_form F)
    (rpath : list nat) : F :=
  match rpath with
  | [] => fneg_inf
  | s :: rest =>
      match rest with
      | [] => fadd (log_initial mf s) (log_emission mf s (obs sequence mf 0))
      | k :: _ =>
          fadd (fadd (path_score sequence mf rest) (log_transition mf k s))
            (log_emission mf s (obs sequence mf (length rest)))
      end
  end.
End DecoderVocabulary.

(** The characters that a list of runs stands for. *)
Definition expand (rs : list (nat * nat * ascii)) : list ascii :=
  concat ((λ r, replicate (S (r.1.2 - r.1.1)) r.2) <$> rs).

(** The numbers of opening and of closing braces among the tokens. *)
Definition braces (tokens : list string) : nat * nat :=
  (length (filter (λ t, t = "{") tokens), length (filter (λ t, t = "}") tokens)).

(** An outcome that, when it is an exception, is one of [allowed]. *)
Definition raises_only {A} (allowed : list exn) (r : result A) : Prop :=
  match r with
  | Raise e => e ∈ allowed
  | _ => True
  end.

(** The exceptions of the parser and of the decoder. *)
Definition parser_errors : list exn :=
  [IndexError; ValueError; KeyError; AttributeError].
Definition decoder_errors : list exn :=
  [IndexError; KeyError; ValueError; TypeError].

(** The kind of value that the name of a field of a state calls for: a
    map or a list for [trans] and [only], an integer for [type] and
    [end], a string for every other field. *)
Definition kind_ok {F} (name : string) (v : value F) : Prop :=
  match v with
  | VMap _ | VList _ => name ∈ ["trans"; "only"]
  | VInt _ => name ∈ ["type"; "end"]
  | VStr _ => name ∉ ["trans"; "only"; "type"; "end"]
  end.

(** States whose fields all have the kind their names call for. *)
Definition typed_state {F} (st : state F) : Prop :=
  ∀ name v, dict_get st name = Some v → kind_ok name v.
Definition typed_states {F} (states : dict string (state F)) : Prop :=
  ∀ name st, dict_get states name = Some st → typed_state st.

(** * Verification *)

(** ** Outcomes and loops *)

Lemma bind_Ok {A B} (a : A) (k : A → result B) : Ok a ≫= k = k a.
Proof. reflexivity. Qed.

Lemma bind_Raise {A B} (e : exn) (k : A → result B) : Raise e ≫= k = Raise e.
Proof. reflexivity. Qed.

Lemma bind_Ok_inv {A B} (r : result A) (k : A → result B) (b : B) :
  r ≫= k = Ok b → ∃ a, r = Ok a ∧ k a = Ok b.
Proof. destruct r as [a|e|]; [eauto|done..]. Qed.

Lemma terminates_bind {A B} (r : result A) (k : A → result B) :
  terminates r → (∀ a, r = Ok a → terminates (k a)) → terminates (r ≫= k).
Proof. destruct r as [a|e|]; [by eauto|done..]. Qed.

Lemma terminates_of_option {A} (e : exn) (o : option A) :
  terminates (of_option e o).
Proof. by destruct o. Qed.

Lemma for_each_cons {A S} (x : A) (xs : list A) (body : S → A → result S) (st : S) :
  for_each (x :: xs) body st = body st x ≫= for_each xs body.
Proof. reflexivity. Qed.

Lemma for_each_app {A S} (xs ys : list A) (body : S → A → result S) (st : S) :
  for_each (xs ++ ys) body st = for_each xs body st ≫= for_each ys body.
Proof.
  revert st. induction xs as [|x xs IH]; intros st; [done|].
  simpl. destruct (body st x) as [st'|e|]; [apply IH|done..].
Qed.

Lemma terminates_for_each {A S} (xs : list A) (body : S → A → result S) (st : S) :
  (∀ st x, terminates (body st x)) → terminates (for_each xs body st).
Proof.
  intros Hbody. revert st. induction xs as [|x xs IH]; intros st; [done|].
  simpl. apply terminates_bind; auto.
Qed.

(** A loop one of whose rounds always raises, raises. *)
Lemma for_each_raises {A S} (xs : list A) (body : S → A → result S)
    (x : A) (st : S) :
  x ∈ xs →
  (∀ st, ∃ e, body st x = Raise e) →
  (∀ st y, terminates (body st y)) →
  ∃ e, for_each xs body st = Raise e.
Proof.
  intros Hin Hx Hterm. revert st.
  induction xs as [|y xs IH]; intros st; [by apply elem_of_nil in Hin|].
  simpl. apply elem_of_cons in Hin as [->|Hin].
  - destruct (Hx st) as [e ->]. eauto.
  - destruct (body st y) as [st'|e|] eqn:Hy; [by apply IH|by eauto|].
    by destruct (Hterm st y).
Qed.

(** A loop whose rounds change nothing changes nothing. *)
Lemma for_each_skip {A S} (xs : list A) (body : S → A → result S) (st : S) :
  (∀ st x, body st x = Ok st) → for_each xs body st = Ok st.
Proof.
  intros Hbody. induction xs as [|x xs IH]; [done|].
  simpl. by rewrite Hbody.
Qed.

Lemma elem_of_range (lo hi i : nat) : i ∈ range lo hi ↔ lo ≤ i < hi.
Proof. unfold range. rewrite elem_of_seq. lia. Qed.

Lemma range_cons (lo hi : nat) : lo < hi → range lo hi = lo :: range (S lo) hi.
Proof.
  intros Hlt. unfold range.
  replace (hi - lo) with (S (hi - S lo)) by lia. done.
Qed.

Lemma of_option_Ok {A} (e : exn) (o : option A) (a : A) :
  of_option e o = Ok a → o = Some a.
Proof. destruct o; [by intros [= ->]|done]. Qed.

Lemma terminates_mapM {A B} (f : A → result B) (l : list A) :
  (∀ x, terminates (f x)) → terminates (mapM f l).
Proof.
  intros Hf. induction l as [|x l IH]; [done|].
  apply terminates_bind; [apply Hf|]. intros y _.
  apply terminates_bind; [apply IH|]. by intros ys _.
Qed.

Lemma for_each_range_inv {St} (I : nat → St → Prop) (body : St → nat → result St)
    (lo hi : nat) (st : St) :
  lo ≤ hi →
  I lo st →
  (∀ i st, lo ≤ i < hi → I i st → ∃ st', body st i = Ok st' ∧ I (S i) st') →
  ∃ st', for_each (range lo hi) body st = Ok st' ∧ I hi st'.
Proof.
  unfold range. intros Hle. remember (hi - lo) as len eqn:Hlen.
  revert lo st Hle Hlen. induction len as [|len IH]; intros lo st Hle Hlen H0 Hstep.
  - replace hi with lo by lia. simpl. eauto.
  - simpl. destruct (Hstep lo st) as (st' & -> & HI); [lia|done|].
    rewrite bind_Ok. apply IH; [lia|lia|done|].
    intros i st0 Hi. apply Hstep. lia.
Qed.

Lemma for_each_list_inv {A St} (I : nat → St → Prop) (body : St → A → result St)
    (xs : list A) (st : St) :
  I 0 st →
  (∀ i x st, xs !! i = Some x → I i st → ∃ st', body st x = Ok st' ∧ I (S i) st') →
  ∃ st', for_each xs body st = Ok st' ∧ I (length xs) st'.
Proof.
  revert I st. induction xs as [|x xs IH]; intros I st H0 Hstep; [by eauto|].
  rewrite for_each_cons.
  destruct (Hstep 0 x st) as (st1 & -> & H1); [done..|].
  rewrite bind_Ok. apply (IH (λ i, I (S i))); [done|].
  intros i y st0 Hy. by apply (Hstep (S i)).
Qed.

Lemma length_str_iter (s : string) : length (str_iter s) = String.length s.
Proof.
  unfold str_iter. rewrite length_fmap.
  induction s as [|c s IH]; simpl; [done|]. by rewrite IH.
Qed.

(** ** Dictionaries *)

Section DictFacts.
Context {K V : Type} `{EqDecision K}.
Implicit Types (d : dict K V) (k : K) (v : V).

Lemma dict_get_set_eq d k v : dict_get (dict_set d k v) k = Some v.
Proof.
  induction d as [|[k' v'] d IH]; simpl.
  - by rewrite decide_True.
  - destruct (decide (k = k')) as [->|Hne]; simpl.
    + by rewrite decide_True.
    + by rewrite decide_False.
Qed.

Lemma dict_get_set_ne d k k' v :
  k' ≠ k → dict_get (dict_set d k v) k' = dict_get d k'.
Proof.
  intros Hne. induction d as [|[k0 v0] d IH]; simpl.
  - by rewrite decide_False.
  - destruct (decide (k = k0)) as [->|Hk]; simpl.
    + by rewrite !decide_False.
    + destruct (decide (k' = k0)); [done|apply IH].
Qed.

Lemma dict_get_set d k k' v :
  dict_get (dict_set d k v) k' = if decide (k' = k) then Some v else dict_get d k'.
Proof.
  destruct (decide (k' = k)) as [->|Hne];
    [apply dict_get_set_eq|by apply dict_get_set_ne].
Qed.

Lemma keys_dict_set_present d k v :
  is_Some (dict_get d k) → keys (dict_set d k v) = keys d.
Proof.
  intros [v0 Hget]. induction d as [|[k' v'] d IH]; simpl in *; [done|].
  destruct (decide (k = k')) as [->|Hne]; [done|].
  unfold keys in *. simpl. f_equal. auto.
Qed.

Lemma dict_get_Some_elem d k v : dict_get d k = Some v → (k, v) ∈ d.
Proof.
  induction d as [|[k' v'] d IH]; simpl; [done|].
  destruct (decide (k = k')) as [->|Hne].
  - intros [= ->]. apply elem_of_cons. by left.
  - intros Hget. apply elem_of_cons. right. auto.
Qed.

Lemma dict_get_None d k : dict_get d k = None ↔ k ∉ keys d.
Proof.
  unfold keys. induction d as [|[k' v'] d IH]; simpl.
  - split; [intros _; apply not_elem_of_nil|done].
  - rewrite not_elem_of_cons. destruct (decide (k = k')) as [->|Hne].
    + split; [done|]. by intros [? _].
    + rewrite IH. split; [by intros ?; split|by intros [_ ?]].
Qed.

Lemma dict_get_is_Some d k : is_Some (dict_get d k) ↔ k ∈ keys d.
Proof.
  rewrite <- not_eq_None_Some, dict_get_None.
  destruct (decide (k ∈ keys d)); naive_solver.
Qed.

Lemma elem_dict_get d k v : dict_wf d → (k, v) ∈ d → dict_get d k = Some v.
Proof.
  unfold dict_wf, keys. induction d as [|[k' v'] d IH]; simpl.
  - intros _ Hin. by apply elem_of_nil in Hin.
  - intros Hnd Hin. apply NoDup_cons in Hnd as [Hfresh Hnd].
    apply elem_of_cons in Hin as [[= -> ->]|Hin].
    + by rewrite decide_True.
    + destruct (decide (k = k')) as [->|Hne]; [|auto].
      destruct Hfresh. apply list_elem_of_fmap. by exists (k', v).
Qed.

(** [dict(pairs)] of pairs with distinct keys is the pairs themselves. *)
Lemma foldl_dict_set_fresh d (ps : list (K * V)) :
  NoDup (keys (d ++ ps)) →
  foldl (λ d p, dict_set d p.1 p.2) d ps = d ++ ps.
Proof.
  revert d. induction ps as [|[k v] ps IH]; intros d Hnd; simpl.
  - by rewrite app_nil_r.
  - assert (Hset : dict_set d k v = d ++ [(k, v)]).
    { unfold keys in Hnd. rewrite fmap_app in Hnd. simpl in Hnd.
      apply NoDup_app in Hnd as (_ & Hdisj & _).
      assert (Hk : k ∉ fst <$> d).
      { intros Hin. apply (Hdisj k Hin). apply elem_of_cons. by left. }
      clear -Hk. induction d as [|[k' v'] d IH]; simpl; [done|].
      rewrite fmap_cons, not_elem_of_cons in Hk. destruct Hk as [Hne Hk].
      rewrite decide_False by done. f_equal. auto. }
    rewrite Hset, IH; rewrite <- app_assoc; done.
Qed.

Lemma dict_of_pairs_fresh (ps : list (K * V)) :
  NoDup (keys ps) → dict_of_pairs ps = ps.
Proof. intros Hnd. by apply (foldl_dict_set_fresh []). Qed.

(** Every key of [dict(pairs)] comes from a pair, with its value. *)
Lemma foldl_dict_set_get d (ps : list (K * V)) k v :
  dict_get (foldl (λ d p, dict_set d p.1 p.2) d ps) k = Some v →
  (k, v) ∈ ps ∨ dict_get d k = Some v.
Proof.
  revert d. induction ps as [|[k' v'] ps IH]; intros d; simpl; [auto|].
  intros Hget. apply IH in Hget as [Hin|Hget].
  - left. apply elem_of_cons. auto.
  - rewrite dict_get_set in Hget. case_decide as Hk; [|auto].
    injection Hget as ->. subst k'. left. apply elem_of_cons. auto.
Qed.

Lemma foldl_dict_set_keys d (ps : list (K * V)) k :
  k ∈ keys ps ∨ k ∈ keys d →
  is_Some (dict_get (foldl (λ d p, dict_set d p.1 p.2) d ps) k).
Proof.
  revert d. induction ps as [|[k' v'] ps IH]; intros d; simpl.
  - intros [Hin|Hin]; [by apply elem_of_nil in Hin|by apply dict_get_is_Some].
  - intros Hin. apply IH. rewrite elem_of_cons in Hin.
    destruct Hin as [[->|Hin]|Hin]; [right|by left|right].
    + apply dict_get_is_Some. rewrite dict_get_set_eq. eauto.
    + apply dict_get_is_Some. rewrite dict_get_set.
      case_decide; [eauto|by apply dict_get_is_Some].
Qed.
End DictFacts.

Section DictFacts2.
Context {K V : Type} `{EqDecision K}.
Implicit Types (d : dict K V) (k : K) (v : V).

Lemma dict_set_set d k v v' : dict_set (dict_set d k v) k v' = dict_set d k v'.
Proof.
  induction d as [|[k' w] d IH]; simpl.
  - by rewrite decide_True.
  - destruct (decide (k = k')) as [->|Hne]; simpl.
    + by rewrite decide_True.
    + rewrite decide_False by done. by rewrite IH.
Qed.

Lemma dict_set_same d k v : dict_get d k = Some v → dict_set d k v = d.
Proof.
  induction d as [|[k' w] d IH]; simpl; [done|].
  destruct (decide (k = k')) as [->|Hne].
  - by intros [= ->].
  - intros Hget. by rewrite IH.
Qed.
End DictFacts2.

Section DictDel.
Context {K V : Type} `{EqDecision K}.
Implicit Types (d : dict K V) (k : K) (v : V).

Lemma elem_dict_del d k k' v : (k', v) ∈ dict_del d k → (k', v) ∈ d.
Proof.
  induction d as [|[k0 v0] d IH]; simpl; [done|].
  case_decide; rewrite !elem_of_cons; [by right|].
  intros [?|?]; [by left|right; auto].
Qed.

Lemma keys_dict_del_elem d k k' : k' ∈ keys (dict_del d k) → k' ∈ keys d.
Proof.
  unfold keys. intros Hin.
  apply list_elem_of_fmap in Hin as ([k0 v0] & -> & Hin).
  apply elem_dict_del in Hin. apply list_elem_of_fmap. by exists (k0, v0).
Qed.

Lemma dict_del_wf d k : dict_wf d → dict_wf (dict_del d k) ∧ k ∉ keys (dict_del d k).
Proof.
  unfold dict_wf. induction d as [|[k0 v0] d IH]; simpl.
  - intros _. split; [constructor|apply not_elem_of_nil].
  - intros Hnd. apply NoDup_cons in Hnd as [Hfresh Hnd].
    destruct (decide (k = k0)) as [->|Hne]; [done|].
    destruct (IH Hnd) as [Hwf Hk]. simpl. split.
    + apply NoDup_cons. split; [|done].
      intros Hin. by apply Hfresh, (keys_dict_del_elem d k).
    + apply not_elem_of_cons. by split.
Qed.
End DictDel.

Section IndexMaps.
Lemma elem_enumerate_from {A} (xs : list A) (b i : nat) (x : A) :
  (i, x) ∈ enumerate_from b xs ↔ b ≤ i ∧ xs !! (i - b) = Some x.
Proof.
  revert b. induction xs as [|y xs IH]; intros b; simpl.
  - split; [intros Hin; by apply elem_of_nil in Hin|by intros [_ ?]].
  - rewrite elem_of_cons, IH. split.
    + intros [[= -> ->]|[Hle Hx]].
      * by rewrite Nat.sub_diag.
      * split; [lia|]. by replace (i - b) with (S (i - S b)) by lia.
    + intros [Hle Hx]. destruct (decide (i = b)) as [->|Hne].
      * left. rewrite Nat.sub_diag in Hx. by injection Hx as ->.
      * right. split; [lia|].
        by replace (i - b) with (S (i - S b)) in Hx by lia.
Qed.

Lemma keys_enumerate_from {A} (xs : list A) (b : nat) :
  keys (enumerate_from b xs) = seq b (length xs).
Proof.
  revert b. induction xs as [|y xs IH]; intros b; [done|].
  simpl. f_equal. apply IH.
Qed.

Lemma keys_swap_enumerate_from {A} (xs : list A) (b : nat) :
  keys ((λ kv : nat * A, (kv.2, kv.1)) <$> enumerate_from b xs) = xs.
Proof.
  revert b. induction xs as [|y xs IH]; intros b; [done|].
  simpl. f_equal. apply IH.
Qed.

(** [dict(enumerate(xs))] *)
Lemma dict_of_enumerate {A} (xs : list A) :
  dict_of_pairs (enumerate xs) = enumerate xs.
Proof.
  apply dict_of_pairs_fresh. unfold enumerate.
  rewrite keys_enumerate_from. apply NoDup_seq.
Qed.

Lemma index_map_Some (xs : list string) (x : string) (i : nat) :
  dict_get (index_map xs) x = Some i → xs !! i = Some x.
Proof.
  unfold index_map, dict_of_pairs. intros Hget.
  apply foldl_dict_set_get in Hget as [Hin|Hget]; [|done].
  apply list_elem_of_fmap in Hin as ([j y] & [= -> ->] & Hin).
  apply elem_enumerate_from in Hin as [_ Hx].
  by rewrite Nat.sub_0_r in Hx.
Qed.

Lemma index_map_is_Some (xs : list string) (x : string) :
  x ∈ xs → is_Some (dict_get (index_map xs) x).
Proof.
  intros Hin. unfold index_map, dict_of_pairs.
  apply foldl_dict_set_keys. left.
  unfold enumerate. by rewrite keys_swap_enumerate_from.
Qed.

Lemma index_map_lookup (xs : list string) (x : string) (i : nat) :
  NoDup xs → xs !! i = Some x → dict_get (index_map xs) x = Some i.
Proof.
  intros Hnd Hx.
  destruct (index_map_is_Some xs x) as [j Hj]; [by eapply list_elem_of_lookup_2|].
  rewrite Hj. f_equal. apply index_map_Some in Hj.
  by eapply NoDup_lookup.
Qed.

Lemma index_map_lt (xs : list string) (x : string) (i : nat) :
  dict_get (index_map xs) x = Some i → i < length xs.
Proof. intros Hget. apply index_map_Some in Hget. by eapply lookup_lt_Some. Qed.
End IndexMaps.

(** ** Arrays *)



Lemma arr_get_ok {A} (d : A) (a : list A) (i : nat) :
  i < length a → arr_get a i = Ok (nth i a d).
Proof.
  intros Hi. unfold arr_get. rewrite nth_lookup.
  destruct (lookup_lt_is_Some_2 a i Hi) as [x ->]. done.
Qed.

Lemma mat_row_length {A} (m : list (list A)) (rows cols i : nat) :
  mat_shape m rows cols → i < rows → length (nth i m []) = cols.
Proof.
  intros [Hlen Hrows] Hi. rewrite nth_lookup.
  destruct (lookup_lt_is_Some_2 m i) as [row Hrow]; [lia|].
  rewrite Hrow. simpl. by eapply (Forall_lookup_1 _ _ _ _ Hrows).
Qed.

Lemma mat_get_ok {A} (d : A) (m : list (list A)) (rows cols i j : nat) :
  mat_shape m rows cols → i < rows → j < cols →
  mat_get m i j = Ok (mat_at d m i j).
Proof.
  intros Hshape Hi Hj. unfold mat_get, mat_at.
  rewrite (arr_get_ok [] m i) by (destruct Hshape; lia).
  rewrite bind_Ok. apply arr_get_ok.
  by rewrite (mat_row_length m rows cols).
Qed.

Lemma mat_set_ok {A} (m : list (list A)) (rows cols i j : nat) (x : A) :
  mat_shape m rows cols → i < rows → j < cols →
  mat_set m i j x = Ok (mat_upd m i j x).
Proof.
  intros Hshape Hi Hj. unfold mat_set, mat_upd.
  rewrite (arr_get_ok [] m i) by (destruct Hshape; lia).
  rewrite bind_Ok. unfold arr_set.
  rewrite (mat_row_length m rows cols) by done.
  rewrite decide_True by done. rewrite bind_Ok.
  rewrite decide_True by (destruct Hshape; lia). done.
Qed.

Lemma mat_upd_shape {A} (m : list (list A)) (rows cols i j : nat) (x : A) :
  mat_shape m rows cols → mat_shape (mat_upd m i j x) rows cols.
Proof.
  intros Hshape. destruct (decide (i < rows)) as [Hi|Hi].
  - pose proof (mat_row_length m rows cols i Hshape Hi) as Hrow.
    destruct Hshape as [Hlen Hrows]. split.
    + unfold mat_upd. by rewrite length_insert.
    + unfold mat_upd. apply Forall_insert; [done|].
      by rewrite length_insert.
  - unfold mat_upd. rewrite list_insert_ge; [done|].
    destruct Hshape. lia.
Qed.

Lemma mat_upd_eq {A} (d : A) (m : list (list A)) (rows cols i j : nat) (x : A) :
  mat_shape m rows cols → i < rows → j < cols →
  mat_at d (mat_upd m i j x) i j = x.
Proof.
  intros Hshape Hi Hj. unfold mat_at, mat_upd.
  rewrite (nth_lookup _ i), list_lookup_insert_eq by (destruct Hshape; lia).
  simpl. rewrite nth_lookup, list_lookup_insert_eq; [done|].
  by rewrite (mat_row_length m rows cols).
Qed.

Lemma mat_upd_ne {A} (d : A) (m : list (list A)) (i j i' j' : nat) (x : A) :
  i' ≠ i ∨ j' ≠ j →
  mat_at d (mat_upd m i j x) i' j' = mat_at d m i' j'.
Proof.
  intros Hne. unfold mat_at, mat_upd.
  destruct (decide (i' = i)) as [->|Hi].
  - destruct Hne as [?|Hj]; [done|].
    destruct (decide (i < length m)) as [Hlt|Hge].
    + rewrite (nth_lookup _ i), list_lookup_insert_eq by done. simpl.
      rewrite (nth_lookup _ j'), list_lookup_insert_ne by done.
      by rewrite <- nth_lookup.
    + rewrite list_insert_ge by lia. done.
  - rewrite (nth_lookup _ i'), list_lookup_insert_ne by done.
    by rewrite <- nth_lookup.
Qed.

Lemma mat_shape_replicate {A} (rows cols : nat) (x : A) :
  mat_shape (replicate rows (replicate cols x)) rows cols.
Proof.
  split; [apply length_replicate|].
  apply Forall_replicate. apply length_replicate.
Qed.

Lemma mat_at_replicate {A} (d : A) (rows cols i j : nat) :
  mat_at d (replicate rows (replicate cols d)) i j = d.
Proof.
  unfold mat_at. rewrite (nth_lookup _ i).
  destruct (decide (i < rows)) as [Hi|Hi].
  - rewrite lookup_replicate_2 by done. simpl.
    rewrite nth_lookup. destruct (decide (j < cols)) as [Hj|Hj].
    + by rewrite lookup_replicate_2.
    + rewrite lookup_ge_None_2; [done|]. rewrite length_replicate. lia.
  - rewrite lookup_ge_None_2 by (rewrite length_replicate; lia).
    simpl. by destruct j.
Qed.

Lemma terminates_arr_get {A} (a : list A) (i : nat) : terminates (arr_get a i).
Proof. apply terminates_of_option. Qed.

Lemma terminates_arr_set {A} (a : list A) (i : nat) (x : A) :
  terminates (arr_set a i x).
Proof. unfold arr_set. by case_decide. Qed.

Lemma terminates_mat_get {A} (m : list (list A)) (i j : nat) :
  terminates (mat_get m i j).
Proof.
  apply terminates_bind; [apply terminates_arr_get|].
  intros; apply terminates_arr_get.
Qed.

Lemma terminates_mat_set {A} (m : list (list A)) (i j : nat) (x : A) :
  terminates (mat_set m i j x).
Proof.
  apply terminates_bind; [apply terminates_arr_get|]. intros row _.
  apply terminates_bind; [apply terminates_arr_set|]. intros row' _.
  apply terminates_arr_set.
Qed.

(** ** Grammar parser *)

Section Parser.
Context {F : Type} `{Numeric F}.
Implicit Types (tokens rest pre : list string).

(** A parser that returns [rest] has read a prefix of its tokens ending
    before [rest], and does the same in front of any other tokens. *)
Lemma parse_list_loop_local tokens (acc : list string) rest l :
  _parse_list_loop tokens acc = Ok (rest, l) →
  ∃ pre rest0,
    tokens = pre ++ ";" :: rest0 ∧ rest = ";" :: rest0
    ∧ (";" ∉ pre)
    ∧ ∀ rest2, _parse_list_loop (pre ++ ";" :: rest2) acc = Ok (";" :: rest2, l).
Proof.
  revert acc. induction tokens as [|token tokens IH]; intros acc; simpl; [done|].
  destruct (decide (token = ";")) as [->|Hne].
  - intros [= <- <-]. exists [], tokens. split_and!; [done..|apply not_elem_of_nil|].
    done.
  - intros Hrun. apply IH in Hrun as (pre & rest0 & -> & -> & Hpre & Hlocal).
    exists (token :: pre), rest0. split_and!; [done..| |].
    + apply not_elem_of_cons. by split.
    + intros rest2. simpl. rewrite decide_False by done. apply Hlocal.
Qed.

Lemma parse_map_loop_local (len : nat) tokens (acc : dict string (pval F)) rest r :
  length tokens ≤ len →
  _parse_map_loop tokens acc = Ok (rest, r) →
  ∃ pre,
    tokens = pre ++ rest
    ∧ match r with
      | Some m =>
          ∃ rest0, rest = ";" :: rest0
            ∧ ∀ rest2, _parse_map_loop (pre ++ ";" :: rest2) acc
                       = Ok (";" :: rest2, Some m)
      | None =>
          ∃ a b rest0, rest = a :: b :: rest0 ∧ a ≠ ";"
            ∧ ∀ rest2, _parse_map_loop (pre ++ a :: b :: rest2) acc
                       = Ok (a :: b :: rest2, None)
      end.
Proof.
  revert tokens acc. induction len as [|len IH]; intros tokens acc Hlen.
  { destruct tokens; [done|simpl in Hlen; lia]. }
  destruct tokens as [|token tokens1]; [done|]. simpl.
  destruct (decide (token = ";")) as [->|Hne].
  { intros [= <- <-]. exists []. split; [done|]. by exists tokens1. }
  destruct tokens1 as [|next_token tokens2]; [done|].
  destruct (decide (next_token ≠ ":")) as [Hnext|Hnext].
  { intros [= <- <-]. exists []. split; [done|].
    exists token, next_token, tokens2. split_and!; [done..|].
    intros rest2. simpl. by rewrite decide_False, decide_True. }
  destruct tokens2 as [|value tokens3]; [done|].
  destruct (float_of_str value) as [x|] eqn:Hx; [|done].
  simpl of_option. rewrite bind_Ok. intros Hrun.
  apply IH in Hrun as (pre & -> & Hr); [|simpl in Hlen; lia].
  exists (token :: next_token :: value :: pre). split; [done|].
  destruct r as [m|].
  - destruct Hr as (rest0 & -> & Hlocal). exists rest0. split; [done|].
    intros rest2. simpl. rewrite decide_False, decide_False by done.
    rewrite Hx. simpl of_option. rewrite bind_Ok. apply Hlocal.
  - destruct Hr as (a & b & rest0 & -> & Ha & Hlocal).
    exists a, b, rest0. split_and!; [done..|].
    intros rest2. simpl. rewrite decide_False, decide_False by done.
    rewrite Hx. simpl of_option. rewrite bind_Ok. apply Hlocal.
Qed.

Lemma parse_field_local (token : string) tokens rest (v : value F) :
  parse_field token tokens = Ok (rest, v) →
  ∃ pre,
    tokens = pre ++ rest
    ∧ ∀ x rest0, rest = x :: rest0 →
        ∀ rest2, parse_field token (pre ++ x :: rest2) = Ok (x :: rest2, v).
Proof.
  unfold parse_field.
  destruct (decide (token ∈ ["trans"; "only"])) as [_|_];
    [|destruct (decide (token ∈ ["type"; "end"])) as [_|_]].
  - intros Hrun. apply bind_Ok_inv in Hrun as ([tokens1 r] & Hmap & Hrun).
    apply (parse_map_loop_local (length tokens)) in Hmap as (pre & -> & Hr);
      [|done].
    destruct r as [m|].
    + injection Hrun as <- <-. destruct Hr as (rest0 & -> & Hlocal).
      exists pre. split; [done|]. intros x rest1 [= <- <-] rest2.
      unfold _parse_map. by rewrite Hlocal.
    + destruct Hr as (a & b & rest0 & -> & Ha & Hlocal).
      apply bind_Ok_inv in Hrun as ([tokens2 l] & Hlist & Hrun).
      injection Hrun as <- <-.
      apply parse_list_loop_local in Hlist
        as (pre2 & rest1 & Hsplit & -> & Hpre2 & Hlocal2).
      exists (pre ++ pre2). split; [by rewrite <- app_assoc, Hsplit|].
      intros x rest3 [= <- <-] rest2.
      assert (∃ tail, pre2 ++ ";" :: rest2 = a :: b :: tail) as [tail Htail].
      { destruct pre2 as [|a' [|b' pre2]]; simpl in *.
        - congruence.
        - injection Hsplit as <- <- _. eauto.
        - injection Hsplit as <- <- _. eauto. }
      unfold _parse_map. rewrite <- app_assoc, Htail, Hlocal, bind_Ok.
      unfold _parse_list. rewrite <- Htail, Hlocal2. done.
  - destruct tokens as [|t tokens1]; [done|]. simpl popleft. rewrite bind_Ok.
    destruct (int_of_str t) as [z|] eqn:Hz; [|done].
    intros [= <- <-]. exists [t]. split; [done|].
    intros x rest0 -> rest2. simpl. by rewrite Hz.
  - destruct tokens as [|t tokens1]; [done|]. simpl popleft. rewrite bind_Ok.
    intros [= <- <-]. exists [t]. split; [done|]. by intros x rest0 -> rest2.
Qed.

Lemma terminates_parse_field (token : string) tokens :
  terminates (parse_field token tokens).
Proof.
  unfold parse_field.
  assert (Hlist : ∀ tokens acc, terminates (_parse_list_loop tokens acc)).
  { clear. intros tokens. induction tokens as [|t tokens IH]; intros acc; simpl;
      [done|]. by case_decide. }
  assert (Hmap : ∀ len tokens acc, length tokens ≤ len →
            terminates (_parse_map_loop tokens acc)).
  { clear. induction len as [|len IH]; intros tokens acc Hlen.
    { destruct tokens; [done|simpl in Hlen; lia]. }
    destruct tokens as [|t [|t1 [|t2 tokens]]]; simpl; try done;
      repeat case_decide; try done.
    destruct (float_of_str t2); [|done]. simpl of_option. rewrite bind_Ok.
    apply IH. simpl in Hlen. lia. }
  repeat case_decide.
  - apply terminates_bind; [by apply (Hmap (length tokens))|].
    intros [tokens1 [m|]] _; [done|].
    apply terminates_bind; [apply Hlist|]. by intros [? ?] _.
  - destruct tokens as [|t tokens1]; [done|]. simpl popleft. rewrite bind_Ok.
    by destruct (int_of_str t).
  - by destruct tokens as [|t tokens1].
Qed.

Lemma parse_state_loop_local (fuel : nat) tokens (acc : state F) rest st :
  _parse_state_loop fuel tokens acc = Ok (rest, st) →
  ∃ pre,
    tokens = pre ++ "}" :: rest
    ∧ ∀ rest2, _parse_state_loop fuel (pre ++ "}" :: rest2) acc = Ok (rest2, st).
Proof.
  revert tokens acc. induction fuel as [|fuel IH]; intros tokens acc; [done|].
  destruct tokens as [|token tokens1]; [done|]. simpl.
  destruct (decide (token = "}")) as [->|Hne].
  { intros [= <- <-]. by exists []. }
  intros Hrun. apply bind_Ok_inv in Hrun as ([tokens2 v] & Hfield & Hrun).
  destruct tokens2 as [|x tokens3]; [done|]. simpl popleft in Hrun.
  rewrite bind_Ok in Hrun.
  apply IH in Hrun as (pre3 & -> & Hlocal3).
  apply parse_field_local in Hfield as (pre1 & -> & Hlocal1).
  exists (token :: pre1 ++ x :: pre3). split.
  { simpl. by rewrite <- app_assoc. }
  intros rest2. simpl. rewrite decide_False by done.
  rewrite <- app_assoc. simpl.
  rewrite (Hlocal1 x _ eq_refl), bind_Ok. simpl popleft. rewrite bind_Ok.
  apply Hlocal3.
Qed.

(** The fuel of [_parse_state_loop] does not matter once it exceeds the
    number of tokens. *)
Lemma parse_state_loop_fuel (fuel fuel' : nat) tokens (acc : state F) :
  length tokens < fuel → length tokens < fuel' →
  _parse_state_loop fuel tokens acc = _parse_state_loop fuel' tokens acc.
Proof.
  revert fuel' tokens acc.
  induction fuel as [|fuel IH]; intros fuel' tokens acc Hf Hf'; [lia|].
  destruct fuel' as [|fuel']; [lia|].
  destruct tokens as [|token tokens1]; [done|]. simpl.
  case_decide; [done|].
  destruct (parse_field token tokens1) as [[tokens2 v]| |] eqn:Hfield; [|done..].
  rewrite !bind_Ok.
  apply parse_field_local in Hfield as (pre1 & -> & _).
  destruct tokens2 as [|x tokens3]; [done|]. simpl popleft. rewrite !bind_Ok.
  simpl in Hf, Hf'. rewrite length_app in Hf, Hf'. simpl in Hf, Hf'.
  apply IH; lia.
Qed.

Lemma terminates_parse_state_loop (fuel : nat) tokens (acc : state F) :
  length tokens < fuel → terminates (_parse_state_loop fuel tokens acc).
Proof.
  revert tokens acc. induction fuel as [|fuel IH]; intros tokens acc Hf; [lia|].
  destruct tokens as [|token tokens1]; [done|]. simpl.
  case_decide; [done|].
  apply terminates_bind; [apply terminates_parse_field|].
  intros [tokens2 v] Hfield.
  apply parse_field_local in Hfield as (pre1 & -> & _).
  destruct tokens2 as [|x tokens3]; [done|]. simpl popleft. rewrite bind_Ok.
  apply IH. simpl in Hf. rewrite length_app in Hf. simpl in Hf. lia.
Qed.
End Parser.

Section ParserBlocks.
Context {F : Type} `{Numeric F}.
Implicit Types (tokens rest pre : list string).

Lemma last_app_cons {A} (l : list A) (x : A) : last (l ++ [x]) = Some x.
Proof. by rewrite last_snoc. Qed.

Lemma parse_state_cons (state_name x : string) tokens :
  _parse_state (F:=F) (state_name :: x :: tokens)
  = ('(tokens', parsed_state) ← _parse_state_loop (S (length tokens)) tokens [];
     Ok (tokens', (state_name, parsed_state))).
Proof. reflexivity. Qed.

Lemma parse_header_cons (x y : string) tokens :
  _parse_header (x :: y :: tokens) = _parse_header_loop tokens [].
Proof. reflexivity. Qed.

(** A state that is parsed is parsed from a block of tokens of its own,
    which ends with the closing brace. *)
Lemma parse_state_local tokens rest (ns : string * state F) :
  _parse_state tokens = Ok (rest, ns) →
  ∃ block,
    tokens = block ++ rest
    ∧ _parse_state block = Ok ([], ns)
    ∧ last block = Some "}"
    ∧ length rest < length tokens.
Proof.
  destruct tokens as [|state_name [|x tokens2]]; [done..|].
  rewrite parse_state_cons. intros Hrun.
  apply bind_Ok_inv in Hrun as ([rest' st] & Hloop & Hrun).
  injection Hrun as <- <-.
  apply parse_state_loop_local in Hloop as (pre & -> & Hlocal).
  exists (state_name :: x :: pre ++ ["}"]). split_and!.
  - simpl. by rewrite <- app_assoc.
  - rewrite parse_state_cons.
    rewrite (parse_state_loop_fuel _ (S (length (pre ++ "}" :: rest'))));
      [|rewrite length_app; simpl; lia|rewrite !length_app; simpl; lia].
    by rewrite (Hlocal []).
  - by rewrite !app_comm_cons, last_app_cons.
  - simpl. rewrite length_app. simpl. lia.
Qed.

Lemma terminates_parse_state tokens : terminates (_parse_state (F:=F) tokens).
Proof.
  destruct tokens as [|state_name [|x tokens2]]; [done..|].
  rewrite parse_state_cons.
  apply terminates_bind; [apply terminates_parse_state_loop; lia|].
  by intros [? ?] _.
Qed.

Lemma parse_header_loop_local (len : nat) tokens (acc : dict string string)
    rest header :
  length tokens ≤ len →
  _parse_header_loop tokens acc = Ok (rest, header) →
  ∃ pre,
    tokens = pre ++ "}" :: rest
    ∧ ∀ rest2, _parse_header_loop (pre ++ "}" :: rest2) acc = Ok (rest2, header).
Proof.
  revert tokens acc. induction len as [|len IH]; intros tokens acc Hlen.
  { destruct tokens; [done|simpl in Hlen; lia]. }
  destruct tokens as [|token tokens1]; [done|]. simpl.
  destruct (decide (token = "}")) as [->|Hne].
  { intros [= <- <-]. by exists []. }
  destruct tokens1 as [|v [|x tokens3]]; [done..|].
  intros Hrun. apply IH in Hrun as (pre & -> & Hlocal); [|simpl in Hlen; lia].
  exists (token :: v :: x :: pre). split; [done|].
  intros rest2. simpl. rewrite decide_False by done. apply Hlocal.
Qed.

Lemma parse_header_local tokens rest (header : dict string string) :
  _parse_header tokens = Ok (rest, header) →
  ∃ block,
    tokens = block ++ rest
    ∧ _parse_header block = Ok ([], header)
    ∧ last block = Some "}".
Proof.
  destruct tokens as [|x [|y tokens2]]; [done..|].
  rewrite parse_header_cons. intros Hrun.
  apply (parse_header_loop_local (length tokens2)) in Hrun
    as (pre & -> & Hlocal); [|done].
  exists (x :: y :: pre ++ ["}"]). split_and!.
  - simpl. by rewrite <- app_assoc.
  - rewrite parse_header_cons. apply Hlocal.
  - by rewrite !app_comm_cons, last_app_cons.
Qed.

(** The [while tokens] loop returns when no token is left, after a
    sequence of complete state blocks. *)
Lemma parse_states_blocks (fuel : nat) tokens (acc : dict string (state F))
    rest states :
  parse_states fuel tokens acc = Ok (rest, states) →
  rest = []
  ∧ ∃ blocks parsed,
      tokens = concat blocks
      ∧ Forall2 (λ block ns, _parse_state block = Ok ([], ns)
                             ∧ last block = Some "}") blocks parsed
      ∧ states = foldl (λ d ns, dict_set d ns.1 ns.2) acc parsed.
Proof.
  revert tokens acc. induction fuel as [|fuel IH]; intros tokens acc.
  - destruct tokens; [|done]. intros [= <- <-]. split; [done|].
    exists [], []. split_and!; [done|constructor|done].
  - destruct tokens as [|t tokens1].
    { intros [= <- <-]. split; [done|].
      exists [], []. split_and!; [done|constructor|done]. }
    simpl. intros Hrun.
    apply bind_Ok_inv in Hrun as ([tokens2 [name st]] & Hstate & Hrun).
    apply parse_state_local in Hstate as (block & Hsplit & Hblock & Hlast & _).
    apply IH in Hrun as (-> & blocks & parsed & -> & Hall & ->).
    split; [done|]. exists (block :: blocks), ((name, st) :: parsed).
    split_and!; [done|by constructor|done].
Qed.

Lemma terminates_parse_states (fuel : nat) tokens (acc : dict string (state F)) :
  length tokens ≤ fuel → terminates (parse_states fuel tokens acc).
Proof.
  revert tokens acc. induction fuel as [|fuel IH]; intros tokens acc Hfuel.
  - destruct tokens; [done|simpl in Hfuel; lia].
  - destruct tokens as [|t tokens1]; [done|].
    simpl parse_states. apply terminates_bind; [apply terminates_parse_state|].
    intros [tokens2 [name st]] Hstate.
    apply parse_state_local in Hstate as (_ & _ & _ & _ & Hlen).
    apply IH. simpl in Hlen, Hfuel. lia.
Qed.

(** More fuel does not change what [_parse_state_loop] returns. *)
Lemma parse_state_loop_mono (fuel fuel' : nat) tokens (acc : state F)
    (r : list string * state F) :
  fuel ≤ fuel' →
  _parse_state_loop fuel tokens acc = Ok r →
  _parse_state_loop fuel' tokens acc = Ok r.
Proof.
  revert fuel' tokens acc.
  induction fuel as [|fuel IH]; intros fuel' tokens acc Hle; [done|].
  destruct fuel' as [|fuel']; [lia|].
  destruct tokens as [|token tokens1]; [done|]. simpl.
  case_decide; [done|].
  destruct (parse_field token tokens1) as [[tokens2 v]| |]; [|done..].
  rewrite !bind_Ok. destruct tokens2 as [|x tokens3]; [done|].
  simpl popleft. rewrite !bind_Ok. apply IH. lia.
Qed.

(** A block that is parsed alone is parsed in the same way in front of
    other tokens, which are left. *)
Lemma parse_state_extend tokens rest (ns : string * state F) :
  _parse_state tokens = Ok ([], ns) →
  _parse_state (tokens ++ rest) = Ok (rest, ns).
Proof.
  destruct tokens as [|state_name [|x tokens2]]; [done..|].
  rewrite parse_state_cons. intros Hrun.
  apply bind_Ok_inv in Hrun as ([rest' st] & Hloop & Hrun).
  injection Hrun as -> <-.
  apply parse_state_loop_local in Hloop as (pre & -> & Hlocal).
  simpl app. rewrite <- app_assoc. simpl app. rewrite parse_state_cons.
  rewrite (parse_state_loop_mono (S (length (pre ++ ["}"]))) _ _ _ (rest, st));
    [done| |apply Hlocal].
  rewrite !length_app. simpl. lia.
Qed.

Lemma parse_header_extend tokens rest (header : dict string string) :
  _parse_header tokens = Ok ([], header) →
  _parse_header (tokens ++ rest) = Ok (rest, header).
Proof.
  destruct tokens as [|x [|y tokens2]]; [done..|].
  rewrite parse_header_cons. intros Hrun.
  apply (parse_header_loop_local (length tokens2)) in Hrun
    as (pre & -> & Hlocal); [|done].
  simpl app. rewrite <- app_assoc. simpl app. rewrite parse_header_cons.
  apply Hlocal.
Qed.

(** The [while tokens] loop parses a sequence of complete state blocks
    block by block, and leaves no token. *)
Lemma parse_states_concat (fuel : nat) (blocks : list (list string))
    (parsed : list (string * state F)) (acc : dict string (state F)) :
  Forall2 (λ block ns, _parse_state block = Ok ([], ns)
                       ∧ last block = Some "}") blocks parsed →
  length (concat blocks) ≤ fuel →
  parse_states fuel (concat blocks) acc
  = Ok ([], foldl (λ d ns, dict_set d ns.1 ns.2) acc parsed).
Proof.
  intros Hall. revert fuel acc.
  induction Hall as [|block [name st] blocks parsed [Hblock Hlast] _ IH];
    intros fuel acc Hfuel.
  { by destruct fuel. }
  simpl concat in *. rewrite length_app in Hfuel.
  destruct block as [|t block]; [done|].
  destruct fuel as [|fuel]; [simpl in Hfuel; lia|].
  change (parse_states (S fuel) ((t :: block) ++ concat blocks) acc)
    with ('(tokens, (name, state)) ← _parse_state ((t :: block) ++ concat blocks);
          parse_states fuel tokens (dict_set acc name state)).
  rewrite (parse_state_extend _ _ _ Hblock), bind_Ok.
  rewrite IH by (simpl in Hfuel; lia). done.
Qed.

Lemma terminates_parse_header tokens : terminates (_parse_header tokens).
Proof.
  assert (Hloop : ∀ len tokens acc, length tokens ≤ len →
            terminates (_parse_header_loop tokens acc)).
  { induction len as [|len IH]; intros toks acc Hlen.
    { destruct toks; [done|simpl in Hlen; lia]. }
    destruct toks as [|t [|t1 [|t2 toks]]]; simpl; try done;
      case_decide; try done.
    apply IH. simpl in Hlen. lia. }
  destruct tokens as [|x [|y tokens2]]; [done..|].
  rewrite parse_header_cons. by apply (Hloop (length tokens2)).
Qed.

Lemma last_concat_blocks (blocks : list (list string)) :
  Forall (λ block, last block = Some "}") blocks →
  blocks ≠ [] → last (concat blocks) = Some "}".
Proof.
  induction blocks as [|block blocks IH]; [done|].
  intros Hall _. apply Forall_cons in Hall as [Hblock Hall]. simpl.
  destruct blocks as [|block' blocks].
  - simpl. by rewrite app_nil_r.
  - rewrite last_app, IH; done.
Qed.
End ParserBlocks.

(** ** State normalizer *)

Section Normalizer.
Context {F : Type} `{Numeric F}.
Implicit Types (states store : dict string (state F)) (st : state F).



(** What one round of the loop does to [states[name]]: the transitions
    are tied first, the emissions next, and the dictionary is changed at
    [name] only. *)
Lemma normalize_state_inv states name st states' :
  dict_get states name = Some st →
  normalize_state states name = Ok states' →
  ∃ st1 st2,
    match dict_get st "tied_trans" with
    | Some tied =>
        ∃ pn parent own ptrans probs targets,
          as_key tied = Ok pn ∧ dict_get states pn = Some parent
          ∧ dict_get st "trans" = Some own
          ∧ dict_get parent "trans" = Some ptrans
          ∧ map_values ptrans = Ok probs ∧ iter_value own = Ok targets
          ∧ st1 = dict_set st "trans" (VMap (dict_of_pairs (zip targets probs)))
    | None => st1 = st
    end
    ∧ match dict_get st1 "tied_letter" with
      | Some tied =>
          ∃ pn parent ponly only,
            as_key tied = Ok pn
            ∧ dict_get (dict_set states name st1) pn = Some parent
            ∧ dict_get parent "only" = Some ponly
            ∧ dict_copy ponly = Ok only
            ∧ st2 = dict_set st1 "only" only
      | None => st2 = st1
      end
    ∧ states' = dict_set states name st2.
Proof.
  intros Hst Hrun. unfold normalize_state in Hrun.
  rewrite Hst in Hrun. simpl of_option in Hrun. rewrite bind_Ok in Hrun.
  apply bind_Ok_inv in Hrun as (states1 & Htrans & Hrun).
  assert (∃ st1, states1 = dict_set states name st1
    ∧ match dict_get st "tied_trans" with
      | Some tied =>
          ∃ pn parent own ptrans probs targets,
            as_key tied = Ok pn ∧ dict_get states pn = Some parent
            ∧ dict_get st "trans" = Some own
            ∧ dict_get parent "trans" = Some ptrans
            ∧ map_values ptrans = Ok probs ∧ iter_value own = Ok targets
            ∧ st1 = dict_set st "trans" (VMap (dict_of_pairs (zip targets probs)))
      | None => st1 = st
      end) as (st1 & -> & Hst1).
  { destruct (dict_get st "tied_trans") as [tied|].
    - apply bind_Ok_inv in Htrans as (pn & Hpn & Htrans).
      apply bind_Ok_inv in Htrans as (parent & Hparent & Htrans).
      apply bind_Ok_inv in Htrans as (own & Hown & Htrans).
      apply bind_Ok_inv in Htrans as (ptrans & Hptrans & Htrans).
      apply bind_Ok_inv in Htrans as (probs & Hprobs & Htrans).
      apply bind_Ok_inv in Htrans as (targets & Htargets & Htrans).
      apply of_option_Ok in Hparent, Hown, Hptrans.
      injection Htrans as <-. eexists; split; [done|].
      by exists pn, parent, own, ptrans, probs, targets.
    - injection Htrans as <-. exists st. by rewrite dict_set_same. }
  rewrite dict_get_set_eq in Hrun. simpl of_option in Hrun.
  rewrite bind_Ok in Hrun. exists st1.
  destruct (dict_get st1 "tied_letter") as [tied|].
  - apply bind_Ok_inv in Hrun as (pn & Hpn & Hrun).
    apply bind_Ok_inv in Hrun as (parent & Hparent & Hrun).
    apply bind_Ok_inv in Hrun as (ponly & Hponly & Hrun).
    apply bind_Ok_inv in Hrun as (only & Honly & Hrun).
    apply of_option_Ok in Hparent, Hponly.
    injection Hrun as <-. eexists. split; [done|]. split.
    + by exists pn, parent, ponly, only.
    + by rewrite dict_set_set.
  - injection Hrun as <-. by exists st1.
Qed.

Lemma normalize_state_frame states name states' :
  normalize_state states name = Ok states' →
  keys states' = keys states
  ∧ ∀ k, k ≠ name → dict_get states' k = dict_get states k.
Proof.
  intros Hrun. pose proof Hrun as Hst. unfold normalize_state in Hst.
  apply bind_Ok_inv in Hst as (st & Hst & _). apply of_option_Ok in Hst.
  destruct (normalize_state_inv _ _ _ _ Hst Hrun) as (st1 & st2 & _ & _ & ->).
  split.
  - apply keys_dict_set_present. eauto.
  - intros k Hk. by apply dict_get_set_ne.
Qed.

Lemma normalize_loop_frame (names : list string) states states' :
  for_each names normalize_state states = Ok states' →
  keys states' = keys states
  ∧ ∀ k, k ∉ names → dict_get states' k = dict_get states k.
Proof.
  revert states. induction names as [|name names IH]; intros states Hrun.
  - by injection Hrun as <-.
  - rewrite for_each_cons in Hrun.
    apply bind_Ok_inv in Hrun as (mid & Hvisit & Hrun).
    apply normalize_state_frame in Hvisit as [Hkeys Hframe].
    apply IH in Hrun as [Hkeys' Hframe']. split; [congruence|].
    intros k Hk. apply not_elem_of_cons in Hk as [Hne Hk].
    rewrite Hframe' by done. by apply Hframe.
Qed.

(** The round of the loop for the state [name]: the states before it
    have been visited, and the later rounds leave [states[name]] alone. *)
Lemma normalize_visit states states' (pre post : list string) name st :
  dict_wf states →
  keys states = pre ++ name :: post →
  dict_get states name = Some st →
  _normalize_states states = Ok states' →
  ∃ store mid,
    for_each pre normalize_state states = Ok store
    ∧ dict_get store name = Some st
    ∧ normalize_state store name = Ok mid
    ∧ dict_get states' name = dict_get mid name.
Proof.
  intros Hwf Hkeys Hst Hrun. unfold _normalize_states in Hrun.
  unfold dict_wf in Hwf. rewrite Hkeys in Hwf, Hrun.
  apply NoDup_app in Hwf as (_ & Hpre & Hpost).
  apply NoDup_cons in Hpost as [Hpost _].
  rewrite for_each_app in Hrun.
  apply bind_Ok_inv in Hrun as (store & Hstore & Hrun).
  rewrite for_each_cons in Hrun.
  apply bind_Ok_inv in Hrun as (mid & Hmid & Hrun).
  exists store, mid. split_and!; [done| |done|].
  - apply normalize_loop_frame in Hstore as [_ Hframe].
    rewrite Hframe; [done|]. intros Hin. apply (Hpre name Hin).
    apply elem_of_cons. by left.
  - apply normalize_loop_frame in Hrun as [_ Hframe]. by apply Hframe.
Qed.
End Normalizer.

Section NormalizerCorrect.
Context {F : Type} `{Numeric F}.
Implicit Types (states store : dict string (state F)) (st : state F).

Lemma keys_zip_elem {A B} (xs : list A) (ys : list B) (x : A) :
  x ∈ keys (zip xs ys) → x ∈ xs.
Proof.
  revert ys. induction xs as [|x' xs IH]; intros [|y ys]; simpl;
    try (intros Hin; by apply elem_of_nil in Hin).
  rewrite !elem_of_cons. intros [->|Hin]; [by left|right; eauto].
Qed.

Lemma NoDup_keys_zip {A B} (xs : list A) (ys : list B) :
  NoDup xs → NoDup (keys (zip xs ys)).
Proof.
  revert ys. induction xs as [|x xs IH]; intros [|y ys] Hnd; simpl;
    try apply NoDup_nil_2.
  apply NoDup_cons in Hnd as [Hfresh Hnd]. apply NoDup_cons. split; [|auto].
  intros Hin. apply Hfresh. by eapply keys_zip_elem.
Qed.

Lemma zip_lookup {A B} (xs : list A) (ys : list B) (i : nat) (x : A) (y : B) :
  xs !! i = Some x → ys !! i = Some y → zip xs ys !! i = Some (x, y).
Proof.
  revert ys i. induction xs as [|x' xs IH]; intros [|y' ys] [|i]; simpl;
    try done.
  - by intros [= ->] [= ->].
  - apply IH.
Qed.

(** With distinct targets, [dict(zip(targets, probs))] gives the i-th
    target the i-th probability. *)
Lemma dict_zip_positional {B} (targets : list string) (probs : list B)
    (i : nat) (target : string) (p : B) :
  NoDup targets →
  targets !! i = Some target → probs !! i = Some p →
  dict_get (dict_of_pairs (zip targets probs)) target = Some p.
Proof.
  intros Hnd Ht Hp.
  rewrite dict_of_pairs_fresh by by apply NoDup_keys_zip.
  apply elem_dict_get; [by apply NoDup_keys_zip|].
  eapply list_elem_of_lookup_2. by apply zip_lookup.
Qed.

(** A successful normalization found a map as the [trans] of the parent
    when the tied state was visited. *)
Lemma tied_trans_visit states states' (pre post : list string)
    (name parent_name : string) st :
  dict_wf states →
  keys states = pre ++ name :: post →
  dict_get states name = Some st →
  dict_get st "tied_trans" = Some (VStr parent_name) →
  _normalize_states states = Ok states' →
  ∃ store parent m,
    for_each pre normalize_state states = Ok store
    ∧ dict_get store parent_name = Some parent
    ∧ dict_get parent "trans" = Some (VMap m).
Proof.
  intros Hwf Hkeys Hst Htied Hrun.
  destruct (normalize_visit _ _ _ _ _ _ Hwf Hkeys Hst Hrun)
    as (store & mid & Hstore & Hname & Hvisit & Hfinal).
  destruct (normalize_state_inv _ _ _ _ Hname Hvisit)
    as (st1 & st2 & Htrans & _).
  rewrite Htied in Htrans.
  destruct Htrans as (pn & parent & own & ptrans & probs & targets
                      & [= <-] & Hparent & Hown & Hptrans & Hprobs & _).
  destruct ptrans as [| | |m]; try done. by exists store, parent, m.
Qed.

(** C2.  Let the state [name] carry a [tied_trans] reference to
    [parent_name], and let normalization succeed.  When [name] is
    visited (the states before it in insertion order have been visited),
    the [trans] of [parent_name] is a map; the [trans] of [name] after
    normalization is [dict(zip(targets, probs))], where [targets] are
    the targets [name] itself declares and [probs] are the values of the
    parent's map in its key order.  With distinct targets, the i-th
    target has the i-th value, whatever the names. *)
Theorem tied_trans_positional states states' (pre post : list string)
    (name parent_name : string) st :
  dict_wf states →
  keys states = pre ++ name :: post →
  dict_get states name = Some st →
  dict_get st "tied_trans" = Some (VStr parent_name) →
  _normalize_states states = Ok states' →
  ∃ store parent probs_map own targets st',
    for_each pre normalize_state states = Ok store
    ∧ dict_get store parent_name = Some parent
    ∧ dict_get parent "trans" = Some (VMap probs_map)
    ∧ dict_get st "trans" = Some own ∧ iter_value own = Ok targets
    ∧ dict_get states' name = Some st'
    ∧ dict_get st' "trans"
      = Some (VMap (dict_of_pairs (zip targets (values probs_map))))
    ∧ (NoDup targets →
       ∀ i target p,
         targets !! i = Some target → values probs_map !! i = Some p →
         dict_get (dict_of_pairs (zip targets (values probs_map))) target
         = Some p).
Proof.
  intros Hwf Hkeys Hst Htied Hrun.
  destruct (normalize_visit _ _ _ _ _ _ Hwf Hkeys Hst Hrun)
    as (store & mid & Hstore & Hname & Hvisit & Hfinal).
  destruct (normalize_state_inv _ _ _ _ Hname Hvisit)
    as (st1 & st2 & Htrans & Hletter & ->).
  rewrite Htied in Htrans.
  destruct Htrans as (pn & parent & own & ptrans & probs & targets
                      & [= <-] & Hparent & Hown & Hptrans & Hprobs & Htargets & ->).
  destruct ptrans as [| | |probs_map]; try done. injection Hprobs as <-.
  rewrite dict_get_set_eq in Hfinal.
  exists store, parent, probs_map, own, targets, st2.
  split_and!; [done..| |].
  - destruct (dict_get (dict_set st "trans" _) "tied_letter") as [tied|].
    + destruct Hletter as (? & ? & ? & ? & _ & _ & _ & _ & ->).
      rewrite dict_get_set_ne by done. apply dict_get_set_eq.
    + subst st2. apply dict_get_set_eq.
  - intros Hnd i target p. by apply dict_zip_positional.
Qed.

(** C5.  Let the state [name] carry a [tied_letter] reference to
    [parent_name], and let normalization succeed.  The [only] of [name]
    after normalization is [dict(...)] of the [only] that [parent_name]
    has when [name] is visited: when that is a map, it is the same map,
    entry for entry and in the same order, whatever [only] the state
    [name] declared itself. *)
Theorem tied_letter_copy states states' (pre post : list string)
    (name parent_name : string) st :
  dict_wf states →
  keys states = pre ++ name :: post →
  dict_get states name = Some st →
  dict_get st "tied_letter" = Some (VStr parent_name) →
  _normalize_states states = Ok states' →
  ∃ store parent parent_only only st',
    for_each pre normalize_state states = Ok store
    ∧ dict_get store parent_name = Some parent
    ∧ dict_get parent "only" = Some parent_only
    ∧ dict_copy parent_only = Ok only
    ∧ dict_get states' name = Some st'
    ∧ dict_get st' "only" = Some only
    ∧ ∀ m, parent_only = VMap m → only = VMap m.
Proof.
  intros Hwf Hkeys Hst Htied Hrun.
  destruct (normalize_visit _ _ _ _ _ _ Hwf Hkeys Hst Hrun)
    as (store & mid & Hstore & Hname & Hvisit & Hfinal).
  destruct (normalize_state_inv _ _ _ _ Hname Hvisit)
    as (st1 & st2 & Htrans & Hletter & ->).
  assert (Hsame : ∀ field, field ≠ "trans" →
            dict_get st1 field = dict_get st field).
  { intros field Hfield. destruct (dict_get st "tied_trans").
    - destruct Htrans as (? & ? & ? & ? & ? & ? & _ & _ & _ & _ & _ & _ & ->).
      by apply dict_get_set_ne.
    - by subst st1. }
  rewrite Hsame, Htied in Hletter by done.
  destruct Hletter as (pn & parent & ponly & only
                       & [= <-] & Hparent & Hponly & Honly & ->).
  rewrite dict_get_set_eq in Hfinal.
  rewrite dict_get_set in Hparent.
  assert (∃ parent0, dict_get store parent_name = Some parent0
                     ∧ dict_get parent0 "only" = Some ponly)
    as (parent0 & Hparent0 & Hponly0).
  { case_decide as Hself.
    - injection Hparent as <-. subst parent_name. exists st. split; [done|].
      by rewrite <- Hsame.
    - by exists parent. }
  exists store, parent0, ponly, only, (dict_set st1 "only" only).
  split_and!; [done..|apply dict_get_set_eq|].
  intros m ->. by injection Honly as <-.
Qed.

(** C10.  Let the state [name] carry a [tied_trans] reference to
    [parent_name], and let [store] be the states when [name] is visited,
    after the rounds for the states before it.  When the [trans] of
    [parent_name] in [store] is still a bare list of targets,
    normalization raises [AttributeError]; when normalization succeeds,
    that [trans] is a map. *)
Theorem tied_trans_unresolved_parent states store (pre post : list string)
    (name parent_name : string) st (parent : state F) (own : value F) :
  dict_wf states →
  keys states = pre ++ name :: post →
  dict_get states name = Some st →
  dict_get st "tied_trans" = Some (VStr parent_name) →
  dict_get st "trans" = Some own →
  for_each pre normalize_state states = Ok store →
  dict_get store parent_name = Some parent →
  (∀ l, dict_get parent "trans" = Some (VList l) →
        _normalize_states states = Raise AttributeError)
  ∧ (∀ states', _normalize_states states = Ok states' →
        ∃ m, dict_get parent "trans" = Some (VMap m)).
Proof.
  intros Hwf Hkeys Hst Htied Hown Hstore Hparent. split.
  - intros l Hl. unfold _normalize_states. rewrite Hkeys, for_each_app, Hstore.
    rewrite bind_Ok, for_each_cons.
    assert (Hname : dict_get store name = Some st).
    { apply normalize_loop_frame in Hstore as [_ Hframe].
      rewrite Hframe; [done|]. unfold dict_wf in Hwf. rewrite Hkeys in Hwf.
      apply NoDup_app in Hwf as (_ & Hpre & _).
      intros Hin. apply (Hpre name Hin). apply elem_of_cons. by left. }
    unfold normalize_state. rewrite Hname. simpl of_option.
    rewrite bind_Ok, Htied. simpl as_key. rewrite bind_Ok, Hparent.
    simpl of_option. rewrite bind_Ok, Hown. simpl of_option.
    rewrite bind_Ok, Hl. done.
  - intros states' Hrun.
    destruct (tied_trans_visit states states' pre post name parent_name st)
      as (store' & parent' & m & Hstore' & Hparent' & Hm); [done..|].
    rewrite Hstore in Hstore'. injection Hstore' as <-.
    rewrite Hparent in Hparent'. injection Hparent' as <-. eauto.
Qed.
End NormalizerCorrect.

(** ** Matrix builder *)







Section Builder.
Context {F : Type} `{Numeric F}.

(** A loop that stores the numbers of a map into an array through an
    index map: an entry is the number of an item of its index, or is
    left as it was when no item has its index. *)
Lemma fill_loop {St} (idx : dict string nat) (bound : nat)
    (set : St → nat → F → result St) (get : St → nat → F) (Q : St → Prop)
    (items : dict string (pval F)) (st0 : St) :
  (∀ st i x, Q st → i < bound →
     ∃ st', set st i x = Ok st' ∧ Q st' ∧ get st' i = x
            ∧ ∀ j, j ≠ i → get st' j = get st j) →
  Q st0 →
  (∀ k p, (k, p) ∈ items →
     ∃ i x, dict_get idx k = Some i ∧ i < bound ∧ as_float p = Ok x) →
  ∃ st,
    for_each items (λ st '(k, p),
      i ← of_option KeyError (dict_get idx k);
      x ← as_float p;
      set st i x) st0 = Ok st
    ∧ Q st
    ∧ ∀ i, (get st i = get st0 i
            ∧ ∀ k p, (k, p) ∈ items → dict_get idx k ≠ Some i)
           ∨ (∃ k p, (k, p) ∈ items ∧ dict_get idx k = Some i
                     ∧ as_float p = Ok (get st i)).
Proof.
  intros Hset. revert st0.
  induction items as [|[k p] items IH]; intros st0 HQ Hitems.
  - exists st0. split_and!; [done..|]. intros i. left. split; [done|].
    intros k p Hin. by apply elem_of_nil in Hin.
  - destruct (Hitems k p) as (j & x & Hj & Hlt & Hx); [by left|].
    destruct (Hset st0 j x HQ Hlt) as (st1 & Hst1 & HQ1 & Hget & Hframe).
    destruct (IH st1 HQ1) as (st & Hrun & HQst & Hspec).
    { intros k' p' Hin. apply Hitems. by right. }
    exists st. split_and!; [|done|].
    + rewrite for_each_cons. cbn beta iota.
      rewrite Hj. simpl of_option. rewrite bind_Ok, Hx, bind_Ok, Hst1, bind_Ok.
      done.
    + intros i. destruct (Hspec i) as [[Hsame Hnone]|(k' & p' & Hin & Hk' & Hp')].
      * destruct (decide (i = j)) as [->|Hne].
        -- right. exists k, p. split_and!; [by left|done|]. by rewrite Hsame, Hget.
        -- left. split; [by rewrite Hsame, Hframe|].
           intros k' p' Hin. apply elem_of_cons in Hin as [[= -> ->]|Hin].
           ++ rewrite Hj. congruence.
           ++ by apply (Hnone k' p').
      * right. exists k', p'. split_and!; [by right|done..].
Qed.

Lemma arr_set_spec (n : nat) (a : list F) (i : nat) (x : F) :
  length a = n → i < n →
  ∃ a', arr_set a i x = Ok a' ∧ length a' = n ∧ nth i a' fzero = x
        ∧ ∀ j, j ≠ i → nth j a' fzero = nth j a fzero.
Proof.
  intros Hlen Hi. exists (<[i:=x]> a). unfold arr_set.
  rewrite decide_True by lia. split_and!; [done|by rewrite length_insert| |].
  - rewrite nth_lookup, list_lookup_insert_eq by lia. done.
  - intros j Hj. rewrite !nth_lookup, list_lookup_insert_ne by done. done.
Qed.

Lemma mat_set_row_spec (rows cols r : nat) (m0 m : list (list F)) (j : nat) (x : F) :
  r < rows →
  (mat_shape m rows cols
   ∧ ∀ r' c, r' ≠ r → mat_at fzero m r' c = mat_at fzero m0 r' c) →
  j < cols →
  ∃ m', mat_set m r j x = Ok m'
    ∧ (mat_shape m' rows cols
       ∧ ∀ r' c, r' ≠ r → mat_at fzero m' r' c = mat_at fzero m0 r' c)
    ∧ mat_at fzero m' r j = x
    ∧ ∀ c, c ≠ j → mat_at fzero m' r c = mat_at fzero m r c.
Proof.
  intros Hr [Hshape Hother] Hj. exists (mat_upd m r j x).
  split_and!.
  - by apply (mat_set_ok m rows cols).
  - by apply mat_upd_shape.
  - intros r' c Hr'. rewrite mat_upd_ne by by left. by apply Hother.
  - by apply (mat_upd_eq fzero m rows cols).
  - intros c Hc. apply mat_upd_ne. by right.
Qed.

(** An entry filled through an index map over distinct keys is the
    number declared for the key of its index. *)
Lemma declared_of_fill (idx : dict string nat) (items : dict string (pval F))
    (key : string) (i : nat) (x x0 : F) :
  dict_wf items →
  dict_get idx key = Some i →
  (∀ k, dict_get idx k = Some i → k = key) →
  x0 = fzero →
  (x = x0 ∧ ∀ k p, (k, p) ∈ items → dict_get idx k ≠ Some i)
  ∨ (∃ k p, (k, p) ∈ items ∧ dict_get idx k = Some i ∧ as_float p = Ok x) →
  declared items key x.
Proof.
  intros Hwf Hkey Hinj -> Hfill. unfold declared.
  destruct Hfill as [[-> Hnone]|(k & p & Hin & Hk & Hp)].
  - destruct (dict_get items key) as [p|] eqn:Hget; [|done].
    apply dict_get_Some_elem in Hget. by destruct (Hnone key p).
  - apply Hinj in Hk as ->. by rewrite (elem_dict_get items key p).
Qed.
End Builder.

Section BuilderCorrect.
Context {F : Type} `{Numeric F}.

Lemma fill_state_spec (alphabet : string) (real : dict string (state F))
    (arrays : list (list F) * list (list F) * dict nat (value F))
    (i : nat) (name : string) (st : state F) :
  dict_wf real →
  (∀ name st, (name, st) ∈ real →
     ∃ trans only,
       dict_get st "trans" = Some (VMap trans)
       ∧ dict_get st "only" = Some (VMap only)
       ∧ resolved (keys real) trans
       ∧ resolved (str_iter alphabet) only) →
  real !! i = Some (name, st) →
  rows_inv alphabet real i arrays →
  ∃ arrays',
    fill_state (index_map (keys real)) (index_map (str_iter alphabet))
      arrays (name, st) = Ok arrays'
    ∧ rows_inv alphabet real (S i) arrays'.
Proof.
  intros Hwf Hstates Hi. destruct arrays as [[T E] L].
  intros (HT & HE & Hzero & Hrows).
  assert (Hlt : i < length real) by by eapply lookup_lt_Some.
  assert (Hname : keys real !! i = Some name).
  { unfold keys. by rewrite list_lookup_fmap, Hi. }
  pose proof (index_map_lookup _ _ _ Hwf Hname) as Hidx.
  destruct (Hstates name st) as (tr & on & Htr & Hon & [Htrwf Htrres] & [Honwf Honres]);
    [by eapply list_elem_of_lookup_2|].
  destruct (fill_loop (index_map (keys real)) (length real)
              (λ m j x, mat_set m i j x) (λ m j, mat_at fzero m i j)
              (λ m, mat_shape m (length real) (length real)
                    ∧ ∀ r' c, r' ≠ i → mat_at fzero m r' c = mat_at fzero T r' c)
              tr T)
    as (T' & HrunT & [HT' HframeT] & HspecT).
  { intros m j x HQ Hj. by apply (mat_set_row_spec _ _ _ T). }
  { by split. }
  { intros k p Hin. destruct (Htrres k p Hin) as [Hk [x Hx]].
    destruct (index_map_is_Some _ _ Hk) as [j Hj]. exists j, x.
    split_and!; [done| |done].
    apply index_map_lt in Hj. unfold keys in Hj. by rewrite length_fmap in Hj. }
  destruct (fill_loop (index_map (str_iter alphabet)) (String.length alphabet)
              (λ m j x, mat_set m i j x) (λ m j, mat_at fzero m i j)
              (λ m, mat_shape m (length real) (String.length alphabet)
                    ∧ ∀ r' c, r' ≠ i → mat_at fzero m r' c = mat_at fzero E r' c)
              on E)
    as (E' & HrunE & [HE' HframeE] & HspecE).
  { intros m j x HQ Hj. by apply (mat_set_row_spec _ _ _ E). }
  { by split. }
  { intros k p Hin. destruct (Honres k p Hin) as [Hk [x Hx]].
    destruct (index_map_is_Some _ _ Hk) as [j Hj]. exists j, x.
    split_and!; [done| |done].
    apply index_map_lt in Hj. by rewrite length_str_iter in Hj. }
  eexists. split.
  { unfold fill_state. rewrite Hidx. simpl of_option. rewrite bind_Ok.
    rewrite Htr. simpl of_option. rewrite bind_Ok. simpl map_items.
    rewrite bind_Ok. cbv beta in HrunT. rewrite HrunT, bind_Ok.
    rewrite Hon. simpl of_option. rewrite bind_Ok. simpl map_items.
    rewrite bind_Ok. cbv beta in HrunE. rewrite HrunE, bind_Ok. done. }
  unfold rows_inv. split_and!; [done..| |].
  - intros r c Hr. rewrite HframeT, HframeE by lia. apply Hzero. lia.
  - intros r name' st' Hr Hr'. destruct (decide (r = i)) as [->|Hne].
    + rewrite Hi in Hr'. injection Hr' as <- <-. split.
      * intros tr' j target Htr' Htarget.
        rewrite Htr in Htr'. injection Htr' as <-.
        apply (declared_of_fill (index_map (keys real)) tr target j _
                 (mat_at fzero T i j)); [done| | | |done].
        -- by apply index_map_lookup.
        -- intros k Hk. apply index_map_Some in Hk. congruence.
        -- by apply Hzero.
      * intros on' c Hon' Hc. rewrite Hon in Hon'. injection Hon' as <-.
        split.
        -- intros ch Hch.
           apply (declared_of_fill (index_map (str_iter alphabet)) on ch c _
                    (mat_at fzero E i c)); [done..| | |done].
           ++ intros k Hk. apply index_map_Some in Hk, Hch. congruence.
           ++ by apply Hzero.
        -- intros Hnone. destruct (HspecE c) as [[-> _]|(k & p & _ & Hk & _)].
           ++ by apply Hzero.
           ++ by destruct (Hnone k).
    + destruct (Hrows r name' st') as [HrowT HrowE]; [lia|done|]. split.
      * intros tr' j target Htr' Htarget. rewrite HframeT by done. eauto.
      * intros on' c Hon' Hc. rewrite HframeE by done. eauto.
Qed.

(** C3.  For normalized states with a [begin] state, [_to_matrix_form]
    returns the arrays of the states other than [begin], in their
    insertion order: [begin] is not among the names of [name_map];
    [initial[i]] is the probability that the [trans] of [begin] declares
    for the i-th state; [transitions[i][j]] is the probability that the
    [trans] of the i-th state declares for the j-th state;
    [emissions[i][c]] is the probability that the [only] of the i-th
    state declares for the symbol of column [c]; and every entry for
    which nothing is declared is 0. *)
Theorem to_matrix_form_declared (alphabet : string)
    (states : dict string (state F)) :
  normalized alphabet states →
  let real := dict_del states "begin" in
  ∃ mf,
    _to_matrix_form alphabet states = Ok mf
    ∧ ("begin" ∉ keys real)
    ∧ name_map mf = enumerate (keys real)
    ∧ char_map mf = index_map (str_iter alphabet)
    ∧ length (initial mf) = length real
    ∧ mat_shape (transitions mf) (length real) (length real)
    ∧ mat_shape (emissions mf) (length real) (String.length alphabet)
    ∧ (∀ begin begin_trans i name,
         dict_get states "begin" = Some begin →
         dict_get begin "trans" = Some (VMap begin_trans) →
         keys real !! i = Some name →
         declared begin_trans name (nth i (initial mf) fzero))
    ∧ (∀ i j name st trans target,
         real !! i = Some (name, st) →
         dict_get st "trans" = Some (VMap trans) →
         keys real !! j = Some target →
         declared trans target (mat_at fzero (transitions mf) i j))
    ∧ (∀ i c name st only,
         real !! i = Some (name, st) →
         dict_get st "only" = Some (VMap only) →
         c < String.length alphabet →
         (∀ ch, dict_get (char_map mf) ch = Some c →
                declared only ch (mat_at fzero (emissions mf) i c))
         ∧ ((∀ ch, dict_get (char_map mf) ch ≠ Some c) →
            mat_at fzero (emissions mf) i c = fzero)).
Proof.
  intros (Hwf & (begin & btrans & Hbegin & Hbtrans & [Hbwf Hbres]) & Hstates) real.
  destruct (dict_del_wf states "begin" Hwf) as [Hreal Hnobegin].
  fold real in Hreal, Hnobegin, Hbres, Hstates.
  destruct (fill_loop (index_map (keys real)) (length real)
              arr_set (λ a i, nth i a fzero) (λ a, length a = length real)
              btrans (replicate (length real) fzero))
    as (init & Hinit & Hlen & Hspec).
  { intros a i x Ha Hi. by apply arr_set_spec. }
  { apply length_replicate. }
  { intros k p Hin. destruct (Hbres k p Hin) as [Hk [x Hx]].
    destruct (index_map_is_Some _ _ Hk) as [j Hj]. exists j, x.
    split_and!; [done| |done].
    apply index_map_lt in Hj. unfold keys in Hj. by rewrite length_fmap in Hj. }
  destruct (for_each_list_inv (rows_inv alphabet real)
              (fill_state (index_map (keys real)) (index_map (str_iter alphabet)))
              real
              (replicate (length real) (replicate (length real) fzero),
               replicate (length real) (replicate (String.length alphabet) fzero),
               []))
    as ([[T E] L] & Hrun & HT & HE & _ & Hrows).
  { split_and!; [apply mat_shape_replicate..| |intros; lia].
    intros r c _. by rewrite !mat_at_replicate. }
  { intros i [name st] arrays Hi Hinv. by apply fill_state_spec. }
  exists (MatrixForm init T E (index_map (str_iter alphabet)) L
            (dict_of_pairs (enumerate (keys real)))).
  split_and!; [|done|apply dict_of_enumerate|done..| | |].
  - unfold _to_matrix_form. rewrite Hbegin. simpl of_option. rewrite bind_Ok.
    fold real. rewrite Hbtrans. simpl of_option. rewrite bind_Ok.
    simpl map_items. rewrite bind_Ok, Hinit, bind_Ok, Hrun. done.
  - intros begin' btrans' i name Hbegin' Hbtrans' Hname. simpl.
    rewrite Hbegin in Hbegin'. injection Hbegin' as <-.
    rewrite Hbtrans in Hbtrans'. injection Hbtrans' as <-.
    apply (declared_of_fill (index_map (keys real)) btrans name i _
             (nth i (replicate (length real) fzero) fzero)); [done| | | |done].
    + by apply index_map_lookup.
    + intros k Hk. apply index_map_Some in Hk. congruence.
    + rewrite nth_lookup. destruct (replicate _ _ !! i) as [x|] eqn:Hx; [|done].
      by apply lookup_replicate in Hx as [-> _].
  - intros i j name st tr target Hi Htr Htarget. simpl.
    destruct (Hrows i name st) as [HrowT _]; [by eapply lookup_lt_Some|done|].
    eauto.
  - intros i c name st on Hi Hon Hc. simpl.
    destruct (Hrows i name st) as [_ HrowE]; [by eapply lookup_lt_Some|done|].
    eauto.
Qed.
End BuilderCorrect.

(** ** Top-level parser *)

Section ParserCorrect.
Context {F : Type} `{Numeric F}.



Ltac step_terminates :=
  first
    [ done
    | apply terminates_of_option
    | apply terminates_arr_set
    | apply terminates_mat_set
    | apply terminates_mapM; intros ?
    | apply terminates_bind; [|intros ? _]
    | apply terminates_for_each; intros ? ?
    | match goal with
      | x : (_ * _)%type |- _ => destruct x; cbn beta iota
      | |- terminates (match ?x with _ => _ end) => destruct x
      end ].

Lemma terminates_dict_copy (v : value F) : terminates (dict_copy v).
Proof.
  destruct v; simpl; repeat step_terminates.
  all: unfold pair_of_str; repeat step_terminates.
Qed.

Lemma terminates_normalize_state (states : dict string (state F)) (name : string) :
  terminates (normalize_state states name).
Proof.
  unfold normalize_state, as_key, map_values, iter_value.
  repeat step_terminates; apply terminates_dict_copy.
Qed.

Lemma terminates_normalize_states (states : dict string (state F)) :
  terminates (_normalize_states states).
Proof. apply terminates_for_each, terminates_normalize_state. Qed.

Lemma terminates_to_matrix_form (alphabet : string) (states : dict string (state F)) :
  terminates (_to_matrix_form alphabet states).
Proof.
  unfold _to_matrix_form, fill_state, map_items, as_float.
  repeat step_terminates.
Qed.

(** C7.  [parse_model] tokenizes the lines that do not start with [#].
    Its outcome is a model or an exception.  It returns a model exactly
    when the tokens are one header block followed by state blocks, with
    no token left, such that the header block alone parses to the
    header, every state block alone parses to one state and ends with
    the closing brace, and the states of these blocks, normalized, give
    the arrays of the model; then the model is the header with these
    arrays.  When the last token is not a closing brace (the input ends
    inside a block, or tokens follow the last block) it raises an
    exception and returns no model.  A block is what [_parse_state]
    reads up to a closing brace in the place of a field name: a state
    block that is not closed before the next one starts is not told
    apart from a block with more fields. *)
Theorem parse_model_complete_blocks (file_like : list string) :
  let tokens := _tokenize (_strip_comments file_like) in
  terminates (parse_model file_like)
  ∧ (last tokens ≠ Some "}" → ∃ e, parse_model file_like = Raise e)
  ∧ ∀ header mf,
      parse_model file_like = Ok (header, mf) ↔
      ∃ header_block blocks parsed alphabet states,
        tokens = header_block ++ concat blocks
        ∧ _parse_header header_block = Ok ([], header)
        ∧ Forall2 (λ block ns, _parse_state block = Ok ([], ns)
                               ∧ last block = Some "}") blocks parsed
        ∧ dict_get header "alphabet" = Some alphabet
        ∧ _normalize_states (foldl (λ d ns, dict_set d ns.1 ns.2) [] parsed)
          = Ok states
        ∧ _to_matrix_form alphabet states = Ok mf.
Proof.
  intros tokens.
  assert (Hterm : terminates (parse_model file_like)).
  { unfold parse_model. fold tokens.
    apply terminates_bind; [apply terminates_parse_header|].
    intros [tokens1 header] _.
    apply terminates_bind; [by apply terminates_parse_states|].
    intros [tokens2 states] _.
    apply terminates_bind; [by case_decide|]. intros _ _.
    apply terminates_bind; [apply terminates_of_option|]. intros alphabet _.
    apply terminates_bind; [apply terminates_normalize_states|]. intros states' _.
    apply terminates_bind; [apply terminates_to_matrix_form|]. by intros mf _. }
  assert (Hblocks : ∀ header mf,
    parse_model file_like = Ok (header, mf) →
    ∃ header_block blocks parsed alphabet states,
      tokens = header_block ++ concat blocks
      ∧ _parse_header header_block = Ok ([], header)
      ∧ Forall2 (λ block ns, _parse_state block = Ok ([], ns)
                             ∧ last block = Some "}") blocks parsed
      ∧ dict_get header "alphabet" = Some alphabet
      ∧ _normalize_states (foldl (λ d ns, dict_set d ns.1 ns.2) [] parsed)
        = Ok states
      ∧ _to_matrix_form alphabet states = Ok mf
      ∧ last tokens = Some "}").
  { intros header mf Hrun. unfold parse_model in Hrun. fold tokens in Hrun.
    apply bind_Ok_inv in Hrun as ([tokens1 header'] & Hheader & Hrun).
    apply bind_Ok_inv in Hrun as ([tokens2 states] & Hstates & Hrun).
    apply bind_Ok_inv in Hrun as (_ & _ & Hrun).
    apply bind_Ok_inv in Hrun as (alphabet & Halphabet & Hrun).
    apply bind_Ok_inv in Hrun as (states' & Hnorm & Hrun).
    apply bind_Ok_inv in Hrun as (mf' & Hmf & Hrun).
    injection Hrun as <- <-. apply of_option_Ok in Halphabet.
    apply parse_header_local in Hheader as (hblock & Htokens & Hhblock & Hhlast).
    apply parse_states_blocks in Hstates as (-> & blocks & parsed & -> & Hall & ->).
    exists hblock, blocks, parsed, alphabet, states'.
    split_and!; [done..|].
    rewrite Htokens. destruct blocks as [|block blocks].
    - simpl. by rewrite app_nil_r.
    - rewrite last_app, last_concat_blocks; [done| |done].
      clear -Hall. induction Hall as [|???? [_ ?]]; by constructor. }
  split_and!; [done| |].
  - intros Hlast. destruct (parse_model file_like) as [[header mf]|e|] eqn:Hrun.
    + destruct (Hblocks header mf eq_refl)
        as (? & ? & ? & ? & ? & _ & _ & _ & _ & _ & _ & Hbrace).
      by destruct Hlast.
    + eauto.
    + by destruct Hterm.
  - intros header mf. split.
    + intros Hrun.
      destruct (Hblocks header mf Hrun)
        as (hb & bs & ps & a & sts & ? & ? & ? & ? & ? & ? & _).
      by exists hb, bs, ps, a, sts.
    + intros (hb & bs & ps & a & sts
              & Htokens & Hheader & Hall & Halphabet & Hnorm & Hmf).
      unfold parse_model. fold tokens. rewrite Htokens.
      rewrite (parse_header_extend _ _ _ Hheader), bind_Ok.
      rewrite (parse_states_concat _ _ _ _ Hall), bind_Ok by done.
      rewrite decide_True, bind_Ok by done.
      rewrite Halphabet. simpl of_option. rewrite bind_Ok.
      by rewrite Hnorm, bind_Ok, Hmf, bind_Ok.
Qed.
End ParserCorrect.

(** ** Viterbi decoder: failures *)

Section DecoderErrors.
Context {F : Type} `{Numeric F}.









Lemma terminates_scan_step (M T : list (list F)) (i j : nat)
    (best : nat * F) (k : nat) :
  terminates (scan_step M T i j best k).
Proof.
  destruct best as [ms mp]. unfold scan_step.
  apply terminates_bind; [apply terminates_mat_get|]. intros m _.
  apply terminates_bind; [apply terminates_mat_get|]. intros t _.
  by destruct (fgt _ _).
Qed.

Lemma terminates_best_predecessor (M T : list (list F)) (n i j : nat) :
  terminates (best_predecessor M T n i j).
Proof. apply terminates_for_each. apply terminates_scan_step. Qed.

Lemma terminates_fill_cell sequence (T E : list (list F)) cm n i MP j :
  terminates (fill_cell sequence T E cm n i MP j).
Proof.
  destruct MP as [M P]. unfold fill_cell.
  apply terminates_bind; [apply terminates_best_predecessor|].
  intros [ms mp] _.
  apply terminates_bind; [apply terminates_of_option|]. intros symbol _.
  apply terminates_bind; [apply terminates_of_option|]. intros c _.
  apply terminates_bind; [apply terminates_mat_get|]. intros e _.
  apply terminates_bind; [apply terminates_mat_set|]. intros M' _.
  apply terminates_bind; [apply terminates_mat_set|]. by intros P' _.
Qed.

Lemma terminates_fill_row sequence (T E : list (list F)) cm n MP i :
  terminates (fill_row sequence T E cm n MP i).
Proof. apply terminates_for_each. intros; apply terminates_fill_cell. Qed.

Lemma terminates_fill_base sequence (init : list F) (E : list (list F)) cm M i :
  terminates (fill_base sequence init E cm M i).
Proof.
  unfold fill_base.
  apply terminates_bind; [apply terminates_arr_get|]. intros a _.
  apply terminates_bind; [apply terminates_of_option|]. intros symbol _.
  apply terminates_bind; [apply terminates_of_option|]. intros c _.
  apply terminates_bind; [apply terminates_mat_get|]. intros e _.
  apply terminates_mat_set.
Qed.

Lemma length_log_vec (v : list F) : length (log_vec v) = length v.
Proof. apply length_fmap. Qed.



(** C9.  Decoding the empty sequence raises [IndexError], whatever the
    model: with at least one state the first round of the base-case loop
    reads [sequence[0]]; with no state the last row [M[-1]] of a table
    without rows is read. *)
Theorem optimal_path_empty_sequence (m : model F) :
  optimal_path "" m = Raise IndexError.
Proof.
  destruct m as [header mf]. unfold optimal_path, viterbi_tables.
  rewrite length_log_vec.
  destruct (initial mf) as [|x l]; [done|].
  simpl length. rewrite (range_cons 0 (S _)) by lia. done.
Qed.

Lemma last_replicate_S {A} (n : nat) (x : A) : last (replicate (S n) x) = Some x.
Proof. induction n as [|n IH]; [done|]. by rewrite <- IH. Qed.

Lemma fill_base_unknown_symbol sequence (init : list F) E cm M symbol :
  0 < length init →
  str_iter sequence !! 0 = Some symbol →
  dict_get cm symbol = None →
  fill_base sequence init E cm M 0 = Raise KeyError.
Proof.
  intros Hn Hs Hc. unfold fill_base, str_get.
  destruct init as [|a init]; [simpl in Hn; lia|].
  rewrite Hs. simpl. rewrite Hc. done.
Qed.

Lemma fill_row_unknown_symbol sequence (T E : list (list F)) cm n MP i symbol :
  0 < n →
  str_iter sequence !! i = Some symbol →
  dict_get cm symbol = None →
  ∃ e, fill_row sequence T E cm n MP i = Raise e.
Proof.
  intros Hn Hs Hc. unfold fill_row. rewrite (range_cons 0 n) by done.
  rewrite for_each_cons.
  assert (∃ e, fill_cell sequence T E cm n i MP 0 = Raise e) as [e ->];
    [|by eauto].
  destruct MP as [M P]. unfold fill_cell.
  destruct (best_predecessor M T n i 0) as [[ms mp]|e|] eqn:Hbest.
  - unfold str_get. rewrite Hs. simpl. rewrite Hc. eauto.
  - eauto.
  - by destruct (terminates_best_predecessor M T n i 0).
Qed.

(** With a symbol outside [char_map], the tables are not completed,
    unless the model has no state and there is nothing to fill. *)
Lemma viterbi_tables_unknown_symbol sequence (mf : matrix_form F) i symbol :
  str_iter sequence !! i = Some symbol →
  dict_get (char_map mf) symbol = None →
  (∃ e, viterbi_tables sequence mf = Raise e)
  ∨ viterbi_tables sequence mf
    = Ok (replicate (String.length sequence) [],
          replicate (String.length sequence) []).
Proof.
  intros Hs Hc.
  assert (HT : i < String.length sequence).
  { rewrite <- length_str_iter. by eapply lookup_lt_Some. }
  unfold viterbi_tables. rewrite length_log_vec.
  destruct (decide (length (initial mf) = 0)) as [Hz|Hnz].
  - right. rewrite Hz. simpl.
    by rewrite for_each_skip.
  - left. set (n := length (initial mf)). assert (0 < n) by lia.
    destruct i as [|i].
    + rewrite (range_cons 0 n) by done. simpl.
      rewrite (fill_base_unknown_symbol _ _ _ _ _ symbol); eauto.
      by rewrite length_log_vec.
    + match goal with |- ∃ e, ?r ≫= _ = _ => destruct r as [M|e|] eqn:Hbase end.
      * simpl. apply (for_each_raises _ _ (S i)).
        -- apply elem_of_range. lia.
        -- intros MP. by eapply fill_row_unknown_symbol.
        -- intros; apply terminates_fill_row.
      * simpl. eauto.
      * exfalso. revert Hbase. apply terminates_for_each.
        intros; apply terminates_fill_base.
Qed.

(** C6.  When the sequence contains a symbol that is not a key of
    [char_map], [optimal_path] raises an exception and returns neither a
    table nor a path.  The model is a value given to the function, which
    only binds local names to new arrays ([np.log], [np.zeros]); it is
    the same value after the call. *)
Theorem optimal_path_unknown_symbol (sequence : string) (m : model F)
    (i : nat) (symbol : string) :
  str_iter sequence !! i = Some symbol →
  dict_get (char_map m.2) symbol = None →
  ∃ e, optimal_path sequence m = Raise e.
Proof.
  destruct m as [header mf]. simpl. intros Hs Hc.
  assert (HT : i < String.length sequence).
  { rewrite <- length_str_iter. by eapply lookup_lt_Some. }
  unfold optimal_path.
  destruct (viterbi_tables_unknown_symbol _ _ _ _ Hs Hc) as [[e ->]| ->].
  - simpl. eauto.
  - simpl. unfold last_row.
    destruct (String.length sequence) as [|T]; [lia|].
    rewrite last_replicate_S. simpl. eauto.
Qed.
End DecoderErrors.

(** ** Viterbi decoder: the tables *)

Section Maximum.
Context {F : Type} `{Numeric F} (ok : F → Prop) {Hord : NumericOrder ok}.

(** A score above [y] is above every score that is not above [y]. *)
Lemma fgt_above (x y z : F) :
  ok x → ok y → ok z → fgt x y = true → fgt z y = false → fgt x z = true.
Proof.
  intros Hx Hy Hz Hxy Hzy.
  destruct (fgt_cotrans x y z Hx Hy Hz Hxy); congruence.
Qed.

(** A score not above [y] is not above any score that is above [y]. *)
Lemma fgt_below (x y z : F) :
  ok x → ok y → ok z → fgt x y = true → fgt z y = false → fgt z x = false.
Proof.
  intros Hx Hy Hz Hxy Hzy. destruct (fgt z x) eqn:Hzx; [|done].
  by rewrite <- Hzy, (fgt_trans z x y).
Qed.

Lemma scan_inv_step (c : nat → F) (m : nat) (best : nat * F) :
  (∀ k, k ≤ m → ok (c k)) →
  scan_inv c m best →
  scan_inv c (S m) (if fgt (c m) best.2 then (m, c m) else best).
Proof.
  intros Hc. pose proof ok_neg_inf as Hninf.
  assert (Hcm : ok (c m)) by (apply Hc; lia).
  intros [[-> Hall]|(Hlt & Hval & Hmax & Hfirst)]; simpl.
  - destruct (fgt (c m) fneg_inf) eqn:Hgt.
    + right. simpl. split_and!; [lia|done| |].
      * intros k Hk. destruct (decide (k = m)) as [->|]; [by apply fgt_irrefl|].
        apply (fgt_below _ fneg_inf); [done|done|apply Hc; lia|done|].
        apply Hall. lia.
      * intros k Hk.
        apply (fgt_above _ fneg_inf); [done|done|apply Hc; lia|done|auto].
    + left. split; [done|]. intros k Hk.
      destruct (decide (k = m)) as [->|]; [done|]. apply Hall. lia.
  - assert (Hcb : ok (c best.1)) by (apply Hc; lia).
    rewrite Hval. destruct (fgt (c m) (c best.1)) eqn:Hgt.
    + right. simpl. split_and!; [lia|done| |].
      * intros k Hk. destruct (decide (k = m)) as [->|]; [by apply fgt_irrefl|].
        apply (fgt_below _ (c best.1)); [done|done|apply Hc; lia|done|].
        apply Hmax. lia.
      * intros k Hk.
        apply (fgt_above _ (c best.1)); [done|done|apply Hc; lia|done|auto].
    + right. split_and!; [lia|done| |done].
      intros k Hk. destruct (decide (k = m)) as [->|]; [done|].
      apply Hmax. lia.
Qed.

(** When the scan is over at least one score, its result is the first
    greatest score and its index. *)
Lemma scan_inv_final (c : nat → F) (m : nat) (best : nat * F) :
  (∀ k, k < m → ok (c k)) →
  0 < m → scan_inv c m best →
  best.1 < m ∧ best.2 = c best.1
  ∧ (∀ k, k < m → fgt (c k) (c best.1) = false)
  ∧ (∀ k, k < best.1 → fgt (c best.1) (c k) = true).
Proof.
  intros Hc Hm [[-> Hall]|Hinv]; [|done]. simpl.
  assert (Heq : ∀ k, k < m → c k = fneg_inf).
  { intros k Hk. apply fgt_neg_inf; auto. }
  split_and!; [done|by rewrite Heq| |lia].
  intros k Hk. rewrite !Heq by done. apply fgt_irrefl, ok_neg_inf.
Qed.

Lemma nth_Forall (row : list F) (k : nat) :
  Forall ok row → k < length row → ok (nth k row fzero).
Proof.
  intros Hrow Hk. rewrite nth_lookup.
  destruct (lookup_lt_is_Some_2 row k Hk) as [x Hx]. rewrite Hx. simpl.
  by eapply (Forall_lookup_1 _ _ _ _ Hrow).
Qed.

Lemma argmax_fold (pre xs : list F) (st : nat * F * nat) :
  Forall ok (pre ++ xs) →
  argmax_inv (pre ++ xs) (length pre) st →
  argmax_inv (pre ++ xs) (length (pre ++ xs))
    (foldl (λ '(best, best_val, i) y,
              if fgt y best_val then (i, y, S i) else (best, best_val, S i))
           st xs).
Proof.
  revert pre st. induction xs as [|y xs IH]; intros pre st Hok Hinv.
  - by rewrite app_nil_r in *.
  - simpl. replace (pre ++ y :: xs) with ((pre ++ [y]) ++ xs) in *
      by by rewrite <- app_assoc.
    apply IH; [done|]. rewrite length_app. simpl.
    destruct st as [[best best_val] i].
    destruct Hinv as (Hi & Hlt & Hval & Hmax & Hfirst). simpl in *. subst i.
    assert (Hy : nth (length pre) ((pre ++ [y]) ++ xs) fzero = y).
    { rewrite <- app_assoc. rewrite app_nth2 by lia.
      by rewrite Nat.sub_diag. }
    assert (Hnth : ∀ k, k ≤ length pre → ok (nth k ((pre ++ [y]) ++ xs) fzero)).
    { intros k Hk. apply nth_Forall; [done|]. rewrite !length_app. simpl. lia. }
    assert (Hoky : ok y) by (rewrite <- Hy; by apply Hnth).
    assert (Hokb : ok best_val) by (rewrite Hval; apply Hnth; lia).
    destruct (fgt y best_val) eqn:Hgt; unfold argmax_inv; simpl.
    + split_and!; [lia|lia|done| |].
      * intros k Hk. destruct (decide (k = length pre)) as [->|].
        -- rewrite Hy. by apply fgt_irrefl.
        -- apply (fgt_below _ best_val); [done|done|apply Hnth; lia|done|].
           apply Hmax. lia.
      * intros k Hk.
        apply (fgt_above _ best_val); [done|done|apply Hnth; lia|done|auto].
    + split_and!; [lia|lia|done| |done].
      intros k Hk. destruct (decide (k = length pre)) as [->|].
      -- by rewrite Hy.
      -- apply Hmax. lia.
Qed.

(** [np.argmax] of a non-empty row returns the index of its first
    greatest entry. *)
Lemma argmax_spec (row : list F) :
  Forall ok row →
  0 < length row →
  ∃ s, argmax row = Ok s ∧ s < length row
    ∧ (∀ k, k < length row → fgt (nth k row fzero) (nth s row fzero) = false)
    ∧ (∀ k, k < s → fgt (nth s row fzero) (nth k row fzero) = true).
Proof.
  intros Hok Hlen. destruct row as [|x xs]; [simpl in Hlen; lia|].
  unfold argmax.
  pose proof (argmax_fold [x] xs (0, x, 1) Hok) as Hfold.
  simpl app in Hfold.
  destruct (foldl _ (0, x, 1) xs) as [[best best_val] i] eqn:Hf.
  destruct Hfold as (_ & Hlt & Hval & Hmax & Hfirst).
  { unfold argmax_inv. simpl. split_and!; [done|lia|done| |lia].
    intros k Hk. replace k with 0 by lia. apply fgt_irrefl.
    by apply Forall_cons in Hok as [? _]. }
  simpl in *. exists best. subst best_val. done.
Qed.

Lemma mat_at_Forall (m : list (list F)) (rows cols i j : nat) :
  Forall (Forall ok) m → mat_shape m rows cols → i < rows → j < cols →
  ok (mat_at fzero m i j).
Proof.
  intros Hok Hshape Hi Hj. unfold mat_at.
  apply nth_Forall; [|by rewrite (mat_row_length m rows cols)].
  rewrite nth_lookup.
  destruct (lookup_lt_is_Some_2 m i) as [row Hrow]; [destruct Hshape; lia|].
  rewrite Hrow. simpl. by eapply (Forall_lookup_1 _ _ _ _ Hok).
Qed.
End Maximum.

Section Tables.
Context {F : Type} `{Numeric F} (ok : F → Prop) {Hord : NumericOrder ok}.
Variables (sequence : string) (mf : matrix_form F) (no_symbols : nat).
Hypothesis Hshape : model_shape mf no_symbols.
Hypothesis Hscores : scores_ok ok mf.
Hypothesis Halpha : over_alphabet sequence mf.

Local Abbreviation n := (length (initial mf)).
Local Abbreviation T := (String.length sequence).

Lemma mat_shape_log (m : list (list F)) (rows cols : nat) :
  mat_shape m rows cols → mat_shape (log_mat m) rows cols.
Proof.
  intros [Hlen Hrows]. split; [by unfold log_mat; rewrite length_fmap|].
  unfold log_mat. apply Forall_fmap. eapply Forall_impl; [done|].
  intros row Hrow. simpl. by rewrite length_log_vec.
Qed.

Lemma ok_log_initial (s : nat) : s < n → ok (log_initial mf s).
Proof.
  intros Hs. destruct Hscores as (Hinit & _ & _). unfold log_initial.
  apply (nth_Forall ok); [done|]. by rewrite length_log_vec.
Qed.

Lemma ok_log_transition (k j : nat) : k < n → j < n → ok (log_transition mf k j).
Proof.
  intros Hk Hj. destruct Hscores as (_ & Htrans & _). unfold log_transition.
  apply (mat_at_Forall ok _ n n); [done| |done..].
  apply mat_shape_log, Hshape.
Qed.

Lemma ok_log_emission (j c : nat) : j < n → c < no_symbols → ok (log_emission mf j c).
Proof.
  intros Hj Hc. destruct Hscores as (_ & _ & Hemis). unfold log_emission.
  apply (mat_at_Forall ok _ n no_symbols); [done| |done..].
  apply mat_shape_log, Hshape.
Qed.

Lemma symbol_ok (t : nat) :
  t < T →
  ∃ symbol, str_get sequence t = Ok symbol
    ∧ of_option KeyError (dict_get (char_map mf) symbol) = Ok (obs sequence mf t)
    ∧ obs sequence mf t < no_symbols.
Proof.
  intros Ht. rewrite <- length_str_iter in Ht.
  destruct (lookup_lt_is_Some_2 _ _ Ht) as [symbol Hsym].
  destruct (Halpha symbol) as [c Hc]; [by eapply list_elem_of_lookup_2|].
  exists symbol. unfold str_get, obs. rewrite Hsym. simpl. rewrite Hc. simpl.
  split_and!; [done..|]. destruct Hshape as (_ & _ & Hcm). eauto.
Qed.

Lemma best_predecessor_spec (M : list (list F)) (i j : nat) :
  mat_shape M T n → 1 ≤ i < T → j < n →
  (∀ k, k < n → ok (mat_at fzero M (i - 1) k)) →
  ∃ k, best_predecessor M (log_mat (transitions mf)) n i j
       = Ok (k, candidate mf M i j k)
    ∧ k < n ∧ ok (candidate mf M i j k)
    ∧ (∀ k', k' < n → fgt (candidate mf M i j k') (candidate mf M i j k) = false)
    ∧ (∀ k', k' < k → fgt (candidate mf M i j k) (candidate mf M i j k') = true).
Proof.
  intros HM Hi Hj Hprev. unfold best_predecessor.
  assert (Hcand : ∀ k, k < n → ok (candidate mf M i j k)).
  { intros k Hk. apply ok_fadd; [by apply Hprev|by apply ok_log_transition]. }
  destruct (for_each_range_inv (scan_inv (candidate mf M i j))
              (scan_step M (log_mat (transitions mf)) i j) 0 n (0, fneg_inf))
    as ([k v] & Hrun & Hinv).
  - lia.
  - left. split; [done|]. intros; lia.
  - intros k [ms mp] Hk Hinv. unfold scan_step.
    rewrite (mat_get_ok fzero M T n) by (done || lia).
    rewrite bind_Ok.
    rewrite (mat_get_ok fzero _ n n)
      by (try apply mat_shape_log; try apply Hshape; lia).
    rewrite bind_Ok.
    apply (scan_inv_step ok) in Hinv; [|intros; apply Hcand; lia].
    simpl in Hinv. unfold candidate in Hinv at 1 2.
    unfold log_transition in Hinv.
    destruct (fgt _ mp); eauto.
  - apply (scan_inv_final ok) in Hinv as (Hlt & Hval & Hmax & Hfirst);
      [|done|lia].
    simpl in *. subst v. exists k. split_and!; auto.
Qed.

Lemma viterbi_cell_ext (M M' : list (list F)) (P P' : list (list nat)) (t j : nat) :
  (∀ k, mat_at fzero M' (t - 1) k = mat_at fzero M (t - 1) k) →
  mat_at fzero M' t j = mat_at fzero M t j →
  mat_at 0 P' t j = mat_at 0 P t j →
  viterbi_cell sequence mf M P t j ∧ first_best mf M P t j →
  viterbi_cell sequence mf M' P' t j ∧ first_best mf M' P' t j.
Proof.
  intros Hprev HM HP. unfold viterbi_cell, first_best, candidate.
  rewrite HM, HP. by setoid_rewrite Hprev.
Qed.

Lemma fill_cell_spec (MP : list (list F) * list (list nat)) (i j : nat) :
  1 ≤ i < T → j < n →
  tables_inv ok sequence mf i j MP →
  ∃ MP', fill_cell sequence (log_mat (transitions mf)) (log_mat (emissions mf))
           (char_map mf) n i MP j = Ok MP'
    ∧ tables_inv ok sequence mf i (S j) MP'.
Proof.
  intros Hi Hj. destruct MP as [M P].
  intros (HM & HP & HPlt & Hok & Hbase & Hrows & Hcells). simpl in *.
  destruct (best_predecessor_spec M i j)
    as (k & Hbest & Hk & Hokk & Hmax & Hfirst); [done..| |].
  { intros k Hk. apply Hok; [lia|done]. }
  destruct (symbol_ok i) as (symbol & Hsym & Hc & Hobs); [lia|].
  unfold fill_cell. rewrite Hbest, bind_Ok, Hsym, bind_Ok, Hc, bind_Ok.
  rewrite (mat_get_ok fzero _ n no_symbols)
    by (try apply mat_shape_log; try apply Hshape; lia).
  rewrite bind_Ok.
  rewrite (mat_set_ok M T n), bind_Ok by (done || lia).
  rewrite (mat_set_ok P T n), bind_Ok by (done || lia).
  eexists; split; [done|].
  assert (Hokx : ok (fadd (candidate mf M i j k)
                      (log_emission mf j (obs sequence mf i)))).
  { apply ok_fadd; [done|by apply ok_log_emission]. }
  change (mat_at fzero (log_mat (emissions mf)) j (obs sequence mf i))
    with (log_emission mf j (obs sequence mf i)).
  set (x := fadd _ _) in *.
  assert (Hkeep : ∀ t s, 1 ≤ t ≤ i → (t = i → s ≠ j) →
    viterbi_cell sequence mf M P t s ∧ first_best mf M P t s →
    viterbi_cell sequence mf (mat_upd M i j x) (mat_upd P i j k) t s
    ∧ first_best mf (mat_upd M i j x) (mat_upd P i j k) t s).
  { intros t s Ht Hs. apply viterbi_cell_ext.
    - intros k'. apply mat_upd_ne. lia.
    - apply mat_upd_ne. destruct (decide (t = i)); [right; auto|left; done].
    - apply mat_upd_ne. destruct (decide (t = i)); [right; auto|left; done]. }
  unfold tables_inv. simpl. split_and!.
  - by apply mat_upd_shape.
  - by apply mat_upd_shape.
  - intros t s. destruct (decide (t = i ∧ s = j)) as [[-> ->]|Hne].
    + left. rewrite (mat_upd_eq 0 P T n) by (done || lia). done.
    + rewrite mat_upd_ne; [apply HPlt|].
      destruct (decide (t = i)) as [->|]; [right; intros ->; by apply Hne|by left].
  - intros t s Hts Hs. destruct (decide (t = i ∧ s = j)) as [[-> ->]|Hne].
    + by rewrite (mat_upd_eq fzero M T n) by (done || lia).
    + rewrite mat_upd_ne.
      * apply Hok; [|done]. destruct Hts as [?|[-> ?]]; [by left|right].
        split; [done|]. destruct (decide (s = j)) as [->|]; [|lia].
        by destruct Hne.
      * destruct (decide (t = i)) as [->|]; [right; intros ->; by apply Hne|by left].
  - intros s Hs. rewrite mat_upd_ne by (left; lia). by apply Hbase.
  - intros t s Ht Hs. apply Hkeep; [lia|lia|]. by apply Hrows.
  - intros s Hs. destruct (decide (s = j)) as [->|Hne].
    + unfold viterbi_cell, first_best.
      rewrite (mat_upd_eq 0 P T n) by (done || lia).
      rewrite (mat_upd_eq fzero M T n) by (done || lia).
      assert (Hcand : ∀ k', candidate mf (mat_upd M i j x) i j k'
                            = candidate mf M i j k').
      { intros k'. unfold candidate. rewrite mat_upd_ne; [done|left; lia]. }
      setoid_rewrite Hcand. done.
    + apply Hkeep; [lia|done|]. apply Hcells. lia.
Qed.

Lemma fill_row_spec (MP : list (list F) * list (list nat)) (i : nat) :
  1 ≤ i < T →
  tables_inv ok sequence mf i 0 MP →
  ∃ MP', fill_row sequence (log_mat (transitions mf)) (log_mat (emissions mf))
           (char_map mf) n MP i = Ok MP'
    ∧ tables_inv ok sequence mf (S i) 0 MP'.
Proof.
  intros Hi Hinv. unfold fill_row.
  destruct (for_each_range_inv (tables_inv ok sequence mf i)
              (fill_cell sequence (log_mat (transitions mf))
                 (log_mat (emissions mf)) (char_map mf) n i) 0 n MP)
    as (MP' & Hrun & HMP'); [lia|done| |].
  - intros j st Hj Hst. apply fill_cell_spec; [done|lia|done].
  - exists MP'. split; [done|].
    destruct HMP' as (HM & HP & HPlt & Hok & Hbase & Hrows & Hcells).
    unfold tables_inv. split_and!; [done|done|done| |done| |intros; lia].
    + intros t s Hts Hs. apply Hok; [|done].
      destruct Hts as [?|[_ ?]]; [|lia].
      destruct (decide (t = i)) as [->|]; [by right|left; lia].
    + intros t s Ht Hs. destruct (decide (t = i)) as [->|].
      * by apply Hcells.
      * apply Hrows; [lia|done].
Qed.

Lemma fill_base_spec :
  0 < T →
  ∃ M, for_each (range 0 n)
         (fill_base sequence (log_vec (initial mf)) (log_mat (emissions mf))
            (char_map mf))
         (replicate T (replicate n fzero)) = Ok M
    ∧ mat_shape M T n ∧ base_row sequence mf M
    ∧ ∀ s, s < n → ok (mat_at fzero M 0 s).
Proof.
  intros HT.
  destruct (for_each_range_inv
              (λ k M, mat_shape M T n
                      ∧ ∀ s, s < k →
                          mat_at fzero M 0 s
                          = fadd (log_initial mf s)
                              (log_emission mf s (obs sequence mf 0)))
              (fill_base sequence (log_vec (initial mf))
                 (log_mat (emissions mf)) (char_map mf))
              0 n (replicate T (replicate n fzero)))
    as (M & Hrun & HM & Hbase).
  - lia.
  - split; [apply mat_shape_replicate|]. intros; lia.
  - intros i M Hi [HM Hbase].
    destruct (symbol_ok 0) as (symbol & Hsym & Hc & Hobs); [lia|].
    unfold fill_base.
    rewrite (arr_get_ok fzero) by (rewrite length_log_vec; lia).
    rewrite bind_Ok, Hsym, bind_Ok, Hc, bind_Ok.
    rewrite (mat_get_ok fzero _ n no_symbols)
      by (try apply mat_shape_log; try apply Hshape; lia).
    rewrite bind_Ok, (mat_set_ok M T n) by (done || lia).
    eexists; split; [done|]. split; [by apply mat_upd_shape|].
    intros s Hs. destruct (decide (s = i)) as [->|Hne].
    + by rewrite (mat_upd_eq fzero M T n) by (done || lia).
    + rewrite mat_upd_ne by (right; done). apply Hbase. lia.
  - exists M. split_and!; [done..|].
    intros s Hs. rewrite Hbase by done.
    destruct (symbol_ok 0) as (_ & _ & _ & Hobs); [lia|].
    apply ok_fadd; [by apply ok_log_initial|by apply ok_log_emission].
Qed.

(** For a non-empty sequence over the alphabet, the two filling loops
    complete and leave the tables of the Viterbi recurrence. *)
Lemma viterbi_tables_spec :
  0 < T →
  ∃ M P, viterbi_tables sequence mf = Ok (M, P)
    ∧ tables_inv ok sequence mf T 0 (M, P).
Proof.
  intros HT. unfold viterbi_tables. rewrite length_log_vec.
  destruct (fill_base_spec HT) as (M0 & -> & HM0 & Hbase & Hok0).
  rewrite bind_Ok.
  destruct (for_each_range_inv (λ i, tables_inv ok sequence mf i 0)
              (fill_row sequence (log_mat (transitions mf))
                 (log_mat (emissions mf)) (char_map mf) n)
              1 T (M0, replicate T (replicate n 0)))
    as ([M P] & Hrun & Hinv); [lia| | |by eauto].
  - unfold tables_inv. simpl.
    split_and!; [done|apply mat_shape_replicate| | |done| |].
    + intros t s. rewrite mat_at_replicate. lia.
    + intros t s Hts Hs. replace t with 0 by lia. by apply Hok0.
    + intros; lia.
    + intros; lia.
  - intros i MP Hi HMP. by apply fill_row_spec.
Qed.
End Tables.

(** ** Viterbi decoder: backtracking *)

Section Backtracking.
Context {F : Type} `{Numeric F} (ok : F → Prop) {Hord : NumericOrder ok}.
Variables (sequence : string) (mf : matrix_form F).

Local Abbreviation n := (length (initial mf)).
Local Abbreviation T := (String.length sequence).

Lemma rev_range_S (t : nat) : rev (range 0 (S t)) = t :: rev (range 0 t).
Proof.
  unfold range. rewrite !Nat.sub_0_r, seq_S, rev_app_distr. done.
Qed.

(** The first round of the backtracking loop reads [P] at the integer
    index from [np.argmax]; a second round holds the float read from
    [P], looks its label up and fails on [P[i, next_state]]. *)
Lemma backtrack_rounds (P : list (list nat)) (t s : nat) (acc : list (value F)) :
  mat_shape P T n → t < T → s < n →
  for_each (rev (range 0 (S t))) (backtrack_step (label_map mf) P)
    (acc, IntIndex s)
  = (label ← label_of mf s;
     match t with
     | O => Ok (acc ++ [label], FloatIndex (mat_at 0 P 0 s))
     | S _ => _ ← label_of mf (mat_at 0 P t s); Raise IndexError
     end).
Proof.
  intros HP Ht Hs. rewrite rev_range_S, for_each_cons.
  unfold backtrack_step at 2. simpl index_state. unfold label_of.
  destruct (of_option KeyError (dict_get (label_map mf) s)) as [l| |];
    [|done..].
  rewrite !bind_Ok. simpl read_predecessor.
  rewrite (mat_get_ok 0 P T n), !bind_Ok by done.
  destruct t as [|t]; [done|].
  rewrite rev_range_S, for_each_cons.
  unfold backtrack_step at 2. simpl index_state.
  by destruct (of_option KeyError (dict_get (label_map mf) _)) as [l'| |].
Qed.

Lemma last_row_ok {A} (M : list (list A)) :
  mat_shape M T n → 0 < T →
  last_row M = Ok (nth (T - 1) M []) ∧ length (nth (T - 1) M []) = n.
Proof.
  intros HM HT. split; [|apply (mat_row_length M T n); [done|lia]].
  unfold last_row. rewrite last_lookup. destruct HM as [Hlen _].
  rewrite Hlen. replace (pred T) with (T - 1) by lia.
  rewrite nth_lookup.
  destruct (lookup_lt_is_Some_2 M (T - 1)) as [row ->]; [lia|done].
Qed.

(** After the tables, [optimal_path] takes the first best state of the
    last row. *)
Lemma last_row_argmax (M : list (list F)) (P : list (list nat)) :
  0 < T → 0 < n →
  tables_inv ok sequence mf T 0 (M, P) →
  ∃ s_final,
    (last_row M ≫= argmax) = Ok s_final
    ∧ s_final < n
    ∧ (∀ s, s < n →
         fgt (mat_at fzero M (T - 1) s) (mat_at fzero M (T - 1) s_final) = false)
    ∧ (∀ s, s < s_final →
         fgt (mat_at fzero M (T - 1) s_final) (mat_at fzero M (T - 1) s) = true).
Proof.
  intros HT Hn (HM & HP & HPlt & Hok & _). simpl in *.
  destruct (last_row_ok M HM HT) as [Hlast Hlen].
  destruct (argmax_spec ok (nth (T - 1) M [])) as (s & Hs & Hlt & Hmax & Hfirst);
    [|lia|].
  { apply Forall_lookup_2. intros s x Hx.
    assert (Hs : s < n) by (rewrite <- Hlen; by eapply lookup_lt_Some).
    replace x with (mat_at fzero M (T - 1) s).
    - apply Hok; [lia|done].
    - unfold mat_at. by rewrite (nth_lookup _ s), Hx. }
  rewrite Hlen in *.
  exists s. split_and!; [by rewrite Hlast|done..].
Qed.

(** The outcome of [optimal_path] after the tables: from the state
    [s_final] that [np.argmax] returns, one round of the backtracking
    loop completes; a second round, which a sequence of two symbols or
    more calls for, does not. *)
Lemma optimal_path_rounds (header : dict string string)
    (M : list (list F)) (P : list (list nat)) (s_final : nat) :
  0 < T →
  viterbi_tables sequence mf = Ok (M, P) →
  mat_shape P T n →
  (last_row M ≫= argmax) = Ok s_final →
  s_final < n →
  optimal_path sequence (header, mf)
  = (label ← label_of mf s_final;
     match T - 1 with
     | O => path ← join_values [label]; Ok (M, path)
     | S _ => _ ← label_of mf (mat_at 0 P (T - 1) s_final); Raise IndexError
     end).
Proof.
  intros HT Htables HP Hfinal Hs.
  unfold optimal_path. rewrite Htables, bind_Ok.
  destruct (last_row M) as [row| |]; [|done..]. rewrite bind_Ok in Hfinal.
  rewrite bind_Ok, Hfinal, bind_Ok.
  replace T with (S (T - 1)) at 1 by lia.
  rewrite (backtrack_rounds P (T - 1) s_final []) by (done || lia).
  destruct (label_of mf s_final) as [l| |]; [|done..]. rewrite !bind_Ok.
  destruct (T - 1) as [|t]; [done|].
  by destruct (label_of mf _) as [l'| |].
Qed.
End Backtracking.

(** ** Viterbi decoder: correctness *)

Section DecoderCorrect.
Context {F : Type} `{Numeric F}.

Local Abbreviation len := String.length.

(** C1.  Take a model whose arrays have matching sizes, a non-empty
    sequence over its alphabet, and a set [ok] of scores ordered by [>]
    that contains the logarithms of the model's entries.  The filling
    loops of [optimal_path] return tables [M] and [P] of one row per
    symbol and one column per state such that: row 0 of [M] is
    [log initial[s] + log emissions[s][symbol 0]]; for [t >= 1],
    [P[t][j]] is a state [k] maximising [M[t-1][k] + log
    transitions[k][j]] and [M[t][j]] is that maximum plus
    [log emissions[j][symbol t]].  A path is returned for a sequence of
    one symbol only: the label of a best state of the one row.  For a
    sequence of two symbols or more no path is returned: the
    backtracking loop takes the label of a best state of the last row,
    reads the predecessor of that state from [P], which is a float,
    takes the label of the predecessor, and raises [IndexError] when it
    uses the float as an index of [P] (a missing label is raised as a
    [KeyError] before that). *)
Theorem optimal_path_viterbi (ok : F → Prop) (sequence : string)
    (header : dict string string) (mf : matrix_form F) (no_symbols : nat) :
  NumericOrder ok →
  scores_ok ok mf →
  model_shape mf no_symbols →
  over_alphabet sequence mf →
  0 < len sequence →
  ∃ M P,
    viterbi_tables sequence mf = Ok (M, P)
    ∧ mat_shape M (len sequence) (length (initial mf))
    ∧ (∀ s, s < length (initial mf) →
         mat_at fzero M 0 s
         = fadd (log_initial mf s) (log_emission mf s (obs sequence mf 0)))
    ∧ (∀ t j, 1 ≤ t < len sequence → j < length (initial mf) →
         mat_at 0 P t j < length (initial mf)
         ∧ mat_at fzero M t j
           = fadd (candidate mf M t j (mat_at 0 P t j))
               (log_emission mf j (obs sequence mf t))
         ∧ ∀ k, k < length (initial mf) →
             fgt (candidate mf M t j k) (candidate mf M t j (mat_at 0 P t j))
             = false)
    ∧ (0 < length (initial mf) →
       ∃ s_final,
         s_final < length (initial mf)
         ∧ (∀ s, s < length (initial mf) →
              fgt (mat_at fzero M (len sequence - 1) s)
                (mat_at fzero M (len sequence - 1) s_final) = false)
         ∧ (len sequence = 1 →
            optimal_path sequence (header, mf)
            = (label ← label_of mf s_final;
               path ← join_values [label];
               Ok (M, path)))
         ∧ (2 ≤ len sequence →
            optimal_path sequence (header, mf)
            = (_ ← label_of mf s_final;
               _ ← label_of mf (mat_at 0 P (len sequence - 1) s_final);
               Raise IndexError))).
Proof.
  intros Hord Hscores Hshape Halpha HT.
  destruct (viterbi_tables_spec ok sequence mf no_symbols
              Hshape Hscores Halpha HT) as (M & P & Htables & Hinv).
  exists M, P. pose proof Hinv as (HM & HP & HPlt & Hok & Hbase & Hrows & _).
  simpl in *. split_and!; [done..| |].
  - intros t j Ht Hj. by destruct (Hrows t j Ht Hj) as [Hcell _].
  - intros Hn.
    destruct (last_row_argmax ok sequence mf M P HT Hn Hinv)
      as (s & Hfinal & Hs & Hmax & _).
    pose proof (optimal_path_rounds sequence mf header M P s
                  HT Htables HP Hfinal Hs) as Hrun.
    exists s. split_and!; [done..| |].
    + intros Hone. etrans; [exact Hrun|].
      by replace (len sequence - 1) with 0 by lia.
    + intros Htwo. etrans; [exact Hrun|].
      destruct (len sequence - 1) as [|t] eqn:Hlen; [lia|done].
Qed.

End DecoderCorrect.

(** ** Path summarizer *)

Lemma min_by_enumerate {A} (l : list A) (i : nat) (best : nat * A) :
  best.1 < i → min_by fst best (enumerate_from i l) = best.
Proof.
  revert i best. unfold min_by.
  induction l as [|x l IH]; intros i best Hlt; simpl; [done|].
  destruct (Nat.ltb_spec i best.1); [lia|].
  apply IH. lia.
Qed.

Lemma max_by_enumerate {A} (l : list A) (i : nat) (best : nat * A) :
  i = S best.1 →
  (max_by fst best (enumerate_from i l)).1 = best.1 + length l.
Proof.
  revert i best. unfold max_by.
  induction l as [|x l IH]; intros i best ->; simpl; [lia|].
  destruct (Nat.ltb_spec best.1 (S best.1)); [|lia].
  rewrite (IH _ (S best.1, x)) by done. simpl. lia.
Qed.

Lemma enumerate_from_snoc {A} (l : list A) (i : nat) (x : A) :
  enumerate_from i (l ++ [x]) = enumerate_from i l ++ [(i + length l, x)].
Proof.
  revert i. induction l as [|y l IH]; intros i; simpl.
  - by rewrite Nat.add_0_r.
  - rewrite IH. replace (S i + length l) with (i + S (length l)) by lia. done.
Qed.

Lemma replicate_snoc {A} (n : nat) (x : A) :
  replicate n x ++ [x] = replicate (S n) x.
Proof. induction n as [|n IH]; simpl; [done|]. by rewrite IH. Qed.

Lemma groupby_run_runs (cs : list ascii) (c : ascii) (s n : nat) :
  runs_of s (replicate (S n) c ++ cs)
    (summarize_item <$> groupby_run snd c (s, c)
                    (enumerate_from (S s) (replicate n c))
                    (enumerate_from (s + S n) cs)).
Proof.
  revert c s n. induction cs as [|x cs IH]; intros c s n.
  - simpl groupby_run. simpl fmap. unfold summarize_item.
    rewrite min_by_enumerate by (simpl; lia).
    rewrite (max_by_enumerate _ _ (s, c)) by done. simpl fst.
    rewrite length_replicate.
    apply runs_block; [done|]. constructor.
  - simpl groupby_run. destruct (decide (x = c)) as [->|Hne].
    + replace (enumerate_from (S s) (replicate n c) ++ [(s + S n, c)])
        with (enumerate_from (S s) (replicate (S n) c)).
      2:{ rewrite <- replicate_snoc, enumerate_from_snoc, length_replicate.
          replace (S s + n) with (s + S n) by lia. done. }
      replace (S (s + S n)) with (s + S (S n)) by lia.
      replace (replicate (S n) c ++ c :: cs)
        with (replicate (S (S n)) c ++ cs).
      2:{ rewrite <- (replicate_snoc (S n)), <- app_assoc. done. }
      apply IH.
    + rewrite fmap_cons. unfold summarize_item at 1.
      rewrite min_by_enumerate by (simpl; lia).
      rewrite (max_by_enumerate _ _ (s, c)) by done. simpl fst.
      rewrite length_replicate.
      apply runs_block.
      * simpl. congruence.
      * replace (S (s + S n)) with ((s + S n) + 1) by lia.
        apply (IH x (s + S n) 0).
Qed.

Lemma replicate_block_inj {A} (n n' : nat) (c c' : A) (l l' : list A) :
  replicate (S n) c ++ l = replicate (S n') c' ++ l' →
  head l ≠ Some c → head l' ≠ Some c' →
  n = n' ∧ c = c' ∧ l = l'.
Proof.
  simpl. intros [= <- Heq] Hl Hl'. revert n' Heq.
  induction n as [|n IH]; intros [|n'] Heq; simpl in Heq.
  - done.
  - subst l. by destruct Hl.
  - subst l'. by destruct Hl'.
  - injection Heq as Heq. by destruct (IH n' Heq) as (-> & _ & ->).
Qed.

(** The maximal runs of a list of characters are determined. *)
Lemma runs_of_unique (base : nat) (cs : list ascii) (rs rs' : list (nat * nat * ascii)) :
  runs_of base cs rs → runs_of base cs rs' → rs = rs'.
Proof.
  intros Hrs. revert rs'.
  induction Hrs as [base|base n c cs rs Hhead Hrs IH]; intros rs' Hrs'.
  - by inversion Hrs'.
  - remember (replicate (S n) c ++ cs) as l eqn:Hl.
    destruct Hrs' as [base|base n' c' cs' rs0 Hhead' Hrs0]; [done|].
    apply replicate_block_inj in Hl as (-> & -> & ->); [|done..].
    f_equal. by apply IH.
Qed.

(** C8.  [summarize] yields, in path order, the maximal contiguous runs of
    identical labels as (start, end, label) triples with inclusive
    indices, and nothing else does; on "iiiMMMoo" it yields (0,2,i),
    (3,5,M), (6,7,o). *)
Theorem summarize_maximal_runs :
  (∀ (path : string) (rs : list (nat * nat * ascii)),
     runs_of 0 (chars path) rs ↔ rs = summarize path)
  ∧ summarize "iiiMMMoo"
    = [(0, 2, "i"%char); (3, 5, "M"%char); (6, 7, "o"%char)].
Proof.
  split; [|reflexivity].
  assert (Hruns : ∀ path, runs_of 0 (chars path) (summarize path)).
  { intros path. unfold summarize.
    destruct (chars path) as [|c cs]; [constructor|].
    unfold enumerate. simpl.
    apply (groupby_run_runs cs c 0 0). }
  intros path rs. split; [|by intros ->].
  intros Hrs. by apply (runs_of_unique 0 (chars path)).
Qed.

(** ** The small models *)

Section ToyExamples.
Import LogInt.

Lemma logint_order : NumericOrder (λ _ : LogInt.t, True).
Proof.
  split.
  - done.
  - done.
  - intros [|a] _; simpl; [done|]. apply Z.ltb_irrefl.
  - intros [|a] [|b] [|c] _ _ _; simpl; try done.
    rewrite !Z.ltb_lt. lia.
  - intros [|a] [|b] [|c] _ _ _; simpl; try done; eauto.
    rewrite !Z.ltb_lt. lia.
  - intros [|a] _; simpl; done.
Qed.

Example toy_parse : parse_model Toy.file = Ok Toy.model.
Proof. vm_compute. reflexivity. Qed.

Example toy_tokens :
  _parse_header (_tokenize (_strip_comments Toy.file))
  ≫= (λ '(tokens, _), parse_states (length tokens) tokens [])
  = Ok ([], Toy.states).
Proof. vm_compute. reflexivity. Qed.

Example toy_normalize : _normalize_states Toy.states = Ok Toy.normal.
Proof. vm_compute. reflexivity. Qed.

Example toy_matrices : _to_matrix_form "AB" Toy.normal = Ok Toy.matrices.
Proof. vm_compute. reflexivity. Qed.

(** The tables for [ABBA]: the chain of predecessors of the best state
    of the last row is [s1], [s2], [s2], [s1], of score 18. *)
Example toy_tables :
  viterbi_tables "ABBA" Toy.matrices
  = Ok ([ [Fin 5; Fin 2; NegInf]; [Fin 7; Fin 9; NegInf];
          [Fin 11; Fin 13; NegInf]; [Fin 18; Fin 14; NegInf] ],
        [ [0; 0; 0]; [0; 0; 0]; [1; 1; 0]; [1; 1; 0] ])
  ∧ backtrace [ [0; 0; 0]; [0; 0; 0]; [1; 1; 0]; [1; 1; 0] ] 3 0 = [0; 1; 1; 0].
Proof. split; vm_compute; reflexivity. Qed.

(** A sequence of one symbol is decoded; for a longer one the second
    round of the backtracking loop raises [IndexError]. *)
Example toy_decode :
  optimal_path "A" Toy.model = Ok ([ [Fin 5; Fin 2; NegInf] ], "i")
  ∧ optimal_path "AB" Toy.model = Raise IndexError
  ∧ optimal_path "ABBA" Toy.model = Raise IndexError.
Proof. split_and!; vm_compute; reflexivity. Qed.

(** Between equal scores the state of lowest index is chosen. *)
Example twins_decode :
  viterbi_tables "AAA" Toy.twins
  = Ok ([ [Fin 0; Fin 0]; [Fin 0; Fin 0]; [Fin 0; Fin 0] ],
        [ [0; 0]; [0; 0]; [0; 0] ])
  ∧ optimal_path "A" ([], Toy.twins) = Ok ([ [Fin 0; Fin 0] ], "x").
Proof. split; vm_compute; reflexivity. Qed.

(** A parent that is visited later is still unresolved; a parent that
    is visited earlier has been resolved, and the chain is followed. *)
Example chain_orders :
  _normalize_states Toy.chain = Raise AttributeError
  ∧ ∃ states',
      _normalize_states Toy.chain_in_order = Ok states'
      ∧ (dict_get states' "c" ≫= λ st, dict_get st "trans")
        = Some (VMap [("b", PFloat (Fin 2)); ("c", PFloat (Fin 1))]).
Proof. split; [|eexists; split]; vm_compute; reflexivity. Qed.

Example unterminated_block :
  parse_model (F:=LogInt.t)
    ["header { alphabet AB; } begin { trans s1:4; } s1 { label i;"]
  = Raise IndexError.
Proof. vm_compute. reflexivity. Qed.

(** A state block that is left open in front of another block does not
    make [parse_model] fail.  In [Toy.open_file] the block of [s1] has
    no closing brace, so that four braces are opened and three are
    closed; the tokens of the block of [s2] are read as fields of [s1],
    and a model of the one state [s1] is returned. *)
Lemma parse_model_open_block :
  braces (_tokenize (_strip_comments Toy.open_file)) = (4, 3)
  ∧ parse_model Toy.open_file = Ok Toy.open_model.
Proof. split; vm_compute; reflexivity. Qed.
End ToyExamples.

(** ** The theorems at the small models *)

Section Witnesses.
Import LogInt.

Ltac elems H :=
  repeat (apply elem_of_cons in H as [H|H]; [try (injection H as -> ->)|]);
  try (by apply elem_of_nil in H).

Lemma optimal_path_viterbi_witness :
  ∃ M P, viterbi_tables "AB" Toy.matrices = Ok (M, P) ∧ mat_shape M 2 3
    ∧ optimal_path "AB" Toy.model = Raise IndexError.
Proof.
  destruct (optimal_path_viterbi (λ _, True) "AB" [("alphabet", "AB")]
              Toy.matrices 2)
    as (M & P & Htables & Hshape & _ & Hcells & Hfinal).
  - exact logint_order.
  - split_and!; repeat constructor.
  - split_and!.
    + split; [reflexivity|repeat constructor].
    + split; [reflexivity|repeat constructor].
    + intros symbol c. simpl. repeat case_decide; intros [= <-]; lia.
  - intros symbol Hin. vm_compute in Hin. elems Hin; subst; vm_compute; eauto.
  - simpl. lia.
  - destruct Hfinal as (s & Hs & _ & _ & Hfails); [simpl; lia|].
    exists M, P. split_and!; [exact Htables|exact Hshape|].
    etrans; [apply Hfails; simpl; lia|].
    destruct (Hcells 1 s) as [Hk _]; [simpl; lia|exact Hs|].
    change (String.length "AB" - 1) with 1.
    generalize dependent (mat_at 0 P 1 s). intros k Hk. simpl in Hs, Hk.
    destruct s as [|[|[|s]]]; [| | |lia];
      (destruct k as [|[|[|k]]]; [| | |lia]); reflexivity.
Defined.


Lemma optimal_path_unknown_symbol_witness :
  ∃ e, optimal_path "ABC" Toy.model = Raise e.
Proof.
  apply (optimal_path_unknown_symbol "ABC" Toy.model 2 "C"); reflexivity.
Defined.

Lemma tied_trans_positional_witness :
  ∃ st', dict_get Toy.normal "s3" = Some st'
    ∧ dict_get st' "trans"
      = Some (VMap [("s2", PFloat (Fin 4)); ("s1", PFloat (Fin 2))]).
Proof.
  edestruct (tied_trans_positional Toy.states Toy.normal
               ["begin"; "s1"; "s2"] [] "s3" "s2")
    as (store & parent & probs_map & own & targets & st'
        & Hstore & Hparent & Hprobs & Hown & Htargets & Hst' & Htrans & _).
  - unfold dict_wf. compute_done.
  - reflexivity.
  - reflexivity.
  - reflexivity.
  - vm_compute. reflexivity.
  - exists st'. split; [exact Hst'|].
    injection Hst' as <-. reflexivity.
Defined.

Lemma tied_letter_copy_witness :
  ∃ st', dict_get Toy.normal "s3" = Some st'
    ∧ dict_get st' "only"
      = Some (VMap [("A", PFloat (Fin 8)); ("B", PFloat (Fin 1))]).
Proof.
  edestruct (tied_letter_copy Toy.states Toy.normal
               ["begin"; "s1"; "s2"] [] "s3" "s1")
    as (store & parent & parent_only & only & st'
        & Hstore & Hparent & Hponly & Honly & Hst' & Hst'only & _).
  - unfold dict_wf. compute_done.
  - reflexivity.
  - reflexivity.
  - reflexivity.
  - vm_compute. reflexivity.
  - exists st'. split; [exact Hst'|].
    injection Hst' as <-. reflexivity.
Defined.

Lemma tied_trans_unresolved_parent_witness :
  _normalize_states Toy.chain = Raise AttributeError.
Proof.
  edestruct (tied_trans_unresolved_parent Toy.chain Toy.chain
               ["a"] ["b"] "c" "b") as [Hfails _].
  - unfold dict_wf. compute_done.
  - reflexivity.
  - reflexivity.
  - reflexivity.
  - reflexivity.
  - vm_compute. reflexivity.
  - reflexivity.
  - apply (Hfails ["a"; "b"]). reflexivity.
Defined.

Lemma to_matrix_form_declared_witness :
  ∃ mf, _to_matrix_form "AB" Toy.normal = Ok mf ∧ length (initial mf) = 3.
Proof.
  destruct (to_matrix_form_declared "AB" Toy.normal)
    as (mf & Hmf & _ & _ & _ & Hlen & _).
  - split_and!.
    + unfold dict_wf. compute_done.
    + eexists _, _. split_and!; [reflexivity|reflexivity|]. split.
      * unfold dict_wf. compute_done.
      * intros k p Hin. elems Hin;
          (split; [compute_done|eexists; reflexivity]).
    + intros name st Hin. vm_compute in Hin. elems Hin;
        (eexists _, _; split_and!; [reflexivity|reflexivity|..]);
        (split; [unfold dict_wf; compute_done|]);
        intros k p Hk; elems Hk;
        (split; [compute_done|eexists; reflexivity]).
  - exists mf. split; [exact Hmf|exact Hlen].
Defined.
End Witnesses.

(** * Further properties *)

(** ** Tokenizer *)

Lemma chars_str_of_chars (cs : list ascii) : chars (str_of_chars cs) = cs.
Proof. induction cs as [|c cs IH]; simpl; [done|]. by rewrite IH. Qed.

Lemma str_of_chars_chars (s : string) : str_of_chars (chars s) = s.
Proof. induction s as [|c s IH]; simpl; [done|]. by rewrite IH. Qed.

Lemma chars_app (a b : string) : chars (a +:+ b) = chars a ++ chars b.
Proof. induction a as [|c a IH]; simpl; [done|]. by rewrite IH. Qed.

Lemma is_word_str_of_chars (word : list ascii) :
  word ≠ [] → Forall (λ c, is_word_char c = true) word →
  is_word (str_of_chars word) = true.
Proof.
  intros Hne Hword. unfold is_word. rewrite chars_str_of_chars.
  destruct word as [|c word]; [done|].
  apply forallb_forall. intros x Hx. apply list_elem_of_In in Hx.
  by apply (proj1 (Forall_forall _ _) Hword).
Qed.

Lemma tokenize_from_tokens (word cs : list ascii) :
  Forall (λ c, is_word_char c = true) word →
  Forall (λ t, is_token t = true) (tokenize_from word cs)
  ∧ concat (chars <$> tokenize_from word cs)
    = word ++ filter (λ c, is_token_char c) cs.
Proof.
  assert (Hflush : ∀ word, Forall (λ c, is_word_char c = true) word →
            Forall (λ t, is_token t = true) (flush_word word)
            ∧ concat (chars <$> flush_word word) = word).
  { intros [|c w] Hw; [by split|]. split.
    - constructor; [|constructor]. unfold is_token.
      by rewrite is_word_str_of_chars.
    - simpl flush_word. simpl fmap. simpl concat.
      by rewrite chars_str_of_chars, app_nil_r. }
  revert word. induction cs as [|c cs IH]; intros word Hword.
  - simpl. rewrite app_nil_r. by apply Hflush.
  - simpl tokenize_from. destruct (is_word_char c) eqn:Hc.
    + destruct (IH (word ++ [c])) as [Htok Hcat].
      { apply Forall_app. split; [done|]. by constructor. }
      split; [done|]. rewrite Hcat, <- app_assoc. simpl.
      rewrite filter_cons_True; [done|]. unfold is_token_char. by rewrite Hc.
    + destruct (Hflush word Hword) as [Htok1 Hcat1].
      destruct (IH []) as [Htok2 Hcat2]; [constructor|].
      split.
      * apply Forall_app. split; [done|]. apply Forall_app. split; [|done].
        destruct (is_punct c) eqn:Hp; [|constructor].
        constructor; [|constructor]. unfold is_token. simpl. rewrite Hp.
        by rewrite orb_true_r.
      * rewrite !fmap_app, !concat_app, Hcat1, Hcat2. f_equal.
        destruct (is_punct c) eqn:Hp.
        -- rewrite filter_cons_True; [done|].
           unfold is_token_char. by rewrite Hc, Hp.
        -- rewrite filter_cons_False; [done|].
           unfold is_token_char. rewrite Hc, Hp. by intros [].
Qed.

(** X1.  Every token that [_tokenize] returns is a non-empty run of word
    characters or a single punctuation character, and the tokens, written
    one after the other, are exactly the word and punctuation characters
    of the contents in their order: the tokenizer drops the other
    characters and nothing else. *)
Theorem tokenize_tokens (contents : string) :
  Forall (λ t, is_token t = true) (_tokenize contents)
  ∧ concat (chars <$> _tokenize contents)
    = filter (λ c, is_token_char c) (chars contents).
Proof. apply (tokenize_from_tokens []). constructor. Qed.

Lemma tokenize_from_split (word cs1 : list ascii) (c : ascii) (cs2 : list ascii) :
  is_word_char c = false →
  tokenize_from word (cs1 ++ c :: cs2)
  = tokenize_from word cs1
    ++ (if is_punct c then [str_of_char c] else [])
    ++ tokenize_from [] cs2.
Proof.
  intros Hc. revert word. induction cs1 as [|x cs1 IH]; intros word.
  - simpl. by rewrite Hc.
  - simpl. destruct (is_word_char x); [apply IH|].
    rewrite IH, <- !app_assoc. done.
Qed.

(** X2.  A character that is not a word character ends the token before
    it: the tokens of [a c b] are the tokens of [a], the token [c] when
    [c] is a punctuation character (no token otherwise: white space, [#]
    and every other character only separate), and the tokens of [b]. *)
Theorem tokenize_split (a : string) (c : ascii) (b : string) :
  is_word_char c = false →
  _tokenize (a +:+ String c b)
  = _tokenize a ++ (if is_punct c then [str_of_char c] else []) ++ _tokenize b.
Proof.
  intros Hc. unfold _tokenize. rewrite chars_app. simpl chars.
  by apply tokenize_from_split.
Qed.

Lemma tokenize_from_word (word cs : list ascii) :
  Forall (λ c, is_word_char c = true) cs →
  tokenize_from word cs = flush_word (word ++ cs).
Proof.
  revert word. induction cs as [|c cs IH]; intros word Hcs.
  - by rewrite app_nil_r.
  - apply Forall_cons in Hcs as [Hc Hcs]. simpl. rewrite Hc.
    rewrite IH by done. by rewrite <- app_assoc.
Qed.

Lemma tokenize_token (t : string) :
  is_token t = true → tokenize_from [] (chars t) = [t].
Proof.
  unfold is_token, is_word. intros Ht. apply orb_true_iff in Ht as [Ht|Ht].
  - destruct (chars t) as [|c cs] eqn:Hcs; [done|].
    rewrite tokenize_from_word.
    + change (flush_word ([] ++ c :: cs)) with [str_of_chars (c :: cs)].
      by rewrite <- Hcs, str_of_chars_chars.
    + apply Forall_forall. intros x Hx.
      apply (proj1 (forallb_forall _ _) Ht). by apply list_elem_of_In.
  - destruct (chars t) as [|c [|c' cs]] eqn:Hcs; [done| |done].
    simpl. destruct (is_word_char c) eqn:Hc.
    + simpl. f_equal. by rewrite <- (str_of_chars_chars t), Hcs.
    + rewrite Ht. simpl. f_equal. by rewrite <- (str_of_chars_chars t), Hcs.
Qed.

(** X3.  Tokenizing undoes writing tokens with separators: a list of
    tokens, each followed by a character that belongs to no token, is
    tokenized to that list. *)
Theorem tokenize_unwords (sep : ascii) (ts : list string) :
  is_token_char sep = false →
  Forall (λ t, is_token t = true) ts →
  _tokenize (unwords sep ts) = ts.
Proof.
  intros Hsep Hts. unfold is_token_char in Hsep.
  apply orb_false_iff in Hsep as [Hw Hp].
  unfold _tokenize, unwords.
  induction Hts as [|t ts Ht Hts IH]; [done|].
  rewrite fmap_cons. change (join (?x :: ?l)) with (x +:+ join l).
  rewrite !chars_app, <- app_assoc. simpl chars. simpl app.
  rewrite tokenize_from_split by done. rewrite Hp, IH.
  by rewrite tokenize_token.
Qed.

(** ** Comment lines and empty files *)

Section CommentsCorrect.
Context {F : Type} `{Numeric F}.

Lemma str_app_assoc (a b c : string) : (a +:+ b) +:+ c = a +:+ (b +:+ c).
Proof.
  induction a as [|x a IH]; [done|].
  change (String x ((a +:+ b) +:+ c) = String x (a +:+ (b +:+ c))).
  by rewrite IH.
Qed.

Lemma join_app (xs ys : list string) : join (xs ++ ys) = join xs +:+ join ys.
Proof.
  induction xs as [|x xs IH]; [done|].
  change (join ((x :: xs) ++ ys)) with (x +:+ join (xs ++ ys)).
  change (join (x :: xs)) with (x +:+ join xs).
  by rewrite IH, str_app_assoc.
Qed.

(** X4.  [_strip_comments] drops a line exactly when its first character
    is [#] and keeps every other line whole and in place; so a line that
    starts with [#] can be added to a model file anywhere without
    changing what [parse_model] returns or raises. *)
Theorem strip_comments_line (pre : list string) (l : string) (post : list string) :
  _strip_comments (pre ++ l :: post)
  = _strip_comments pre +:+ (if startswith_hash l then "" else l)
    +:+ _strip_comments post
  ∧ (startswith_hash l = true →
     parse_model (F:=F) (pre ++ l :: post) = parse_model (pre ++ post)).
Proof.
  assert (Hstrip : _strip_comments (pre ++ l :: post)
    = _strip_comments pre +:+ (if startswith_hash l then "" else l)
      +:+ _strip_comments post).
  { unfold _strip_comments. rewrite filter_app, join_app.
    destruct (startswith_hash l) eqn:Hl.
    - rewrite filter_cons_False; [done|]. rewrite Hl. by intros [].
    - rewrite filter_cons_True; [done|]. by rewrite Hl. }
  split; [done|]. intros Hl. unfold parse_model. rewrite Hstrip, Hl.
  unfold _strip_comments at 3. by rewrite filter_app, join_app.
Qed.

Lemma chars_join (xs : list string) : chars (join xs) = concat (chars <$> xs).
Proof.
  induction xs as [|x xs IH]; [done|].
  change (join (x :: xs)) with (x +:+ join xs). rewrite chars_app, IH. done.
Qed.

Lemma tokenize_from_blank (cs : list ascii) :
  Forall (λ c, is_token_char c = false) cs → tokenize_from [] cs = [].
Proof.
  induction 1 as [|c cs Hc Hcs IH]; [done|].
  unfold is_token_char in Hc. apply orb_false_iff in Hc as [Hw Hp].
  simpl. by rewrite Hw, Hp, IH.
Qed.

(** X5.  A file without a token (every line is a comment line or holds
    separators only; the empty file is one) makes [parse_model] raise
    [IndexError]: the first [popleft] of [_parse_header] finds the deque
    empty. *)
Theorem parse_model_no_token (file_like : list string) :
  Forall (λ l, startswith_hash l || is_blank l = true) file_like →
  parse_model (F:=F) file_like = Raise IndexError.
Proof.
  intros Hfile.
  assert (Htokens : _tokenize (_strip_comments file_like) = []).
  { unfold _tokenize, _strip_comments. rewrite chars_join.
    apply tokenize_from_blank. apply Forall_concat, Forall_fmap.
    apply Forall_forall. intros l Hl.
    apply list_elem_of_filter in Hl as [Hkeep Hl].
    apply (proj1 (Forall_forall _ _) Hfile) in Hl.
    destruct (startswith_hash l); [done|]. simpl in Hl.
    unfold is_blank in Hl. apply Forall_forall. intros c Hc.
    apply list_elem_of_In in Hc.
    apply (proj1 (forallb_forall _ _) Hl) in Hc.
    by apply negb_true_iff in Hc. }
  unfold parse_model. by rewrite Htokens.
Qed.
End CommentsCorrect.

(** ** Grammar parser: well-formed input *)

Section GrammarCorrect.
Context {F : Type} `{Numeric F}.
Implicit Types (tokens rest : list string).

Lemma parse_list_loop_items (items : list string) (acc : list string) rest :
  ";" ∉ items →
  _parse_list_loop (items ++ ";" :: rest) acc = Ok (";" :: rest, acc ++ items).
Proof.
  revert acc. induction items as [|t items IH]; intros acc Hitems; simpl.
  - by rewrite app_nil_r.
  - apply not_elem_of_cons in Hitems as [Hne Hitems].
    rewrite decide_False by done. rewrite IH by done.
    by rewrite <- app_assoc.
Qed.

Lemma parse_list_loop_unterminated tokens (acc : list string) :
  ";" ∉ tokens → _parse_list_loop tokens acc = Raise IndexError.
Proof.
  revert acc. induction tokens as [|t tokens IH]; intros acc Htokens; [done|].
  apply not_elem_of_cons in Htokens as [Hne Htokens]. simpl.
  rewrite decide_False by done. by apply IH.
Qed.

(** X6.  [_parse_list] returns the tokens before the first [;] as the
    list and leaves the deque at that [;]; when no [;] is left it
    consumes every token and raises [IndexError]. *)
Theorem parse_list_semicolon :
  (∀ items rest, ";" ∉ items →
     _parse_list (items ++ ";" :: rest) = Ok (";" :: rest, items))
  ∧ (∀ tokens, ";" ∉ tokens → _parse_list tokens = Raise IndexError).
Proof.
  split.
  - intros items rest Hitems. unfold _parse_list.
    by rewrite parse_list_loop_items.
  - intros tokens Htokens. by apply parse_list_loop_unterminated.
Qed.

Lemma parse_map_loop_entries (entries : list (string * string * F))
    (acc : dict string (pval F)) tokens :
  Forall entry_ok entries →
  _parse_map_loop (entry_tokens entries ++ tokens) acc
  = _parse_map_loop tokens
      (foldl (λ d p, dict_set d p.1 p.2) acc (entry_items entries)).
Proof.
  intros Hentries. revert acc.
  induction Hentries as [|[[k v] x] entries [Hk Hv] _ IH]; intros acc; [done|].
  simpl in Hk, Hv. unfold entry_tokens. rewrite fmap_cons. simpl concat.
  simpl _parse_map_loop. rewrite decide_False by done.
  rewrite Hv. simpl of_option. rewrite bind_Ok. apply IH.
Qed.

(** X7.  [_parse_map] reads entries [key : value] up to the next [;],
    where it leaves the deque, and returns them as a map in the order of
    the first occurrence of each key, a repeated key keeping its last
    value; a value that is not a number raises [ValueError]. *)
Theorem parse_map_entries (entries : list (string * string * F)) rest :
  Forall entry_ok entries →
  _parse_map (entry_tokens entries ++ ";" :: rest)
  = Ok (";" :: rest, Some (dict_of_pairs (entry_items entries)))
  ∧ ∀ k v, k ≠ ";" → float_of_str v = None →
      _parse_map (entry_tokens entries ++ k :: ":" :: v :: rest)
      = Raise ValueError.
Proof.
  intros Hentries. unfold _parse_map. split.
  - by rewrite parse_map_loop_entries by done.
  - intros k v Hk Hv. rewrite parse_map_loop_entries by done. simpl.
    rewrite decide_False by done. by rewrite Hv.
Qed.

(** X8.  The value of a [trans] or [only] field that is not a map falls
    back to a list: when a key is not followed by [:], the list starts at
    that key and runs to the next [;].  The fallback puts back only the
    two tokens it has just read: the entries read before them are
    dropped, from the deque and from the value. *)
Theorem parse_field_list (token : string) (entries : list (string * string * F))
    (item : string) (items rest : list string) :
  token ∈ ["trans"; "only"] →
  Forall entry_ok entries →
  ";" ∉ item :: items →
  head (items ++ [";"]) ≠ Some ":" →
  parse_field token (entry_tokens entries ++ item :: items ++ ";" :: rest)
  = Ok (";" :: rest, VList (item :: items)).
Proof.
  intros Htoken Hentries Hitems Hnext. unfold parse_field.
  rewrite decide_True by done. unfold _parse_map.
  rewrite parse_map_loop_entries by done.
  pose proof Hitems as Hall. apply not_elem_of_cons in Hitems as [Hitem Hitems].
  assert (Hfallback : ∀ acc,
    _parse_map_loop (item :: items ++ ";" :: rest) acc
    = Ok (item :: items ++ ";" :: rest, None)).
  { intros acc. simpl. rewrite decide_False by done.
    destruct items as [|next items]; simpl in *.
    - done.
    - rewrite decide_True; [done|]. congruence. }
  rewrite Hfallback, bind_Ok. unfold _parse_list.
  change (item :: items ++ ";" :: rest) with ((item :: items) ++ ";" :: rest).
  rewrite (parse_list_loop_items (item :: items)) by done. done.
Qed.

Lemma parse_state_loop_fields (fields : list (field F)) (acc : state F)
    rest (fuel : nat) :
  Forall field_ok fields →
  length (concat (field_tokens <$> fields) ++ "}" :: rest) < fuel →
  _parse_state_loop fuel (concat (field_tokens <$> fields) ++ "}" :: rest) acc
  = Ok (rest, foldl (λ d p, dict_set d p.1 p.2) acc (field_items fields)).
Proof.
  intros Hfields. revert acc fuel.
  induction Hfields as [|f fields [Hname Hvalue] _ IH]; intros acc fuel Hfuel.
  - by destruct fuel as [|fuel]; [simpl in Hfuel; lia|].
  - destruct fuel as [|fuel]; [simpl in Hfuel; lia|].
    rewrite fmap_cons. simpl concat. unfold field_tokens at 1.
    rewrite <- !app_assoc. simpl app. simpl _parse_state_loop.
    rewrite decide_False by done. rewrite <- app_assoc. simpl app.
    rewrite Hvalue, bind_Ok. simpl popleft. rewrite bind_Ok.
    rewrite IH; [done|].
    rewrite fmap_cons in Hfuel. simpl concat in Hfuel.
    unfold field_tokens at 1 in Hfuel.
    rewrite !length_app in Hfuel. simpl in Hfuel.
    rewrite !length_app in Hfuel. simpl in Hfuel.
    rewrite length_app. simpl. unfold field_tokens. lia.
Qed.

(** X9.  [_parse_state] reads a block field by field: for fields whose
    tokens stand for their values, the block [name x field ... field }]
    is parsed to the state of these fields, in the order of the first
    occurrence of each field name, a repeated field keeping its last
    value, and the deque is left after the closing brace.  The token [x]
    after the name and the token that ends a field are removed without
    being looked at. *)
Theorem parse_state_fields (state_name x : string) (fields : list (field F)) rest :
  Forall field_ok fields →
  _parse_state (state_name :: x :: concat (field_tokens <$> fields) ++ "}" :: rest)
  = Ok (rest, (state_name, dict_of_pairs (field_items fields))).
Proof.
  intros Hfields. rewrite parse_state_cons.
  rewrite parse_state_loop_fields by (done || lia). done.
Qed.

Lemma parse_header_loop_entries (entries : list (string * string * string))
    (acc : dict string string) rest :
  Forall (λ e, e.1.1 ≠ "}") entries →
  _parse_header_loop (header_tokens entries ++ "}" :: rest) acc
  = Ok (rest, foldl (λ d p, dict_set d p.1 p.2) acc (fst <$> entries)).
Proof.
  intros Hentries. revert acc.
  induction Hentries as [|[[k v] s] entries Hk _ IH]; intros acc.
  - done.
  - simpl in Hk. unfold header_tokens. rewrite fmap_cons. simpl concat.
    simpl _parse_header_loop. rewrite decide_False by done. apply IH.
Qed.

(** X10.  [_parse_header] reads entries of three tokens up to the closing
    brace: a key, a value, and a token that is removed without being
    looked at, as are the first two tokens of the block.  It returns the
    dictionary of the entries, a repeated key keeping its last value. *)
Theorem parse_header_entries (x y : string)
    (entries : list (string * string * string)) rest :
  Forall (λ e, e.1.1 ≠ "}") entries →
  _parse_header (x :: y :: header_tokens entries ++ "}" :: rest)
  = Ok (rest, dict_of_pairs (fst <$> entries)).
Proof.
  intros Hentries. rewrite parse_header_cons.
  by apply parse_header_loop_entries.
Qed.
End GrammarCorrect.

(** ** State normalizer: what it keeps, and dangling ties *)

Section NormalizerFrame.
Context {F : Type} `{Numeric F}.
Implicit Types (states store : dict string (state F)) (st : state F).

(** A loop whose rounds leave the state [st] as it is returns [st]. *)
Lemma for_each_fixed {A St} (xs : list A) (body : St → A → result St) (st : St) :
  (∀ x, x ∈ xs → body st x = Ok st) → for_each xs body st = Ok st.
Proof.
  induction xs as [|x xs IH]; intros Hbody; [done|].
  rewrite for_each_cons, Hbody, bind_Ok by (apply elem_of_cons; by left).
  apply IH. intros y Hy. apply Hbody. apply elem_of_cons. by right.
Qed.

(** X11.  States without ties are left as they are: when no state has a
    [tied_trans] or a [tied_letter] field, [_normalize_states] returns
    the states unchanged. *)
Theorem normalize_states_untied states :
  (∀ name st, (name, st) ∈ states →
     dict_get st "tied_trans" = None ∧ dict_get st "tied_letter" = None) →
  _normalize_states states = Ok states.
Proof.
  intros Huntied. apply for_each_fixed. intros name Hname.
  apply dict_get_is_Some in Hname as [st Hst].
  destruct (Huntied name st) as [Htrans Hletter]; [by apply dict_get_Some_elem|].
  unfold normalize_state. rewrite Hst. simpl of_option.
  rewrite bind_Ok, Htrans, bind_Ok, Hst. simpl of_option.
  by rewrite bind_Ok, Hletter.
Qed.

(** What the round for a state does to its fields. *)
Lemma normalize_state_fields store name st mid :
  dict_get store name = Some st →
  normalize_state store name = Ok mid →
  ∃ st', dict_get mid name = Some st'
    ∧ (∀ f, f ≠ "trans" → f ≠ "only" → dict_get st' f = dict_get st f)
    ∧ (dict_get st "tied_trans" = None →
       dict_get st' "trans" = dict_get st "trans")
    ∧ (dict_get st "tied_letter" = None →
       dict_get st' "only" = dict_get st "only").
Proof.
  intros Hst Hrun.
  destruct (normalize_state_inv _ _ _ _ Hst Hrun)
    as (st1 & st2 & Htrans & Hletter & ->).
  exists st2. split; [apply dict_get_set_eq|].
  assert (H1 : ∀ f, f ≠ "trans" → dict_get st1 f = dict_get st f).
  { intros f Hf. destruct (dict_get st "tied_trans").
    - destruct Htrans as (? & ? & ? & ? & ? & ? & _ & _ & _ & _ & _ & _ & ->).
      by apply dict_get_set_ne.
    - by subst st1. }
  assert (H2 : ∀ f, f ≠ "only" → dict_get st2 f = dict_get st1 f).
  { intros f Hf. destruct (dict_get st1 "tied_letter").
    - destruct Hletter as (? & ? & ? & ? & _ & _ & _ & _ & ->).
      by apply dict_get_set_ne.
    - by subst st2. }
  split_and!.
  - intros f Hf1 Hf2. by rewrite H2, H1.
  - intros Hnone. rewrite H2 by done. rewrite Hnone in Htrans. by subst st1.
  - intros Hnone. rewrite <- H1 in Hnone by done. rewrite Hnone in Hletter.
    subst st2. by apply H1.
Qed.

(** X12.  A successful normalization keeps the names of the states and
    their order, and changes no field of a state other than [trans] and
    [only]; the [trans] of a state without [tied_trans] and the [only] of
    a state without [tied_letter] stay as they are. *)
Theorem normalize_states_keeps states states' :
  dict_wf states →
  _normalize_states states = Ok states' →
  keys states' = keys states
  ∧ ∀ name st, dict_get states name = Some st →
      ∃ st', dict_get states' name = Some st'
        ∧ (∀ f, f ≠ "trans" → f ≠ "only" → dict_get st' f = dict_get st f)
        ∧ (dict_get st "tied_trans" = None →
           dict_get st' "trans" = dict_get st "trans")
        ∧ (dict_get st "tied_letter" = None →
           dict_get st' "only" = dict_get st "only").
Proof.
  intros Hwf Hrun. split.
  { by apply normalize_loop_frame in Hrun as [Hkeys _]. }
  intros name st Hst.
  assert (Hname : name ∈ keys states) by (apply dict_get_is_Some; eauto).
  apply list_elem_of_split in Hname as (pre & post & Hkeys).
  destruct (normalize_visit _ _ _ _ _ _ Hwf Hkeys Hst Hrun)
    as (store & mid & _ & Hstore & Hvisit & ->).
  by apply (normalize_state_fields store).
Qed.

(** X13.  A [tied_trans] or [tied_letter] that names a state that does
    not exist makes [_normalize_states] raise. *)
Theorem normalize_states_dangling states name st (parent_name : string) :
  dict_wf states →
  dict_get states name = Some st →
  dict_get st "tied_trans" = Some (VStr parent_name)
  ∨ dict_get st "tied_letter" = Some (VStr parent_name) →
  parent_name ∉ keys states →
  ∃ e, _normalize_states states = Raise e.
Proof.
  intros Hwf Hst Htied Hmissing.
  destruct (_normalize_states states) as [states'|e|] eqn:Hrun; [|by eauto|].
  2:{ by destruct (terminates_normalize_states states). }
  exfalso.
  assert (Hname : name ∈ keys states) by (apply dict_get_is_Some; eauto).
  apply list_elem_of_split in Hname as (pre & post & Hkeys).
  destruct (normalize_visit _ _ _ _ _ _ Hwf Hkeys Hst Hrun)
    as (store & mid & Hpre & Hstore & Hvisit & _).
  apply normalize_loop_frame in Hpre as [Hstorekeys _].
  destruct (normalize_state_inv _ _ _ _ Hstore Hvisit)
    as (st1 & st2 & Htrans & Hletter & _).
  assert (Hnone : dict_get store parent_name = None).
  { apply dict_get_None. by rewrite Hstorekeys. }
  destruct Htied as [Htied|Htied].
  - rewrite Htied in Htrans.
    destruct Htrans as (pn & parent & ? & ? & ? & ? & [= <-] & Hparent & _).
    congruence.
  - assert (H1 : dict_get st1 "tied_letter" = dict_get st "tied_letter").
    { destruct (dict_get st "tied_trans").
      - destruct Htrans as (? & ? & ? & ? & ? & ? & _ & _ & _ & _ & _ & _ & ->).
        by apply dict_get_set_ne.
      - by subst st1. }
    rewrite H1, Htied in Hletter.
    destruct Hletter as (pn & parent & ? & ? & [= <-] & Hparent & _).
    rewrite dict_get_set_ne in Hparent; [congruence|].
    intros ->. apply Hmissing. apply dict_get_is_Some. eauto.
Qed.
End NormalizerFrame.

Section TiedTargets.
Context {F : Type} `{Numeric F}.
Implicit Types (states store : dict string (state F)) (st : state F).

Lemma keys_zip_take {A B} (xs : list A) (ys : list B) :
  keys (zip xs ys) = take (length ys) xs.
Proof.
  revert ys. induction xs as [|x xs IH]; intros [|y ys]; simpl; try done.
  unfold keys in *. simpl. by rewrite IH.
Qed.

Lemma keys_dict_of_pairs_elem {K V} `{EqDecision K} (ps : list (K * V)) (k : K) :
  k ∈ keys (dict_of_pairs ps) → k ∈ keys ps.
Proof.
  intros Hin. apply dict_get_is_Some in Hin as [v Hget].
  unfold dict_of_pairs in Hget.
  apply foldl_dict_set_get in Hget as [Hin|Hget]; [|done].
  unfold keys. apply list_elem_of_fmap. by exists (k, v).
Qed.

(** The [trans] of a tied state after a successful normalization. *)
Lemma tied_trans_result states states' (pre post : list string)
    (name parent_name : string) st :
  dict_wf states →
  keys states = pre ++ name :: post →
  dict_get states name = Some st →
  dict_get st "tied_trans" = Some (VStr parent_name) →
  _normalize_states states = Ok states' →
  ∃ store parent probs_map own targets st',
    for_each pre normalize_state states = Ok store
    ∧ dict_get store parent_name = Some parent
    ∧ dict_get parent "trans" = Some (VMap probs_map)
    ∧ dict_get st "trans" = Some own ∧ iter_value own = Ok targets
    ∧ dict_get states' name = Some st'
    ∧ dict_get st' "trans"
      = Some (VMap (dict_of_pairs (zip targets (values probs_map)))).
Proof.
  intros Hwf Hkeys Hst Htied Hrun.
  destruct (normalize_visit _ _ _ _ _ _ Hwf Hkeys Hst Hrun)
    as (store & mid & Hstore & Hname & Hvisit & Hfinal).
  destruct (normalize_state_inv _ _ _ _ Hname Hvisit)
    as (st1 & st2 & Htrans & Hletter & ->).
  rewrite Htied in Htrans.
  destruct Htrans as (pn & parent & own & ptrans & probs & targets
                      & [= <-] & Hparent & Hown & Hptrans & Hprobs & Htargets & ->).
  destruct ptrans as [| | |probs_map]; try done. injection Hprobs as <-.
  rewrite dict_get_set_eq in Hfinal.
  exists store, parent, probs_map, own, targets, st2.
  split_and!; [done..|].
  destruct (dict_get (dict_set st "trans" _) "tied_letter") as [tied|].
  - destruct Hletter as (? & ? & ? & ? & _ & _ & _ & _ & ->).
    rewrite dict_get_set_ne by done. apply dict_get_set_eq.
  - subst st2. apply dict_get_set_eq.
Qed.

(** X14.  [zip] stops at the end of the shorter argument: after a
    successful normalization the targets of a tied state are among the
    first [n] targets it declares, [n] being the number of transitions of
    the parent when the state is visited; distinct targets are exactly
    these first [n], so the targets beyond the parent's transitions are
    dropped. *)
Theorem tied_trans_truncates states states' (pre post : list string)
    (name parent_name : string) st :
  dict_wf states →
  keys states = pre ++ name :: post →
  dict_get states name = Some st →
  dict_get st "tied_trans" = Some (VStr parent_name) →
  _normalize_states states = Ok states' →
  ∃ store parent probs_map own targets st' trans',
    for_each pre normalize_state states = Ok store
    ∧ dict_get store parent_name = Some parent
    ∧ dict_get parent "trans" = Some (VMap probs_map)
    ∧ dict_get st "trans" = Some own ∧ iter_value own = Ok targets
    ∧ dict_get states' name = Some st'
    ∧ dict_get st' "trans" = Some (VMap trans')
    ∧ (∀ target, target ∈ keys trans' →
         target ∈ take (length probs_map) targets)
    ∧ (NoDup targets → keys trans' = take (length probs_map) targets).
Proof.
  intros Hwf Hkeys Hst Htied Hrun.
  destruct (tied_trans_result _ _ _ _ _ _ _ Hwf Hkeys Hst Htied Hrun)
    as (store & parent & probs_map & own & targets & st'
        & Hstore & Hparent & Hprobs & Hown & Htargets & Hst' & Htrans).
  exists store, parent, probs_map, own, targets, st',
    (dict_of_pairs (zip targets (values probs_map))).
  assert (Hlen : length (values probs_map) = length probs_map)
    by (unfold values; apply length_fmap).
  split_and!; [done..| |].
  - intros target Hin. apply keys_dict_of_pairs_elem in Hin.
    by rewrite keys_zip_take, Hlen in Hin.
  - intros Hnd. rewrite dict_of_pairs_fresh by by apply NoDup_keys_zip.
    by rewrite keys_zip_take, Hlen.
Qed.
End TiedTargets.

(** ** Matrix builder: what a returned model guarantees *)

Section BuilderRequires.
Context {F : Type} `{Numeric F}.

(** A loop that returns has kept every invariant of its rounds. *)
Lemma for_each_Ok_inv {A St} (I : nat → St → Prop) (body : St → A → result St)
    (xs : list A) (st st' : St) :
  for_each xs body st = Ok st' →
  I 0 st →
  (∀ i x s s', xs !! i = Some x → I i s → body s x = Ok s' → I (S i) s') →
  I (length xs) st'.
Proof.
  revert I st. induction xs as [|x xs IH]; intros I st Hrun H0 Hstep.
  - by injection Hrun as <-.
  - rewrite for_each_cons in Hrun.
    apply bind_Ok_inv in Hrun as (s1 & Hx & Hrun).
    apply (IH (λ i, I (S i)) s1); [done|by apply (Hstep 0 x st)|].
    intros i y s s' Hy. by apply (Hstep (S i)).
Qed.

Lemma arr_set_length {A} (a a' : list A) (i : nat) (x : A) :
  arr_set a i x = Ok a' → length a' = length a.
Proof.
  unfold arr_set. case_decide; [|done]. intros [= <-]. apply length_insert.
Qed.

Lemma mat_set_shape {A} (m m' : list (list A)) (rows cols i j : nat) (x : A) :
  mat_set m i j x = Ok m' → mat_shape m rows cols → mat_shape m' rows cols.
Proof.
  unfold mat_set. intros Hrun [Hlen Hrows].
  apply bind_Ok_inv in Hrun as (row & Hrow & Hrun).
  apply bind_Ok_inv in Hrun as (row' & Hrow' & Hrun).
  apply of_option_Ok in Hrow.
  pose proof (arr_set_length _ _ _ _ Hrow') as Hlen'.
  unfold arr_set in Hrun. case_decide; [|done]. injection Hrun as <-.
  split; [by rewrite length_insert|].
  apply Forall_insert; [done|]. rewrite Hlen'.
  by eapply (Forall_lookup_1 _ _ _ _ Hrows).
Qed.

(** A loop that stores the numbers of a map through an index map and
    returns has found an index and a number for every item. *)
Lemma store_loop_inv {St} (idx : dict string nat)
    (set : St → nat → F → result St) (items : dict string (pval F))
    (st0 st' : St) :
  for_each items (λ st '(k, p),
    i ← of_option KeyError (dict_get idx k);
    x ← as_float p;
    set st i x) st0 = Ok st' →
  (∀ k p, (k, p) ∈ items →
     ∃ i x, dict_get idx k = Some i ∧ as_float p = Ok x)
  ∧ ∀ Q : St → Prop,
      (∀ st i x st1, Q st → set st i x = Ok st1 → Q st1) → Q st0 → Q st'.
Proof.
  revert st0. induction items as [|[k p] items IH]; intros st0 Hrun.
  - injection Hrun as <-. split; [|done].
    intros k p Hin. by apply elem_of_nil in Hin.
  - rewrite for_each_cons in Hrun. cbn beta iota in Hrun.
    apply bind_Ok_inv in Hrun as (st1 & Hstep & Hrun).
    apply bind_Ok_inv in Hstep as (i & Hi & Hstep).
    apply bind_Ok_inv in Hstep as (x & Hx & Hset).
    apply of_option_Ok in Hi.
    destruct (IH st1 Hrun) as [Hitems Hkeep]. split.
    + intros k' p' Hin. apply elem_of_cons in Hin as [[= -> ->]|Hin]; eauto.
    + intros Q HQ HQ0. apply Hkeep; [done|]. by eapply HQ.
Qed.

Lemma fill_state_inv (sm cm : dict string nat)
    (T E T' E' : list (list F)) (L L' : dict nat (value F))
    (name : string) (st : state F) :
  fill_state sm cm (T, E, L) (name, st) = Ok (T', E', L') →
  ∃ idx trans only,
    dict_get sm name = Some idx
    ∧ L' = match dict_get st "label" with
           | Some l => dict_set L idx l
           | None => L
           end
    ∧ dict_get st "trans" = Some (VMap trans)
    ∧ dict_get st "only" = Some (VMap only)
    ∧ for_each trans (λ T '(k, p),
        j ← of_option KeyError (dict_get sm k);
        x ← as_float p;
        mat_set T idx j x) T = Ok T'
    ∧ for_each only (λ E '(k, p),
        c ← of_option KeyError (dict_get cm k);
        x ← as_float p;
        mat_set E idx c x) E = Ok E'.
Proof.
  unfold fill_state. intros Hrun.
  apply bind_Ok_inv in Hrun as (idx & Hidx & Hrun).
  apply bind_Ok_inv in Hrun as (vt & Hvt & Hrun).
  apply bind_Ok_inv in Hrun as (trans & Htrans & Hrun).
  apply bind_Ok_inv in Hrun as (T1 & HT & Hrun).
  apply bind_Ok_inv in Hrun as (vo & Hvo & Hrun).
  apply bind_Ok_inv in Hrun as (only & Honly & Hrun).
  apply bind_Ok_inv in Hrun as (E1 & HE & Hrun).
  injection Hrun as <- <- <-.
  apply of_option_Ok in Hidx, Hvt, Hvo.
  destruct vt as [| | |trans']; try done. injection Htrans as ->.
  destruct vo as [| | |only']; try done. injection Honly as ->.
  by exists idx, trans, only.
Qed.

Lemma to_matrix_form_inv (alphabet : string) (states : dict string (state F))
    (mf : matrix_form F) :
  _to_matrix_form alphabet states = Ok mf →
  let real := dict_del states "begin" in
  ∃ begin begin_trans,
    dict_get states "begin" = Some begin
    ∧ dict_get begin "trans" = Some (VMap begin_trans)
    ∧ for_each begin_trans (λ initial '(k, p),
        i ← of_option KeyError (dict_get (index_map (keys real)) k);
        x ← as_float p;
        arr_set initial i x) (replicate (length real) fzero)
      = Ok (initial mf)
    ∧ for_each real
        (fill_state (index_map (keys real)) (index_map (str_iter alphabet)))
        (replicate (length real) (replicate (length real) fzero),
         replicate (length real) (replicate (String.length alphabet) fzero),
         [])
      = Ok (transitions mf, emissions mf, label_map mf)
    ∧ char_map mf = index_map (str_iter alphabet)
    ∧ name_map mf = dict_of_pairs (enumerate (keys real)).
Proof.
  intros Hrun real. unfold _to_matrix_form in Hrun.
  apply bind_Ok_inv in Hrun as (begin & Hbegin & Hrun).
  apply bind_Ok_inv in Hrun as (vb & Hvb & Hrun).
  apply bind_Ok_inv in Hrun as (begin_trans & Hbt & Hrun).
  apply bind_Ok_inv in Hrun as (init & Hinit & Hrun).
  apply bind_Ok_inv in Hrun as ([[T E] L] & Hfill & Hrun).
  injection Hrun as <-. apply of_option_Ok in Hbegin, Hvb.
  destruct vb as [| | |bt]; try done. injection Hbt as ->.
  by exists begin, begin_trans.
Qed.

(** The numbers and the names that [_to_matrix_form] needs of a map. *)
Lemma store_loop_resolved {St} (known : list string)
    (set : St → nat → F → result St) (items : dict string (pval F))
    (st0 st' : St) :
  for_each items (λ st '(k, p),
    i ← of_option KeyError (dict_get (index_map known) k);
    x ← as_float p;
    set st i x) st0 = Ok st' →
  ∀ k p, (k, p) ∈ items → k ∈ known ∧ ∃ x, as_float p = Ok x.
Proof.
  intros Hrun k p Hin. apply store_loop_inv in Hrun as [Hitems _].
  destruct (Hitems k p Hin) as (i & x & Hi & Hx). split; [|by eauto].
  apply index_map_Some in Hi. by eapply list_elem_of_lookup_2.
Qed.

(** X15.  What [_to_matrix_form] needs in order to return: a [begin]
    state with a [trans] map and, for every other state, a [trans] map
    and an [only] map; every key of a [trans] map names a state other
    than [begin] ([begin] is not among them when no name occurs twice),
    every key of an [only] map is a character of the alphabet, and every
    value is a number. *)
Theorem to_matrix_form_requires (alphabet : string)
    (states : dict string (state F)) (mf : matrix_form F) :
  _to_matrix_form alphabet states = Ok mf →
  let real := dict_del states "begin" in
  (∃ begin begin_trans,
     dict_get states "begin" = Some begin
     ∧ dict_get begin "trans" = Some (VMap begin_trans)
     ∧ ∀ k p, (k, p) ∈ begin_trans → k ∈ keys real ∧ ∃ x, as_float p = Ok x)
  ∧ (∀ name st, (name, st) ∈ real →
      ∃ trans only,
        dict_get st "trans" = Some (VMap trans)
        ∧ dict_get st "only" = Some (VMap only)
        ∧ (∀ k p, (k, p) ∈ trans → k ∈ keys real ∧ ∃ x, as_float p = Ok x)
        ∧ (∀ k p, (k, p) ∈ only →
             k ∈ str_iter alphabet ∧ ∃ x, as_float p = Ok x))
  ∧ (dict_wf states → "begin" ∉ keys real).
Proof.
  intros Hrun real.
  destruct (to_matrix_form_inv _ _ _ Hrun)
    as (begin & bt & Hbegin & Hbt & Hinit & Hfill & _).
  fold real in Hinit, Hfill. split_and!; [| |by apply dict_del_wf].
  { exists begin, bt. split_and!; [done..|].
    by apply (store_loop_resolved _ _ _ _ _ Hinit). }
  pose proof (for_each_Ok_inv
    (λ i _, ∀ j name st, j < i → real !! j = Some (name, st) →
       ∃ trans only,
         dict_get st "trans" = Some (VMap trans)
         ∧ dict_get st "only" = Some (VMap only)
         ∧ (∀ k p, (k, p) ∈ trans → k ∈ keys real ∧ ∃ x, as_float p = Ok x)
         ∧ (∀ k p, (k, p) ∈ only →
              k ∈ str_iter alphabet ∧ ∃ x, as_float p = Ok x))
    _ _ _ _ Hfill) as Hall.
  cbv beta in Hall.
  intros name st Hin. apply list_elem_of_lookup in Hin as [j Hj].
  apply Hall with (j := j) (name := name);
    [intros; lia| |by eapply lookup_lt_Some|done].
  intros i [name' st'] [[T E] L] [[T' E'] L'] Hi IH Hstep j' name'' st'' Hj' Hlook.
  destruct (decide (j' = i)) as [->|Hne]; [|apply (IH j' name''); [lia|done]].
  rewrite Hi in Hlook. injection Hlook as <- <-.
  apply fill_state_inv in Hstep
    as (idx & trans & only & _ & _ & Htrans & Honly & HT & HE).
  exists trans, only. split_and!; [done..| |].
  - by apply (store_loop_resolved _ _ _ _ _ HT).
  - by apply (store_loop_resolved _ _ _ _ _ HE).
Qed.

(** The sizes of the arrays of a returned model. *)
Lemma to_matrix_form_sizes (alphabet : string) (states : dict string (state F))
    (mf : matrix_form F) :
  _to_matrix_form alphabet states = Ok mf →
  length (initial mf) = length (dict_del states "begin")
  ∧ model_shape mf (String.length alphabet)
  ∧ char_map mf = index_map (str_iter alphabet).
Proof.
  intros Hrun.
  destruct (to_matrix_form_inv _ _ _ Hrun)
    as (begin & bt & _ & _ & Hinit & Hfill & Hcm & _).
  set (real := dict_del states "begin") in *.
  assert (Hlen : length (initial mf) = length real).
  { apply store_loop_inv in Hinit as [_ Hkeep].
    apply (Hkeep (λ a, length a = length real)); [|apply length_replicate].
    intros a i x a' Ha Hset. by rewrite (arr_set_length _ _ _ _ Hset). }
  pose proof (for_each_Ok_inv
    (λ _ '(T, E, _), mat_shape T (length real) (length real)
                     ∧ mat_shape E (length real) (String.length alphabet))
    _ _ _ _ Hfill) as Hshape.
  cbv beta iota in Hshape.
  destruct Hshape as [HT HE].
  { split; apply mat_shape_replicate. }
  { intros i [name st] [[T E] L] [[T' E'] L'] _ [HT HE] Hstep.
    apply fill_state_inv in Hstep
      as (idx & trans & only & _ & _ & _ & _ & HrunT & HrunE).
    apply store_loop_inv in HrunT as [_ HkeepT].
    apply store_loop_inv in HrunE as [_ HkeepE]. split.
    - apply HkeepT; [|done]. intros m j x m' Hm Hset.
      by apply (mat_set_shape _ _ _ _ _ _ _ Hset).
    - apply HkeepE; [|done]. intros m j x m' Hm Hset.
      by apply (mat_set_shape _ _ _ _ _ _ _ Hset). }
  split_and!; [done| |done].
  unfold model_shape. rewrite Hlen, Hcm. split_and!; [done..|].
  intros symbol c Hc. apply index_map_lt in Hc.
  by rewrite length_str_iter in Hc.
Qed.

Lemma over_alphabet_index_map (sequence alphabet : string) (mf : matrix_form F) :
  char_map mf = index_map (str_iter alphabet) →
  over_alphabet sequence mf
  ↔ ∀ symbol, symbol ∈ str_iter sequence → symbol ∈ str_iter alphabet.
Proof.
  intros Hcm. unfold over_alphabet. rewrite Hcm. split.
  - intros Hover symbol Hin. destruct (Hover symbol Hin) as [c Hc].
    apply index_map_Some in Hc. by eapply list_elem_of_lookup_2.
  - intros Hover symbol Hin. by apply index_map_is_Some, Hover.
Qed.

(** X16.  The arrays that [_to_matrix_form] returns have the sizes the
    decoder relies on: one entry of [initial] and one row of
    [transitions] and of [emissions] per state other than [begin], one
    column of [transitions] per such state, one column of [emissions] per
    character of the alphabet, and every index of [char_map] is a column
    of [emissions]; the sequences whose symbols are all keys of
    [char_map] are the sequences over the alphabet. *)
Theorem to_matrix_form_shape (alphabet : string)
    (states : dict string (state F)) (mf : matrix_form F) :
  _to_matrix_form alphabet states = Ok mf →
  length (initial mf) = length (dict_del states "begin")
  ∧ model_shape mf (String.length alphabet)
  ∧ ∀ sequence,
      over_alphabet sequence mf
      ↔ ∀ symbol, symbol ∈ str_iter sequence → symbol ∈ str_iter alphabet.
Proof.
  intros Hrun.
  destruct (to_matrix_form_sizes _ _ _ Hrun) as (Hlen & Hshape & Hcm).
  split_and!; [done..|]. intros sequence. by apply over_alphabet_index_map.
Qed.

(** X17.  [label_map] holds, at the index of every state other than
    [begin], the [label] of that state, and no entry for a state without
    a [label] or for an index that is not the index of a state. *)
Theorem to_matrix_form_labels (alphabet : string)
    (states : dict string (state F)) (mf : matrix_form F) :
  dict_wf states →
  _to_matrix_form alphabet states = Ok mf →
  ∀ i, dict_get (label_map mf) i
       = (dict_del states "begin" !! i) ≫= (λ ns, dict_get ns.2 "label").
Proof.
  intros Hwf Hrun.
  destruct (to_matrix_form_inv _ _ _ Hrun)
    as (begin & bt & _ & _ & _ & Hfill & _).
  destruct (dict_del_wf states "begin" Hwf) as [Hreal _].
  set (real := dict_del states "begin") in *.
  pose proof (for_each_Ok_inv
    (λ i '(_, _, L), ∀ j,
       dict_get L j
       = if decide (j < i)
         then (real !! j) ≫= (λ ns, dict_get ns.2 "label")
         else None)
    _ _ _ _ Hfill) as Hlabels.
  cbv beta iota in Hlabels.
  intros i. rewrite Hlabels.
  - case_decide as Hi; [done|].
    by rewrite lookup_ge_None_2 by lia.
  - intros j. case_decide; [lia|done].
  - clear i. intros i [name st] [[T E] L] [[T' E'] L'] Hi IH Hstep j.
    apply fill_state_inv in Hstep as (idx & trans & only & Hidx & -> & _).
    assert (Hname : keys real !! i = Some name).
    { unfold keys. by rewrite list_lookup_fmap, Hi. }
    rewrite (index_map_lookup _ _ _ Hreal Hname) in Hidx.
    injection Hidx as <-.
    destruct (decide (j = i)) as [->|Hne].
    + rewrite decide_True by lia. rewrite Hi. simpl.
      destruct (dict_get st "label") as [l|].
      * apply dict_get_set_eq.
      * rewrite IH. by rewrite decide_False by lia.
    + assert (Hj : dict_get
                (match dict_get st "label" with
                 | Some l => dict_set L i l
                 | None => L
                 end) j = dict_get L j).
      { destruct (dict_get st "label"); [by apply dict_get_set_ne|done]. }
      rewrite Hj, IH. repeat case_decide; (done || lia).
Qed.
End BuilderRequires.

Section LastOccurrence.
Context {K V : Type} `{EqDecision K}.

(** [dict(pairs)] gives a key the value of its last pair. *)
Lemma foldl_dict_set_last (d : dict K V) (ps : list (K * V)) (k : K) (v : V) :
  dict_get (foldl (λ d p, dict_set d p.1 p.2) d ps) k = Some v
  ↔ (∃ i, ps !! i = Some (k, v) ∧ ∀ j v', i < j → ps !! j ≠ Some (k, v'))
    ∨ ((k ∉ keys ps) ∧ dict_get d k = Some v).
Proof.
  revert d. induction ps as [|[k0 v0] ps IH]; intros d.
  - simpl. split.
    + intros Hget. right. split; [apply not_elem_of_nil|done].
    + intros [(i & Hi & _)|[_ Hget]]; done.
  - simpl foldl. rewrite IH. clear IH. split.
    + intros [(i & Hi & Hlast)|[Hk Hget]].
      * left. exists (S i). split; [done|].
        intros [|j] v' Hj; [lia|]. apply Hlast. lia.
      * rewrite dict_get_set in Hget. case_decide as Heq.
        -- injection Hget as ->. subst k0. left. exists 0. split; [done|].
           intros [|j] v' Hj Hlook; [lia|]. simpl in Hlook.
           apply Hk. unfold keys. apply list_elem_of_fmap.
           exists (k, v'). split; [done|]. by eapply list_elem_of_lookup_2.
        -- right. split; [|done]. unfold keys. rewrite fmap_cons.
           apply not_elem_of_cons. by split.
    + intros [([|i] & Hi & Hlast)|[Hk Hget]].
      * injection Hi as -> ->. right. split; [|apply dict_get_set_eq].
        intros Hin. unfold keys in Hin.
        apply list_elem_of_fmap in Hin as ([k' v'] & -> & Hin).
        apply list_elem_of_lookup in Hin as [j Hj].
        by apply (Hlast (S j) v'); [lia|].
      * left. exists i. split; [done|]. intros j v' Hj.
        apply (Hlast (S j) v'). lia.
      * unfold keys in Hk. rewrite fmap_cons in Hk.
        apply not_elem_of_cons in Hk as [Hne Hk]. right. split; [done|].
        by rewrite dict_get_set_ne.
Qed.
End LastOccurrence.

Lemma lookup_enumerate_from {A} (xs : list A) (b i : nat) :
  enumerate_from b xs !! i = (λ x, (b + i, x)) <$> xs !! i.
Proof.
  revert b i. induction xs as [|x xs IH]; intros b [|i]; simpl; [done..| |].
  - by rewrite Nat.add_0_r.
  - rewrite IH. by replace (S b + i) with (b + S i) by lia.
Qed.

(** [{v: k for k, v in enumerate(xs)}] maps an element to the index of
    its last occurrence. *)
Lemma index_map_last (xs : list string) (x : string) (i : nat) :
  dict_get (index_map xs) x = Some i
  ↔ xs !! i = Some x ∧ ∀ j, i < j → xs !! j ≠ Some x.
Proof.
  unfold index_map, dict_of_pairs. rewrite foldl_dict_set_last.
  assert (Hlook : ∀ j y c,
    ((λ kv : nat * string, (kv.2, kv.1)) <$> enumerate xs) !! j = Some (y, c)
    ↔ xs !! j = Some y ∧ c = j).
  { intros j y c. rewrite list_lookup_fmap. unfold enumerate.
    rewrite lookup_enumerate_from. destruct (xs !! j) as [z|]; simpl.
    - split; [by intros [= -> ->]|by intros [[= ->] ->]].
    - split; [done|by intros [? _]]. }
  split.
  - intros [(j & Hj & Hlast)|[_ Hget]]; [|done].
    apply Hlook in Hj as [Hj ->]. split; [done|].
    intros j' Hj' Hx. apply (Hlast j' j'); [done|]. by apply Hlook.
  - intros [Hi Hlast]. left. exists i. split; [by apply Hlook|].
    intros j c Hj Hx. apply Hlook in Hx as [Hx _]. by apply (Hlast j).
Qed.

Section BuilderMaps.
Context {F : Type} `{Numeric F}.

(** X18.  [char_map] sends a character to the index of its last
    occurrence in the alphabet: a character that occurs twice keeps the
    later index only, and a character that does not occur is no key. *)
Theorem to_matrix_form_char_map (alphabet : string)
    (states : dict string (state F)) (mf : matrix_form F)
    (symbol : string) (c : nat) :
  _to_matrix_form alphabet states = Ok mf →
  dict_get (char_map mf) symbol = Some c
  ↔ str_iter alphabet !! c = Some symbol
    ∧ ∀ c', c < c' → str_iter alphabet !! c' ≠ Some symbol.
Proof.
  intros Hrun. destruct (to_matrix_form_sizes _ _ _ Hrun) as (_ & _ & ->).
  apply index_map_last.
Qed.
End BuilderMaps.

Section SharedRows.
Context {F : Type} `{Numeric F}.

(** The rows of the arrays of normalized states hold what the states
    declare. *)
Lemma to_matrix_form_rows (alphabet : string) (states : dict string (state F)) :
  normalized alphabet states →
  let real := dict_del states "begin" in
  ∃ mf,
    _to_matrix_form alphabet states = Ok mf
    ∧ mat_shape (transitions mf) (length real) (length real)
    ∧ mat_shape (emissions mf) (length real) (String.length alphabet)
    ∧ ∀ r name st, real !! r = Some (name, st) →
        row_declared alphabet real (transitions mf) (emissions mf) r st.
Proof.
  intros (Hwf & (begin & btrans & Hbegin & Hbtrans & [Hbwf Hbres]) & Hstates) real.
  destruct (dict_del_wf states "begin" Hwf) as [Hreal Hnobegin].
  fold real in Hreal, Hnobegin, Hbres, Hstates.
  destruct (fill_loop (index_map (keys real)) (length real)
              arr_set (λ a i, nth i a fzero) (λ a, length a = length real)
              btrans (replicate (length real) fzero))
    as (init & Hinit & Hlen & Hspec).
  { intros a i x Ha Hi. by apply arr_set_spec. }
  { apply length_replicate. }
  { intros k p Hin. destruct (Hbres k p Hin) as [Hk [x Hx]].
    destruct (index_map_is_Some _ _ Hk) as [j Hj]. exists j, x.
    split_and!; [done| |done].
    apply index_map_lt in Hj. unfold keys in Hj. by rewrite length_fmap in Hj. }
  destruct (for_each_list_inv (rows_inv alphabet real)
              (fill_state (index_map (keys real)) (index_map (str_iter alphabet)))
              real
              (replicate (length real) (replicate (length real) fzero),
               replicate (length real) (replicate (String.length alphabet) fzero),
               []))
    as ([[T E] L] & Hrun & HT & HE & _ & Hrows).
  { split_and!; [apply mat_shape_replicate..| |intros; lia].
    intros r c _. by rewrite !mat_at_replicate. }
  { intros i [name st] arrays Hi Hinv. by apply fill_state_spec. }
  exists (MatrixForm init T E (index_map (str_iter alphabet)) L
            (dict_of_pairs (enumerate (keys real)))).
  split_and!; [|done..|].
  - unfold _to_matrix_form. rewrite Hbegin. simpl of_option. rewrite bind_Ok.
    fold real. rewrite Hbtrans. simpl of_option. rewrite bind_Ok.
    simpl map_items. rewrite bind_Ok, Hinit, bind_Ok, Hrun. done.
  - intros r name st Hr. simpl. apply (Hrows r name st); [|done].
    by eapply lookup_lt_Some.
Qed.

Lemma declared_functional (d : dict string (pval F)) (k : string) (x y : F) :
  declared d k x → declared d k y → x = y.
Proof.
  unfold declared. destruct (dict_get d k); [|congruence].
  intros Hx Hy. rewrite Hx in Hy. by injection Hy.
Qed.

Lemma mat_row_ext (m : list (list F)) (rows cols i i' : nat) :
  mat_shape m rows cols → i < rows → i' < rows →
  (∀ c, c < cols → mat_at fzero m i c = mat_at fzero m i' c) →
  m !! i = m !! i'.
Proof.
  intros Hshape Hi Hi' Hext.
  pose proof (mat_row_length m rows cols i Hshape Hi) as Hlen.
  pose proof (mat_row_length m rows cols i' Hshape Hi') as Hlen'.
  destruct Hshape as [Hrows _].
  destruct (lookup_lt_is_Some_2 m i) as [row Hrow]; [lia|].
  destruct (lookup_lt_is_Some_2 m i') as [row' Hrow']; [lia|].
  rewrite nth_lookup, Hrow in Hlen. rewrite nth_lookup, Hrow' in Hlen'.
  simpl in Hlen, Hlen'. rewrite Hrow, Hrow'. f_equal.
  apply list_eq. intros c. destruct (decide (c < cols)) as [Hc|Hc].
  - specialize (Hext c Hc). unfold mat_at in Hext.
    rewrite !(nth_lookup m), Hrow, Hrow' in Hext. simpl in Hext.
    rewrite !nth_lookup in Hext.
    destruct (lookup_lt_is_Some_2 row c) as [x Hx]; [lia|].
    destruct (lookup_lt_is_Some_2 row' c) as [x' Hx']; [lia|].
    rewrite Hx, Hx' in *. simpl in Hext. by subst.
  - rewrite !lookup_ge_None_2 by lia. done.
Qed.

(** X19.  States that declare the same map get the same row: for
    normalized states, two states with equal [trans] have equal rows of
    [transitions], and two states with equal [only] (a state with
    [tied_letter] and its parent, after normalization) have equal rows of
    [emissions]. *)
Theorem to_matrix_form_shared_rows (alphabet : string)
    (states : dict string (state F)) :
  normalized alphabet states →
  let real := dict_del states "begin" in
  ∃ mf,
    _to_matrix_form alphabet states = Ok mf
    ∧ ∀ i i' name name' st st',
        real !! i = Some (name, st) → real !! i' = Some (name', st') →
        (dict_get st "trans" = dict_get st' "trans" →
         transitions mf !! i = transitions mf !! i')
        ∧ (dict_get st "only" = dict_get st' "only" →
           emissions mf !! i = emissions mf !! i').
Proof.
  intros Hnorm real.
  destruct (to_matrix_form_rows alphabet states Hnorm)
    as (mf & Hrun & HT & HE & Hrows).
  fold real in HT, HE, Hrows. exists mf. split; [done|].
  intros i i' name name' st st' Hi Hi'.
  pose proof (lookup_lt_Some _ _ _ Hi) as Hlt.
  pose proof (lookup_lt_Some _ _ _ Hi') as Hlt'.
  destruct (Hrows i name st Hi) as [HrowT HrowE].
  destruct (Hrows i' name' st' Hi') as [HrowT' HrowE'].
  destruct Hnorm as (_ & _ & Hstates). fold real in Hstates.
  destruct (Hstates name st) as (tr & on & Htr & Hon & _);
    [by eapply list_elem_of_lookup_2|].
  split.
  - intros Hsame. apply (mat_row_ext _ (length real) (length real)); [done..|].
    intros c Hc.
    assert (∃ target, keys real !! c = Some target) as [target Htarget].
    { apply lookup_lt_is_Some_2. unfold keys. by rewrite length_fmap. }
    apply (declared_functional tr target); [by eapply HrowT|].
    eapply HrowT'; [|done]. by rewrite <- Hsame.
  - intros Hsame.
    apply (mat_row_ext _ (length real) (String.length alphabet)); [done..|].
    intros c Hc.
    destruct (HrowE on c Hon Hc) as [Hsome Hnone].
    destruct (HrowE' on c) as [Hsome' Hnone']; [by rewrite <- Hsame|done|].
    assert (∃ ch, str_iter alphabet !! c = Some ch) as [ch Hch].
    { apply lookup_lt_is_Some_2. by rewrite length_str_iter. }
    destruct (decide (dict_get (index_map (str_iter alphabet)) ch = Some c))
      as [Hidx|Hidx].
    + apply (declared_functional on ch); eauto.
    + assert (Hno : ∀ ch', dict_get (index_map (str_iter alphabet)) ch' ≠ Some c).
      { intros ch' Hch'. pose proof (index_map_Some _ _ _ Hch') as Hlook.
        congruence. }
      by rewrite Hnone, Hnone'.
Qed.
End SharedRows.

(** ** Viterbi decoder: totality *)

Section DecoderTotal.
Context {F : Type} `{Numeric F}.
Variables (sequence : string) (mf : matrix_form F) (no_symbols : nat).
Hypothesis Hshape : model_shape mf no_symbols.
Hypothesis Halpha : over_alphabet sequence mf.
Hypothesis Hstates : 0 < length (initial mf).

Local Abbreviation n := (length (initial mf)).
Local Abbreviation T := (String.length sequence).

Lemma best_predecessor_index (M : list (list F)) (i j : nat) :
  mat_shape M T n → 1 ≤ i < T → j < n →
  ∃ k v, best_predecessor M (log_mat (transitions mf)) n i j = Ok (k, v)
    ∧ k < n.
Proof.
  intros HM Hi Hj. unfold best_predecessor.
  destruct (for_each_range_inv (λ _ (best : nat * F), best.1 < n)
              (scan_step M (log_mat (transitions mf)) i j) 0 n (0, fneg_inf))
    as ([k v] & Hrun & Hk); [lia|done| |by eauto].
  intros k [ms mp] Hk Hms. unfold scan_step.
  rewrite (mat_get_ok fzero M T n) by (done || lia). rewrite bind_Ok.
  rewrite (mat_get_ok fzero _ n n)
    by (try apply mat_shape_log; try apply Hshape; lia).
  rewrite bind_Ok. simpl in Hms.
  destruct (fgt _ mp); eexists; (split; [done|]); simpl; lia.
Qed.

Lemma fill_cell_shape (MP : list (list F) * list (list nat)) (i j : nat) :
  1 ≤ i < T → j < n →
  tables_shape sequence mf MP →
  ∃ MP', fill_cell sequence (log_mat (transitions mf)) (log_mat (emissions mf))
           (char_map mf) n i MP j = Ok MP'
    ∧ tables_shape sequence mf MP'.
Proof.
  intros Hi Hj. destruct MP as [M P]. intros (HM & HP & HPlt). simpl in *.
  destruct (best_predecessor_index M i j) as (k & v & Hbest & Hk); [done..|].
  destruct (symbol_ok sequence mf no_symbols Hshape Halpha i)
    as (symbol & Hsym & Hc & Hobs); [lia|].
  unfold fill_cell. rewrite Hbest, bind_Ok, Hsym, bind_Ok, Hc, bind_Ok.
  rewrite (mat_get_ok fzero _ n no_symbols)
    by (try apply mat_shape_log; try apply Hshape; lia).
  rewrite bind_Ok.
  rewrite (mat_set_ok M T n), bind_Ok by (done || lia).
  rewrite (mat_set_ok P T n), bind_Ok by (done || lia).
  eexists; split; [done|]. unfold tables_shape. simpl.
  split_and!; [by apply mat_upd_shape..|].
  intros t s. destruct (decide (t = i ∧ s = j)) as [[-> ->]|Hne].
  - by rewrite (mat_upd_eq 0 P T n) by (done || lia).
  - rewrite mat_upd_ne; [apply HPlt|].
    destruct (decide (t = i)) as [->|]; [right; intros ->; by apply Hne|by left].
Qed.

Lemma fill_row_shape (MP : list (list F) * list (list nat)) (i : nat) :
  1 ≤ i < T →
  tables_shape sequence mf MP →
  ∃ MP', fill_row sequence (log_mat (transitions mf)) (log_mat (emissions mf))
           (char_map mf) n MP i = Ok MP'
    ∧ tables_shape sequence mf MP'.
Proof.
  intros Hi HMP. unfold fill_row.
  apply (for_each_range_inv (λ _, tables_shape sequence mf)); [lia|done|].
  intros j st Hj Hst. apply fill_cell_shape; [done|lia|done].
Qed.

Lemma fill_base_shape :
  0 < T →
  ∃ M, for_each (range 0 n)
         (fill_base sequence (log_vec (initial mf)) (log_mat (emissions mf))
            (char_map mf))
         (replicate T (replicate n fzero)) = Ok M
    ∧ mat_shape M T n.
Proof.
  intros HT.
  apply (for_each_range_inv (λ _ M, mat_shape M T n));
    [lia|apply mat_shape_replicate|].
  intros i M Hi HM.
  destruct (symbol_ok sequence mf no_symbols Hshape Halpha 0)
    as (symbol & Hsym & Hc & Hobs); [lia|].
  unfold fill_base.
  rewrite (arr_get_ok fzero) by (rewrite length_log_vec; lia).
  rewrite bind_Ok, Hsym, bind_Ok, Hc, bind_Ok.
  rewrite (mat_get_ok fzero _ n no_symbols)
    by (try apply mat_shape_log; try apply Hshape; lia).
  rewrite bind_Ok, (mat_set_ok M T n) by (done || lia).
  eexists; split; [done|]. by apply mat_upd_shape.
Qed.

Lemma viterbi_tables_shape :
  0 < T →
  ∃ M P, viterbi_tables sequence mf = Ok (M, P)
    ∧ tables_shape sequence mf (M, P).
Proof.
  intros HT. unfold viterbi_tables. rewrite length_log_vec.
  destruct (fill_base_shape HT) as (M0 & -> & HM0). rewrite bind_Ok.
  destruct (for_each_range_inv (λ _, tables_shape sequence mf)
              (fill_row sequence (log_mat (transitions mf))
                 (log_mat (emissions mf)) (char_map mf) n)
              1 T (M0, replicate T (replicate n 0)))
    as ([M P] & Hrun & Hinv); [lia| | |by eauto].
  - unfold tables_shape. simpl. split_and!; [done|apply mat_shape_replicate|].
    intros t s. by rewrite mat_at_replicate.
  - intros i MP Hi HMP. by apply fill_row_shape.
Qed.

Lemma argmax_fold_index (xs : list F) (best : nat) (v : F) (i : nat) :
  best < i →
  (foldl (λ '(best, best_val, i) y,
            if fgt y best_val then (i, y, S i) else (best, best_val, S i))
         (best, v, i) xs).1.1 < i + length xs.
Proof.
  revert best v i. induction xs as [|y xs IH]; intros best v i Hlt; simpl.
  - lia.
  - destruct (fgt y v).
    + specialize (IH i y (S i)). lia.
    + specialize (IH best v (S i)). lia.
Qed.

Lemma argmax_index (row : list F) :
  0 < length row → ∃ s, argmax row = Ok s ∧ s < length row.
Proof.
  destruct row as [|x xs]; [simpl; lia|]. intros _. unfold argmax.
  eexists. split; [done|]. apply (argmax_fold_index xs 0 x 1). lia.
Qed.

Lemma backtrace_states (P : list (list nat)) (t s : nat) :
  (∀ t s, mat_at 0 P t s < n) → s < n →
  length (backtrace P t s) = S t ∧ Forall (λ s, s < n) (backtrace P t s).
Proof.
  intros HP. revert s. induction t as [|t IH]; intros s Hs; simpl.
  - split; [done|]. by repeat constructor.
  - destruct (IH (mat_at 0 P (S t) s)) as [Hlen Hall]; [apply HP|].
    split; [by rewrite Hlen|]. by constructor.
Qed.

Lemma label_of_labelled (s : nat) :
  labelled mf → s < n → label_of mf s = Ok (VStr (state_label mf s)).
Proof.
  intros Hlab Hs. destruct (Hlab s Hs) as [l Hl].
  unfold label_of, state_label. by rewrite Hl.
Qed.

Lemma str_app_nil_r (a : string) : a +:+ "" = a.
Proof.
  induction a as [|c a IH]; [done|].
  change (String c (a +:+ "") = String c a). by rewrite IH.
Qed.

Lemma join_values_one (l : string) : join_values (F:=F) [VStr l] = Ok l.
Proof.
  unfold join_values, join. simpl. by rewrite str_app_nil_r.
Qed.

(** With every state labelled, the path of a sequence of one symbol is
    the label of one state, and no longer sequence has a path. *)
Lemma optimal_path_labelled (header : dict string string) :
  labelled mf → 0 < T →
  ∃ M s_final,
    mat_shape M T n
    ∧ s_final < n
    ∧ optimal_path sequence (header, mf)
      = match T - 1 with
        | O => Ok (M, state_label mf s_final)
        | S _ => Raise IndexError
        end.
Proof.
  intros Hlab HT.
  destruct (viterbi_tables_shape HT) as (M & P & Htables & HM & HP & HPlt).
  simpl in *.
  destruct (last_row_ok sequence mf M HM HT) as [Hlast Hlen].
  destruct (argmax_index (nth (T - 1) M [])) as (s & Hs & Hlt); [lia|].
  rewrite Hlen in Hlt.
  exists M, s. split_and!; [done..|].
  etrans; [apply (optimal_path_rounds sequence mf header M P s);
             (done || by rewrite Hlast)|].
  rewrite (label_of_labelled s), bind_Ok by done.
  destruct (T - 1) as [|t].
  - by rewrite join_values_one.
  - by rewrite label_of_labelled by (done || apply HPlt).
Qed.
End DecoderTotal.

Section DecoderTotalCorrect.
Context {F : Type} `{Numeric F}.

(** X20.  On a well-sized model, [optimal_path] returns for a sequence
    of one symbol only.  Take arrays of matching sizes, at least one
    state, every state labelled with a string, and a sequence over the
    alphabet, whatever the numbers in the arrays.  For a sequence of one
    symbol the outcome is a table of one row, with one column per state,
    and the label of one state.  For a sequence of two symbols or more
    the outcome is [IndexError]: in its second round the backtracking
    loop holds the float read from [P], and numpy does not take a float
    as an index. *)
Theorem optimal_path_outcome (sequence : string) (header : dict string string)
    (mf : matrix_form F) (no_symbols : nat) :
  model_shape mf no_symbols →
  over_alphabet sequence mf →
  labelled mf →
  0 < length (initial mf) →
  (String.length sequence = 1 →
   ∃ M s,
     optimal_path sequence (header, mf) = Ok (M, state_label mf s)
     ∧ mat_shape M 1 (length (initial mf))
     ∧ s < length (initial mf))
  ∧ (2 ≤ String.length sequence →
     optimal_path sequence (header, mf) = Raise IndexError).
Proof.
  intros Hshape Halpha Hlab Hn. split.
  - intros Hone.
    destruct (optimal_path_labelled sequence mf no_symbols Hshape Halpha Hn
                header Hlab) as (M & s & HM & Hs & Hrun); [lia|].
    rewrite Hone in *. by exists M, s.
  - intros Htwo.
    destruct (optimal_path_labelled sequence mf no_symbols Hshape Halpha Hn
                header Hlab) as (M & s & HM & Hs & Hrun); [lia|].
    rewrite Hrun. destruct (String.length sequence - 1) eqn:Hlen; [lia|done].
Qed.

(** X21.  With a model without states, decoding a non-empty sequence
    raises [ValueError]: no loop runs, and [np.argmax] is applied to the
    empty last row. *)
Theorem optimal_path_no_state (sequence : string) (header : dict string string)
    (mf : matrix_form F) :
  initial mf = [] →
  0 < String.length sequence →
  optimal_path sequence (header, mf) = Raise ValueError.
Proof.
  intros Hinit HT. unfold optimal_path, viterbi_tables.
  rewrite length_log_vec, Hinit. simpl length.
  change (range 0 0) with (@nil nat).
  change (for_each [] ?body ?st) with (Ok st).
  rewrite bind_Ok. rewrite for_each_skip by done. rewrite bind_Ok.
  unfold last_row. destruct (String.length sequence) as [|T]; [lia|].
  by rewrite last_replicate_S.
Qed.
End DecoderTotalCorrect.

(** ** Viterbi decoder: optimality *)

Section Optimality.
Context {F : Type} `{Numeric F} (ok : F → Prop) {Hord : NumericOrder ok}.
Variables (sequence : string) (mf : matrix_form F) (no_symbols : nat).
Hypothesis Hmono : fadd_monotone ok.
Hypothesis Hshape : model_shape mf no_symbols.
Hypothesis Hscores : scores_ok ok mf.
Hypothesis Halpha : over_alphabet sequence mf.
Variables (M : list (list F)) (P : list (list nat)).
Hypothesis Hinv : tables_inv ok sequence mf (String.length sequence) 0 (M, P).

Local Abbreviation n := (length (initial mf)).
Local Abbreviation T := (String.length sequence).

(** A score that is not above a second one, which is not above a third
    one, is not above the third one. *)
Lemma fgt_not_trans (x y z : F) :
  ok x → ok y → ok z → fgt x y = false → fgt y z = false → fgt x z = false.
Proof.
  intros Hx Hy Hz Hxy Hyz. destruct (fgt x z) eqn:Hxz; [|done].
  destruct (fgt_cotrans x z y Hx Hz Hy Hxz); congruence.
Qed.

Lemma obs_lt (t : nat) : t < T → obs sequence mf t < no_symbols.
Proof.
  intros Ht. by destruct (symbol_ok sequence mf no_symbols Hshape Halpha t Ht)
    as (_ & _ & _ & Hobs).
Qed.

Lemma backtrace_head (t s : nat) : ∃ rest, backtrace P t s = s :: rest.
Proof. destruct t; simpl; eauto. Qed.

Lemma backtrace_length (t s : nat) : length (backtrace P t s) = S t.
Proof. revert s. induction t as [|t IH]; intros s; simpl; [done|]. by rewrite IH. Qed.

(** The entry [M[t][j]] is the score of the chain of predecessors that
    [P] records for the state [j] at position [t]. *)
Lemma table_is_path_score (t j : nat) :
  t < T → j < n →
  mat_at fzero M t j = path_score sequence mf (backtrace P t j).
Proof.
  destruct Hinv as (_ & _ & _ & _ & Hbase & Hrows & _). simpl in *.
  revert j. induction t as [|t IH]; intros j Ht Hj.
  - simpl. by apply Hbase.
  - destruct (Hrows (S t) j) as [(Hk & Hcell & _) _]; [lia|done|].
    simpl backtrace. set (k := mat_at 0 P (S t) j) in *.
    destruct (backtrace_head t k) as [rest Hrest].
    pose proof (backtrace_length t k) as Hlen.
    rewrite Hcell. unfold candidate. replace (S t - 1) with t by lia.
    rewrite IH by (done || lia). rewrite Hrest in *.
    simpl path_score. simpl in Hlen. by rewrite Hlen.
Qed.

(** No path that ends in the state [j] at position [t] has a score
    above [M[t][j]]. *)
Lemma path_score_bound (rest : list nat) (j : nat) :
  length rest < T → Forall (λ s, s < n) (j :: rest) →
  ok (path_score sequence mf (j :: rest))
  ∧ fgt (path_score sequence mf (j :: rest)) (mat_at fzero M (length rest) j)
    = false.
Proof.
  destruct Hinv as (_ & _ & _ & Hok & Hbase & Hrows & _). simpl in *.
  revert j. induction rest as [|k rest IH]; intros j Ht Hall.
  - apply Forall_cons in Hall as [Hj _]. simpl.
    rewrite Hbase by done. split; [|apply fgt_irrefl].
    + apply ok_fadd; [by apply ok_log_initial|].
      apply (ok_log_emission ok mf no_symbols); [done..|]. apply obs_lt. lia.
    + apply ok_fadd; [by apply ok_log_initial|].
      apply (ok_log_emission ok mf no_symbols); [done..|]. apply obs_lt. lia.
  - apply Forall_cons in Hall as [Hj Hall]. pose proof Hall as Hall'.
    apply Forall_cons in Hall' as [Hk _].
    destruct (IH k) as [Hokk Hle]; [simpl in Ht; lia|done|].
    simpl in Ht.
    destruct (Hrows (S (length rest)) j) as [(Hbest & Hcell & Hmax) _];
      [lia|done|].
    set (b := mat_at 0 P (S (length rest)) j) in *.
    change (path_score sequence mf (j :: k :: rest))
      with (fadd (fadd (path_score sequence mf (k :: rest))
                    (log_transition mf k j))
              (log_emission mf j (obs sequence mf (S (length rest))))).
    simpl length. rewrite Hcell.
    assert (Hem : ok (log_emission mf j (obs sequence mf (S (length rest))))).
    { apply (ok_log_emission ok mf no_symbols); [done..|]. apply obs_lt. lia. }
    assert (Htr : ok (log_transition mf k j))
      by by apply (ok_log_transition ok mf no_symbols).
    assert (HMk : ok (mat_at fzero M (length rest) k)).
    { apply Hok; [left; lia|done]. }
    assert (Hcand : ∀ k', k' < n →
              ok (candidate mf M (S (length rest)) j k')).
    { intros k' Hk'. unfold candidate. apply ok_fadd.
      - apply Hok; [left; lia|done].
      - by apply (ok_log_transition ok mf no_symbols). }
    split; [by repeat apply ok_fadd|].
    apply Hmono; [by apply ok_fadd|by apply Hcand|done|].
    apply (fgt_not_trans _ (candidate mf M (S (length rest)) j k));
      [by apply ok_fadd|by apply Hcand|by apply Hcand| |by apply Hmax].
    unfold candidate. replace (S (length rest) - 1) with (length rest) by lia.
    by apply Hmono.
Qed.
End Optimality.

Section OptimalityCorrect.
Context {F : Type} `{Numeric F}.

(** X22.  The tables hold a most probable path.  Take a set [ok] of
    scores ordered by [>] that contains the logarithms of the model's
    entries and on which adding a score keeps the order of two scores.
    Let [s_final] be the state that [np.argmax] takes from the last row
    of [M].  The chain of predecessors that [P] records for it is one
    state per symbol; its score is the entry of [s_final] in the last
    row of [M]; and no path of states of that length has a greater
    score.  The score of a path is the sum the decoder computes: the log
    of the initial probability plus the log of the first emission, then
    for every further symbol the log transition and the log emission,
    added in that order. *)
Theorem viterbi_tables_most_probable (ok : F → Prop) (sequence : string)
    (mf : matrix_form F) (no_symbols : nat) :
  NumericOrder ok →
  fadd_monotone ok →
  scores_ok ok mf →
  model_shape mf no_symbols →
  over_alphabet sequence mf →
  0 < String.length sequence →
  0 < length (initial mf) →
  ∃ M P s_final,
    viterbi_tables sequence mf = Ok (M, P)
    ∧ (last_row M ≫= argmax) = Ok s_final
    ∧ s_final < length (initial mf)
    ∧ let best := backtrace P (String.length sequence - 1) s_final in
      length best = String.length sequence
      ∧ Forall (λ s, s < length (initial mf)) best
      ∧ path_score sequence mf best
        = mat_at fzero M (String.length sequence - 1) s_final
      ∧ ∀ rpath,
          length rpath = String.length sequence →
          Forall (λ s, s < length (initial mf)) rpath →
          fgt (path_score sequence mf rpath) (path_score sequence mf best)
          = false.
Proof.
  intros Hord Hmono Hscores Hshape Halpha HT Hn.
  destruct (viterbi_tables_spec ok sequence mf no_symbols
              Hshape Hscores Halpha HT) as (M & P & Htables & Hinv).
  destruct (last_row_argmax ok sequence mf M P HT Hn Hinv)
    as (s & Hs & Hlt & Hmax & _).
  pose proof Hinv as (HM & HP & HPlt & Hok & _). simpl in *.
  exists M, P, s. split_and!; [done..| | | |].
  - rewrite (backtrace_length P). lia.
  - apply backtrace_states; [|done]. intros t s0.
    destruct (HPlt t s0); [done|lia].
  - symmetry. apply (table_is_path_score ok sequence mf M P Hinv); (lia || done).
  - intros rpath Hlen Hall.
    destruct rpath as [|j rest]; [simpl in Hlen; lia|]. simpl in Hlen.
    pose proof Hall as Hall'. apply Forall_cons in Hall' as [Hj _].
    destruct (path_score_bound ok sequence mf no_symbols Hmono Hshape Hscores
                Halpha M P Hinv rest j) as [Hokp Hle]; [lia|done|].
    rewrite <- (table_is_path_score ok sequence mf M P Hinv) by (lia || done).
    replace (length rest) with (String.length sequence - 1) in Hle by lia.
    apply (fgt_not_trans ok _ (mat_at fzero M (String.length sequence - 1) j));
      [done|apply Hok; [left; lia|done]..|done|by apply Hmax].
Qed.
End OptimalityCorrect.

(** ** Parser and decoder together *)

Section ParserDecoder.
Context {F : Type} `{Numeric F}.

(** X23.  The decoder on a parsed model.  When [parse_model] returns
    a model with at least one state, all of them labelled, the arrays
    have the sizes the decoder needs: for a sequence of one symbol of
    the [alphabet] of the header, [optimal_path] returns a table of one
    row and the label of one state; for a sequence of two symbols or
    more over the [alphabet] it raises [IndexError], in the second round
    of the backtracking loop. *)
Theorem parse_model_decoder_outcome (file_like : list string)
    (header : dict string string) (mf : matrix_form F) (sequence : string) :
  parse_model file_like = Ok (header, mf) →
  labelled mf →
  0 < length (initial mf) →
  (∀ alphabet, dict_get header "alphabet" = Some alphabet →
     ∀ symbol, symbol ∈ str_iter sequence → symbol ∈ str_iter alphabet) →
  (String.length sequence = 1 →
   ∃ M s,
     optimal_path sequence (header, mf) = Ok (M, state_label mf s)
     ∧ mat_shape M 1 (length (initial mf))
     ∧ s < length (initial mf))
  ∧ (2 ≤ String.length sequence →
     optimal_path sequence (header, mf) = Raise IndexError).
Proof.
  intros Hparse Hlab Hn Hseq. unfold parse_model in Hparse.
  apply bind_Ok_inv in Hparse as ([tokens1 header'] & _ & Hparse).
  apply bind_Ok_inv in Hparse as ([tokens2 states] & _ & Hparse).
  apply bind_Ok_inv in Hparse as (_ & _ & Hparse).
  apply bind_Ok_inv in Hparse as (alphabet & Halphabet & Hparse).
  apply bind_Ok_inv in Hparse as (states' & _ & Hparse).
  apply bind_Ok_inv in Hparse as (mf' & Hmf & Hparse).
  injection Hparse as <- <-. apply of_option_Ok in Halphabet.
  destruct (to_matrix_form_sizes _ _ _ Hmf) as (_ & Hshape & Hcm).
  assert (Halpha : over_alphabet sequence mf').
  { apply (over_alphabet_index_map _ alphabet); [done|]. by apply Hseq. }
  split.
  - intros Hone.
    destruct (optimal_path_labelled sequence mf' (String.length alphabet)
                Hshape Halpha Hn header' Hlab) as (M & s & HM & Hs & Hrun); [lia|].
    rewrite Hone in *. by exists M, s.
  - intros Htwo.
    destruct (optimal_path_labelled sequence mf' (String.length alphabet)
                Hshape Halpha Hn header' Hlab) as (M & s & HM & Hs & Hrun); [lia|].
    rewrite Hrun. destruct (String.length sequence - 1) eqn:Hlen; [lia|done].
Qed.
End ParserDecoder.

(** ** Path summarizer: round trip *)

Lemma summarize_runs (path : string) : runs_of 0 (chars path) (summarize path).
Proof.
  unfold summarize. destruct (chars path) as [|c cs]; [constructor|].
  unfold enumerate. simpl. apply (groupby_run_runs cs c 0 0).
Qed.

Lemma runs_of_bounds (base : nat) (cs : list ascii) (rs : list (nat * nat * ascii)) :
  runs_of base cs rs →
  Forall (λ r, base ≤ r.1.1 ∧ r.1.1 ≤ r.1.2 ∧ r.1.2 < base + length cs) rs.
Proof.
  induction 1 as [base|base n c cs rs Hhead Hrs IH]; [constructor|].
  rewrite length_app, length_replicate. constructor; [simpl; lia|].
  eapply Forall_impl; [done|]. intros [[s e] c']. simpl. lia.
Qed.

Lemma runs_of_expand (base : nat) (cs : list ascii) (rs : list (nat * nat * ascii)) :
  runs_of base cs rs → expand rs = cs.
Proof.
  induction 1 as [base|base n c cs rs Hhead Hrs IH]; [done|].
  change (expand ((base, base + n, c) :: rs))
    with (replicate (S (base + n - base)) c ++ expand rs).
  rewrite IH. by replace (base + n - base) with n by lia.
Qed.

Lemma runs_of_lookup (base : nat) (cs : list ascii) (rs : list (nat * nat * ascii))
    (i : nat) (c : ascii) :
  runs_of base cs rs →
  cs !! i = Some c ↔ ∃ s e, (s, e, c) ∈ rs ∧ s ≤ base + i ≤ e.
Proof.
  intros Hrs. revert i.
  induction Hrs as [base|base n c0 cs rs Hhead Hrs IH]; intros i.
  - split; [done|]. intros (s & e & Hin & _). by apply elem_of_nil in Hin.
  - pose proof (runs_of_bounds _ _ _ Hrs) as Hbounds.
    destruct (decide (i < S n)) as [Hi|Hi].
    + rewrite lookup_app_l by (rewrite length_replicate; lia).
      rewrite lookup_replicate. split.
      * intros [<- _]. exists base, (base + n). split; [by left|lia].
      * intros (s & e & Hin & Hse). split; [|done].
        apply elem_of_cons in Hin as [[= _ _ ->]|Hin]; [done|].
        apply (proj1 (Forall_forall _ _) Hbounds) in Hin. simpl in Hin. lia.
    + rewrite lookup_app_r by (rewrite length_replicate; lia).
      rewrite length_replicate, IH. split.
      * intros (s & e & Hin & Hse). exists s, e. split; [by right|lia].
      * intros (s & e & Hin & Hse).
        apply elem_of_cons in Hin as [[= -> -> ->]|Hin]; [lia|].
        exists s, e. split; [done|lia].
Qed.

(** X24.  The items of [summarize] give the path back: writing, for
    every item in order, its label [end - start + 1] times yields the
    path; every item has [start <= end < len(path)]. *)
Theorem summarize_expand (path : string) :
  str_of_chars (expand (summarize path)) = path
  ∧ Forall (λ r, r.1.1 ≤ r.1.2 ∧ r.1.2 < String.length path) (summarize path).
Proof.
  pose proof (summarize_runs path) as Hruns. split.
  - by rewrite (runs_of_expand _ _ _ Hruns), str_of_chars_chars.
  - apply runs_of_bounds in Hruns. eapply Forall_impl; [done|].
    intros [[s e] c]. simpl. rewrite <- length_str_iter. unfold str_iter.
    rewrite length_fmap. lia.
Qed.

(** X25.  Position [i] of the path holds the label [c] exactly when an
    item [(start, end, c)] of [summarize] has [start <= i <= end]. *)
Theorem summarize_covers (path : string) (i : nat) (c : ascii) :
  chars path !! i = Some c
  ↔ ∃ s e, (s, e, c) ∈ summarize path ∧ s ≤ i ≤ e.
Proof. apply (runs_of_lookup 0), summarize_runs. Qed.

(** ** The exceptions of the parser and of the decoder *)

Ltac member :=
  simpl; unfold parser_errors, decoder_errors;
  solve [repeat (first [apply list_elem_of_here | apply list_elem_of_further])].

Section Exceptions.
Context (allowed : list exn).

Lemma raises_only_bind {A B} (r : result A) (k : A → result B) :
  raises_only allowed r → (∀ a, r = Ok a → raises_only allowed (k a)) →
  raises_only allowed (r ≫= k).
Proof. destruct r as [a|e|]; [by eauto|done..]. Qed.

Lemma raises_only_of_option {A} (e : exn) (o : option A) :
  e ∈ allowed → raises_only allowed (of_option e o).
Proof. by destruct o. Qed.

Lemma raises_only_for_each {A St} (xs : list A) (body : St → A → result St)
    (st : St) :
  (∀ st x, raises_only allowed (body st x)) →
  raises_only allowed (for_each xs body st).
Proof.
  intros Hbody. revert st. induction xs as [|x xs IH]; intros st; [done|].
  simpl. apply raises_only_bind; auto.
Qed.

Lemma raises_only_mapM {A B} (f : A → result B) (l : list A) :
  (∀ x, raises_only allowed (f x)) → raises_only allowed (mapM f l).
Proof.
  intros Hf. induction l as [|x l IH]; [done|].
  apply raises_only_bind; [apply Hf|]. intros y _.
  apply raises_only_bind; [apply IH|]. by intros ys _.
Qed.

Lemma raises_only_arr_get {A} (a : list A) (i : nat) :
  IndexError ∈ allowed → raises_only allowed (arr_get a i).
Proof. apply raises_only_of_option. Qed.

Lemma raises_only_arr_set {A} (a : list A) (i : nat) (x : A) :
  IndexError ∈ allowed → raises_only allowed (arr_set a i x).
Proof. intros Hin. unfold arr_set. by case_decide. Qed.

Lemma raises_only_mat_get {A} (m : list (list A)) (i j : nat) :
  IndexError ∈ allowed → raises_only allowed (mat_get m i j).
Proof.
  intros Hin. apply raises_only_bind; [by apply raises_only_arr_get|].
  intros; by apply raises_only_arr_get.
Qed.

Lemma raises_only_mat_set {A} (m : list (list A)) (i j : nat) (x : A) :
  IndexError ∈ allowed → raises_only allowed (mat_set m i j x).
Proof.
  intros Hin. apply raises_only_bind; [by apply raises_only_arr_get|].
  intros row _. apply raises_only_bind; [by apply raises_only_arr_set|].
  intros row' _. by apply raises_only_arr_set.
Qed.
End Exceptions.

Ltac step_raises :=
  first
    [ done
    | apply raises_only_of_option; member
    | apply raises_only_arr_get; member
    | apply raises_only_arr_set; member
    | apply raises_only_mat_get; member
    | apply raises_only_mat_set; member
    | apply raises_only_mapM; intros ?
    | apply raises_only_bind; [|intros ? _]
    | apply raises_only_for_each; intros ? ?
    | match goal with
      | |- raises_only _ (Raise _) => member
      | |- _ ∈ _ => member
      | x : (_ * _)%type |- _ => destruct x; cbn beta iota
      | |- raises_only _ (match ?x with _ => _ end) => destruct x
      end ].

Section FieldKinds.
Context {F : Type} `{Numeric F}.
Implicit Types (tokens : list string) (st : state F)
  (states : dict string (state F)).

Lemma parse_field_kind (token : string) tokens rest (v : value F) :
  parse_field token tokens = Ok (rest, v) → kind_ok token v.
Proof.
  unfold parse_field.
  destruct (decide (token ∈ ["trans"; "only"])) as [Hmap|Hmap];
    [|destruct (decide (token ∈ ["type"; "end"])) as [Hint|Hint]].
  - intros Hrun. apply bind_Ok_inv in Hrun as ([tokens1 [m|]] & _ & Hrun).
    + by injection Hrun as <- <-.
    + apply bind_Ok_inv in Hrun as ([tokens2 l] & _ & Hrun).
      by injection Hrun as <- <-.
  - intros Hrun. apply bind_Ok_inv in Hrun as ([t tokens1] & _ & Hrun).
    apply bind_Ok_inv in Hrun as (z & _ & Hrun). by injection Hrun as <- <-.
  - intros Hrun. apply bind_Ok_inv in Hrun as ([t tokens1] & _ & Hrun).
    injection Hrun as <- <-. simpl. intros Hin.
    repeat (apply elem_of_cons in Hin as [->|Hin]);
      [by destruct Hmap; member..|by destruct Hint; member
      |by destruct Hint; member|by apply elem_of_nil in Hin].
Qed.

Lemma typed_state_set st (name : string) (v : value F) :
  typed_state st → kind_ok name v → typed_state (dict_set st name v).
Proof.
  intros Hst Hv f w. rewrite dict_get_set. case_decide as Hf.
  - subst f. by intros [= <-].
  - apply Hst.
Qed.

Lemma typed_states_set states (name : string) st :
  typed_states states → typed_state st → typed_states (dict_set states name st).
Proof.
  intros Hstates Hst n s. rewrite dict_get_set. case_decide as Hn.
  - by intros [= <-].
  - apply Hstates.
Qed.

Lemma parse_state_loop_typed (fuel : nat) tokens (acc : state F) rest st :
  typed_state acc →
  _parse_state_loop fuel tokens acc = Ok (rest, st) → typed_state st.
Proof.
  revert tokens acc. induction fuel as [|fuel IH]; intros tokens acc Hacc; [done|].
  destruct tokens as [|token tokens1]; [done|]. simpl.
  case_decide; [by intros [= <- <-]|].
  intros Hrun. apply bind_Ok_inv in Hrun as ([tokens2 v] & Hfield & Hrun).
  destruct tokens2 as [|x tokens3]; [done|]. simpl popleft in Hrun.
  rewrite bind_Ok in Hrun. apply IH in Hrun; [done|].
  apply typed_state_set; [done|]. by eapply parse_field_kind.
Qed.

Lemma parse_state_kinds tokens rest (name : string) st :
  _parse_state tokens = Ok (rest, (name, st)) → typed_state st.
Proof.
  destruct tokens as [|state_name [|x tokens2]]; [done..|].
  rewrite parse_state_cons. intros Hrun.
  apply bind_Ok_inv in Hrun as ([rest' st'] & Hloop & Hrun).
  injection Hrun as <- <- <-.
  eapply parse_state_loop_typed; [|done]. by intros f v.
Qed.

(** X26.  The kind of the value of a field follows from its name: in a
    state that [_parse_state] returns, [trans] and [only] are maps or
    lists, [type] and [end] are integers, and every other field (a
    [label], a [tied_trans], a [tied_letter]) is a string. *)
Theorem parse_state_typed tokens rest (name : string) st :
  _parse_state tokens = Ok (rest, (name, st)) →
  ∀ field v, dict_get st field = Some v →
    match v with
    | VMap _ | VList _ => field ∈ ["trans"; "only"]
    | VInt _ => field ∈ ["type"; "end"]
    | VStr _ => field ∉ ["trans"; "only"; "type"; "end"]
    end.
Proof. intros Hrun field v. by apply (parse_state_kinds _ _ _ _ Hrun). Qed.

Lemma parse_states_typed (fuel : nat) tokens states rest states' :
  typed_states states →
  parse_states fuel tokens states = Ok (rest, states') → typed_states states'.
Proof.
  revert tokens states. induction fuel as [|fuel IH]; intros tokens states Hst.
  - destruct tokens; [|done]. by intros [= <- <-].
  - destruct tokens as [|t tokens1]; [by intros [= <- <-]|].
    simpl parse_states. intros Hrun.
    apply bind_Ok_inv in Hrun as ([tokens2 [name st]] & Hstate & Hrun).
    apply IH in Hrun; [done|].
    apply typed_states_set; [done|]. by eapply parse_state_kinds.
Qed.

(** A field that is neither [trans], [only], [type] nor [end] holds a
    string. *)
Lemma kind_str (name : string) (v : value F) :
  kind_ok name v → name ∉ ["trans"; "only"; "type"; "end"] → ∃ s, v = VStr s.
Proof.
  intros Hv Hname. destruct v as [s|z|l|m]; simpl in Hv; [by eauto|..].
  - destruct Hname. by do 2 apply list_elem_of_further.
  - destruct Hname.
    apply elem_of_cons in Hv as [->|Hv]; [member|].
    apply elem_of_cons in Hv as [->|Hv]; [member|by apply elem_of_nil in Hv].
  - destruct Hname.
    apply elem_of_cons in Hv as [->|Hv]; [member|].
    apply elem_of_cons in Hv as [->|Hv]; [member|by apply elem_of_nil in Hv].
Qed.

(** A [trans] or an [only] is a list or a map. *)
Lemma kind_collection (name : string) (v : value F) :
  kind_ok name v → name ∈ ["trans"; "only"] →
  (∃ l, v = VList l) ∨ (∃ m, v = VMap m).
Proof.
  intros Hv Hname. destruct v as [s|z|l|m]; simpl in Hv; [| |by eauto..].
  - destruct Hv.
    apply elem_of_cons in Hname as [->|Hname]; [member|].
    apply elem_of_cons in Hname as [->|Hname];
      [member|by apply elem_of_nil in Hname].
  - exfalso. apply elem_of_cons in Hname as [->|Hname].
    + apply elem_of_cons in Hv as [?|Hv]; [done|].
      apply elem_of_cons in Hv as [?|Hv]; [done|by apply elem_of_nil in Hv].
    + apply elem_of_cons in Hname as [->|Hname];
        [|by apply elem_of_nil in Hname].
      apply elem_of_cons in Hv as [?|Hv]; [done|].
      apply elem_of_cons in Hv as [?|Hv]; [done|by apply elem_of_nil in Hv].
Qed.

Lemma dict_copy_typed (v : value F) :
  kind_ok "only" v →
  raises_only parser_errors (dict_copy v)
  ∧ ∀ v', dict_copy v = Ok v' → kind_ok "only" v'.
Proof.
  intros Hv. destruct (kind_collection "only" v Hv) as [[l ->]|[m ->]]; [member|..].
  - simpl. split.
    + apply raises_only_bind; [|done].
      apply raises_only_mapM. intros x. unfold pair_of_str.
      repeat step_raises.
    + intros v' Hrun. apply bind_Ok_inv in Hrun as (ps & _ & Hrun).
      injection Hrun as <-. member.
  - simpl. split; [done|]. intros v' [= <-]. member.
Qed.

Lemma normalize_state_typed states (name : string) :
  typed_states states →
  raises_only parser_errors (normalize_state states name)
  ∧ ∀ states', normalize_state states name = Ok states' → typed_states states'.
Proof.
  intros Htyped.
  assert (Hkeep : ∀ states',
            normalize_state states name = Ok states' → typed_states states').
  { intros states' Hrun. pose proof Hrun as Hst. unfold normalize_state in Hst.
    apply bind_Ok_inv in Hst as (st & Hst & _). apply of_option_Ok in Hst.
    destruct (normalize_state_inv _ _ _ _ Hst Hrun)
      as (st1 & st2 & Htrans & Hletter & ->).
    assert (Hst1 : typed_state st1).
    { destruct (dict_get st "tied_trans").
      - destruct Htrans as (? & ? & ? & ? & ? & ? & _ & _ & _ & _ & _ & _ & ->).
        apply typed_state_set; [by eapply Htyped|member].
      - subst st1. by eapply Htyped. }
    apply typed_states_set; [done|].
    destruct (dict_get st1 "tied_letter").
    - destruct Hletter as (pn & parent & ponly & only & _ & Hparent & Hponly
                           & Honly & ->).
      apply typed_state_set; [done|].
      assert (Hall : typed_states (dict_set states name st1))
        by by apply typed_states_set.
      by apply (dict_copy_typed ponly (Hall _ _ Hparent _ _ Hponly)).
    - by subst st2. }
  split; [|done]. unfold normalize_state.
  apply raises_only_bind; [apply raises_only_of_option; member|].
  intros state Hstate. apply of_option_Ok in Hstate.
  pose proof (Htyped _ _ Hstate) as Hst.
  match goal with |- raises_only _ (?b ≫= _) =>
    assert (raises_only parser_errors b
            ∧ ∀ s1, b = Ok s1 → typed_states s1) as [Hb1 Hb2]
  end.
  { destruct (dict_get state "tied_trans") as [tied|] eqn:Htied;
      [|split; [done|by intros ? [= <-]]].
    destruct (kind_str "tied_trans" tied) as [pn ->];
      [by apply Hst|compute_done|].
    simpl as_key. rewrite bind_Ok.
    destruct (dict_get states pn) as [parent|]; [|split; [member|done]].
    simpl of_option. rewrite bind_Ok.
    destruct (dict_get state "trans") as [own|] eqn:Hown;
      [|split; [member|done]].
    simpl of_option. rewrite bind_Ok.
    destruct (dict_get parent "trans") as [ptrans|]; [|split; [member|done]].
    simpl of_option. rewrite bind_Ok.
    destruct ptrans as [| | |probs]; simpl map_values;
      try (split; [member|done]).
    rewrite bind_Ok.
    destruct (kind_collection "trans" own) as [[l ->]|[m ->]];
      [by apply Hst|member|..]; simpl iter_value; rewrite bind_Ok.
    all: split; [done|]; intros s1 [= <-].
    all: apply typed_states_set; [done|]; apply typed_state_set; [done|member]. }
  apply raises_only_bind; [done|]. intros states1 Hs1. apply Hb2 in Hs1.
  apply raises_only_bind; [apply raises_only_of_option; member|].
  intros state' Hstate'. apply of_option_Ok in Hstate'.
  pose proof (Hs1 _ _ Hstate') as Hst'.
  destruct (dict_get state' "tied_letter") as [tied|] eqn:Htied; [|done].
  destruct (kind_str "tied_letter" tied) as [pn ->];
    [by apply Hst'|compute_done|].
  simpl as_key. rewrite bind_Ok.
  apply raises_only_bind; [apply raises_only_of_option; member|].
  intros parent Hparent. apply of_option_Ok in Hparent.
  apply raises_only_bind; [apply raises_only_of_option; member|].
  intros ponly Hponly. apply of_option_Ok in Hponly.
  apply raises_only_bind; [|done].
  by apply (dict_copy_typed ponly (Hs1 _ _ Hparent _ _ Hponly)).
Qed.

Lemma raises_only_normalize_states states :
  typed_states states →
  raises_only parser_errors (_normalize_states states).
Proof.
  unfold _normalize_states. generalize (keys states) as names.
  intros names. revert states.
  induction names as [|name names IH]; intros states Htyped; [done|].
  rewrite for_each_cons.
  destruct (normalize_state_typed states name Htyped) as [Hraise Hkeep].
  apply raises_only_bind; [done|]. intros states1 Hs1. by apply IH, Hkeep.
Qed.
End FieldKinds.

Section ParserExceptions.
Context {F : Type} `{Numeric F}.
Implicit Types (tokens : list string).

Lemma raises_only_parse_field (token : string) tokens :
  raises_only parser_errors (parse_field (F:=F) token tokens).
Proof.
  unfold parse_field.
  assert (Hlist : ∀ tokens acc,
            raises_only parser_errors (_parse_list_loop tokens acc)).
  { clear. intros tokens. induction tokens as [|t tokens IH]; intros acc; simpl.
    - member.
    - by case_decide. }
  assert (Hmap : ∀ len tokens (acc : dict string (pval F)),
            length tokens ≤ len →
            raises_only parser_errors (_parse_map_loop tokens acc)).
  { clear. induction len as [|len IH]; intros tokens acc Hlen.
    { destruct tokens; [simpl; member|simpl in Hlen; lia]. }
    destruct tokens as [|t [|t1 [|t2 tokens]]]; simpl;
      repeat case_decide; try done; try member.
    destruct (float_of_str t2); [|simpl; member].
    simpl of_option. rewrite bind_Ok. apply IH. simpl in Hlen. lia. }
  repeat case_decide.
  - apply raises_only_bind; [by apply (Hmap (length tokens))|].
    intros [tokens1 [m|]] _; [done|].
    apply raises_only_bind; [apply Hlist|]. by intros [? ?] _.
  - destruct tokens as [|t tokens1]; [simpl; member|].
    simpl popleft. rewrite bind_Ok.
    destruct (int_of_str t); [done|simpl; member].
  - destruct tokens as [|t tokens1]; [simpl; member|done].
Qed.

Lemma raises_only_parse_state_loop (fuel : nat) tokens (acc : state F) :
  raises_only parser_errors (_parse_state_loop fuel tokens acc).
Proof.
  revert tokens acc. induction fuel as [|fuel IH]; intros tokens acc; [done|].
  destruct tokens as [|token tokens1]; [simpl; member|]. simpl.
  case_decide; [done|].
  apply raises_only_bind; [apply raises_only_parse_field|].
  intros [tokens2 v] _.
  destruct tokens2 as [|x tokens3]; [simpl; member|].
  simpl popleft. rewrite bind_Ok. apply IH.
Qed.

Lemma raises_only_parse_state tokens :
  raises_only parser_errors (_parse_state (F:=F) tokens).
Proof.
  destruct tokens as [|state_name [|x tokens2]]; [simpl; member..|].
  rewrite parse_state_cons.
  apply raises_only_bind; [apply raises_only_parse_state_loop|].
  by intros [? ?] _.
Qed.

Lemma raises_only_parse_states (fuel : nat) tokens (acc : dict string (state F)) :
  raises_only parser_errors (parse_states fuel tokens acc).
Proof.
  revert tokens acc. induction fuel as [|fuel IH]; intros tokens acc.
  - by destruct tokens.
  - destruct tokens as [|t tokens1]; [done|].
    simpl parse_states. apply raises_only_bind; [apply raises_only_parse_state|].
    intros [tokens2 [name st]] _. apply IH.
Qed.

Lemma raises_only_parse_header tokens :
  raises_only parser_errors (_parse_header tokens).
Proof.
  assert (Hloop : ∀ len tokens acc, length tokens ≤ len →
            raises_only parser_errors (_parse_header_loop tokens acc)).
  { induction len as [|len IH]; intros toks acc Hlen.
    { destruct toks; [simpl; member|simpl in Hlen; lia]. }
    destruct toks as [|t [|t1 [|t2 toks]]]; simpl;
      try case_decide; try done; try member.
    apply IH. simpl in Hlen. lia. }
  destruct tokens as [|x [|y tokens2]]; [simpl; member..|].
  rewrite parse_header_cons. by apply (Hloop (length tokens2)).
Qed.

Lemma raises_only_to_matrix_form (alphabet : string)
    (states : dict string (state F)) :
  raises_only parser_errors (_to_matrix_form alphabet states).
Proof.
  unfold _to_matrix_form, fill_state, map_items, as_float.
  repeat step_raises.
Qed.

(** X27.  [parse_model] raises no exception other than [IndexError],
    [ValueError], [KeyError] and [AttributeError].  In particular its
    [assert] never fires, since the loop before it ends only when no
    token is left; and no [TypeError] comes from the values of the
    fields, whose kinds the parser fixes and the normalization keeps. *)
Theorem parse_model_exceptions (file_like : list string) (e : exn) :
  parse_model (F:=F) file_like = Raise e →
  e ∈ [IndexError; ValueError; KeyError; AttributeError].
Proof.
  assert (Hall : raises_only parser_errors (parse_model (F:=F) file_like)).
  { unfold parse_model.
    apply raises_only_bind; [apply raises_only_parse_header|].
    intros [tokens1 header] _.
    apply raises_only_bind; [apply raises_only_parse_states|].
    intros [tokens2 states] Hstates.
    assert (Htyped : typed_states states).
    { eapply parse_states_typed; [|done]. by intros name st. }
    apply parse_states_blocks in Hstates as [-> _].
    rewrite decide_True by done. rewrite bind_Ok.
    apply raises_only_bind; [apply raises_only_of_option; member|].
    intros alphabet _.
    apply raises_only_bind; [by apply raises_only_normalize_states|].
    intros states' _.
    apply raises_only_bind; [apply raises_only_to_matrix_form|].
    by intros mf _. }
  intros Hrun. by rewrite Hrun in Hall.
Qed.
End ParserExceptions.

Section DecoderExceptions.
Context {F : Type} `{Numeric F}.

(** X28.  [optimal_path] raises no exception other than [IndexError],
    [KeyError], [ValueError] and [TypeError]. *)
Theorem optimal_path_exceptions (sequence : string) (m : model F) (e : exn) :
  optimal_path sequence m = Raise e →
  e ∈ [IndexError; KeyError; ValueError; TypeError].
Proof.
  assert (Hall : raises_only decoder_errors (optimal_path sequence m)).
  { destruct m as [header mf].
    unfold optimal_path, viterbi_tables, fill_row, fill_cell, fill_base,
      best_predecessor, scan_step, str_get, last_row, argmax, backtrack_step,
      read_predecessor, join_values.
    repeat step_raises. }
  intros Hrun. by rewrite Hrun in Hall.
Qed.
End DecoderExceptions.

(** ** The further properties at the small models *)

Section FurtherWitnesses.
Import LogInt.

Ltac members H :=
  repeat (apply elem_of_cons in H as [H|H]; [try (injection H as -> ->)|]);
  try (by apply elem_of_nil in H).

Lemma logint_monotone : fadd_monotone (λ _ : LogInt.t, True).
Proof.
  intros [|a] [|b] [|c] _ _ _; simpl; try done.
  rewrite !Z.ltb_ge. lia.
Qed.

Lemma toy_states_wf : dict_wf Toy.states ∧ dict_wf Toy.normal.
Proof. split; unfold dict_wf; compute_done. Qed.

Lemma toy_shape : model_shape Toy.matrices 2.
Proof.
  split_and!.
  - split; [reflexivity|repeat constructor].
  - split; [reflexivity|repeat constructor].
  - intros symbol c. simpl. repeat case_decide; intros [= <-]; lia.
Qed.

Lemma toy_over_alphabet : over_alphabet "ABBA" Toy.matrices.
Proof.
  intros symbol Hin. vm_compute in Hin. members Hin; subst; vm_compute; eauto.
Qed.

Lemma toy_labelled :
  labelled Toy.matrices
  ∧ ∀ s, s < 3 → String.length (state_label Toy.matrices s) = 1.
Proof.
  split.
  - intros [|[|[|s]]] Hs; [by eexists..|simpl in Hs; lia].
  - intros [|[|[|s]]] Hs; [done..|lia].
Qed.

Lemma toy_normalized : normalized "AB" Toy.normal.
Proof.
  split_and!.
  - unfold dict_wf. compute_done.
  - eexists _, _. split_and!; [reflexivity|reflexivity|]. split.
    + unfold dict_wf. compute_done.
    + intros k p Hin. members Hin;
        (split; [compute_done|eexists; reflexivity]).
  - intros name st Hin. vm_compute in Hin. members Hin;
      (eexists _, _; split_and!; [reflexivity|reflexivity|..]);
      (split; [unfold dict_wf; compute_done|]);
      intros k p Hk; members Hk;
      (split; [compute_done|eexists; reflexivity]).
Qed.

Lemma tokenize_split_witness : _tokenize "s1:4" = ["s1"; ":"; "4"].
Proof. exact (tokenize_split "s1" ":"%char "4" eq_refl). Defined.

Lemma tokenize_unwords_witness :
  _tokenize (unwords " "%char ["trans"; "s1"; ":"; "4"; ";"])
  = ["trans"; "s1"; ":"; "4"; ";"].
Proof. apply tokenize_unwords; [reflexivity|repeat constructor]. Defined.

Lemma parse_model_no_token_witness :
  parse_model (F:=LogInt.t) ["# a comment"; "   "] = Raise IndexError.
Proof. apply parse_model_no_token. repeat constructor. Defined.

Lemma parse_map_entries_witness :
  _parse_map (F:=LogInt.t) ["s1"; ":"; "4"; "s2"; ":"; "2"; ";"; "label"]
  = Ok ([";"; "label"], Some [("s1", PFloat (Fin 4)); ("s2", PFloat (Fin 2))]).
Proof.
  destruct (parse_map_entries [("s1", "4", Fin 4); ("s2", "2", Fin 2)] ["label"])
    as [Hmap _].
  - repeat constructor; done.
  - exact Hmap.
Defined.

Lemma parse_field_list_witness :
  parse_field (F:=LogInt.t) "trans" ["s1"; ":"; "4"; "s2"; "s3"; ";"; "}"]
  = Ok ([";"; "}"], VList ["s2"; "s3"]).
Proof.
  apply (parse_field_list "trans" [("s1", "4", Fin 4)] "s2" ["s3"] ["}"]).
  - compute_done.
  - repeat constructor; done.
  - compute_done.
  - done.
Defined.

Lemma parse_state_fields_witness :
  _parse_state (F:=LogInt.t)
    ["s1"; "{"; "label"; "i"; ";"; "type"; "0"; ";";
     "trans"; "s1"; ":"; "4"; ";"; "}"; "s2"]
  = Ok (["s2"],
        ("s1", [("label", VStr "i"); ("type", VInt 0);
                ("trans", VMap [("s1", PFloat (Fin 4))])])).
Proof.
  apply (parse_state_fields "s1" "{"
           [Field "label" ["i"] ";" (VStr "i");
            Field "type" ["0"] ";" (VInt 0);
            Field "trans" ["s1"; ":"; "4"] ";"
              (VMap [("s1", PFloat (Fin 4))])] ["s2"]).
  repeat constructor; done.
Defined.

Lemma parse_header_entries_witness :
  _parse_header ["header"; "{"; "alphabet"; "AB"; ";"; "}"; "begin"]
  = Ok (["begin"], [("alphabet", "AB")]).
Proof.
  apply (parse_header_entries "header" "{" [("alphabet", "AB", ";")] ["begin"]).
  repeat constructor; done.
Defined.

Lemma normalize_states_untied_witness :
  _normalize_states (F:=LogInt.t)
    [("a", [("trans", VMap [("a", PFloat (Fin 2))]); ("label", VStr "i")])]
  = Ok [("a", [("trans", VMap [("a", PFloat (Fin 2))]); ("label", VStr "i")])].
Proof.
  apply normalize_states_untied. intros name st Hin. members Hin. done.
Defined.

Lemma normalize_states_keeps_witness : keys Toy.normal = keys Toy.states.
Proof.
  destruct (normalize_states_keeps Toy.states Toy.normal) as [Hkeys _].
  - apply toy_states_wf.
  - vm_compute. reflexivity.
  - exact Hkeys.
Defined.

Lemma normalize_states_dangling_witness :
  ∃ e, _normalize_states (F:=LogInt.t)
         [("a", [("trans", VList ["a"]); ("tied_trans", VStr "zz")])]
       = Raise e.
Proof.
  apply (normalize_states_dangling _ "a"
           [("trans", VList ["a"]); ("tied_trans", VStr "zz")] "zz").
  - unfold dict_wf. compute_done.
  - reflexivity.
  - left. reflexivity.
  - compute_done.
Defined.

Lemma tied_trans_truncates_witness :
  ∃ st' trans',
    dict_get Toy.normal "s3" = Some st'
    ∧ dict_get st' "trans" = Some (VMap trans').
Proof.
  edestruct (tied_trans_truncates Toy.states Toy.normal
               ["begin"; "s1"; "s2"] [] "s3" "s2")
    as (store & parent & probs_map & own & targets & st' & trans'
        & _ & _ & _ & _ & _ & Hst' & Htrans & _).
  - apply toy_states_wf.
  - reflexivity.
  - reflexivity.
  - reflexivity.
  - vm_compute. reflexivity.
  - exists st', trans'. split; [exact Hst'|exact Htrans].
Defined.

Lemma to_matrix_form_requires_witness :
  ∃ begin begin_trans,
    dict_get Toy.normal "begin" = Some begin
    ∧ dict_get begin "trans" = Some (VMap begin_trans).
Proof.
  destruct (to_matrix_form_requires "AB" Toy.normal Toy.matrices)
    as ((begin & begin_trans & Hbegin & Htrans & _) & _).
  - vm_compute. reflexivity.
  - exists begin, begin_trans. split; [exact Hbegin|exact Htrans].
Defined.

Lemma to_matrix_form_shape_witness : model_shape Toy.matrices 2.
Proof.
  destruct (to_matrix_form_shape "AB" Toy.normal Toy.matrices)
    as (_ & Hshape & _).
  - vm_compute. reflexivity.
  - exact Hshape.
Defined.

Lemma to_matrix_form_labels_witness :
  dict_get (label_map Toy.matrices) 2 = Some (VStr "M").
Proof.
  apply (to_matrix_form_labels "AB" Toy.normal Toy.matrices).
  - apply toy_states_wf.
  - vm_compute. reflexivity.
Defined.

Lemma to_matrix_form_char_map_witness : str_iter "AB" !! 1 = Some "B".
Proof.
  destruct (to_matrix_form_char_map "AB" Toy.normal Toy.matrices "B" 1)
    as [Hto _].
  - vm_compute. reflexivity.
  - destruct (Hto eq_refl) as [Hlook _]. exact Hlook.
Defined.

Lemma to_matrix_form_shared_rows_witness :
  ∃ mf, _to_matrix_form "AB" Toy.normal = Ok mf
    ∧ emissions mf !! 0 = emissions mf !! 2.
Proof.
  destruct (to_matrix_form_shared_rows "AB" Toy.normal toy_normalized)
    as (mf & Hrun & Hrows).
  exists mf. split; [exact Hrun|].
  edestruct (Hrows 0 2) as [_ Honly]; [reflexivity..|].
  apply Honly. reflexivity.
Defined.

Lemma optimal_path_outcome_witness :
  optimal_path "ABBA" Toy.model = Raise IndexError.
Proof.
  edestruct (optimal_path_outcome "ABBA" [("alphabet", "AB")] Toy.matrices 2)
    as [_ Hfails].
  - exact toy_shape.
  - exact toy_over_alphabet.
  - apply toy_labelled.
  - simpl. lia.
  - apply Hfails. simpl. lia.
Defined.

Lemma optimal_path_no_state_witness :
  optimal_path (F:=LogInt.t) "A" ([], MatrixForm [] [] [] [("A", 0)] [] [])
  = Raise ValueError.
Proof. apply optimal_path_no_state; [reflexivity|simpl; lia]. Defined.

Lemma viterbi_tables_most_probable_witness :
  ∃ M P s_final,
    viterbi_tables "ABBA" Toy.matrices = Ok (M, P)
    ∧ (last_row M ≫= argmax) = Ok s_final
    ∧ length (backtrace P 3 s_final) = 4.
Proof.
  destruct (viterbi_tables_most_probable (λ _, True) "ABBA" Toy.matrices 2)
    as (M & P & s_final & Htables & Hfinal & _ & Hlen & _).
  - exact logint_order.
  - exact logint_monotone.
  - split_and!; repeat constructor.
  - exact toy_shape.
  - exact toy_over_alphabet.
  - simpl. lia.
  - simpl. lia.
  - exists M, P, s_final. split_and!; [exact Htables|exact Hfinal|exact Hlen].
Defined.

Lemma parse_model_decoder_outcome_witness :
  optimal_path "ABBA" Toy.model = Raise IndexError.
Proof.
  edestruct (parse_model_decoder_outcome Toy.file [("alphabet", "AB")]
               Toy.matrices "ABBA") as [_ Hfails].
  - vm_compute. reflexivity.
  - apply toy_labelled.
  - simpl. lia.
  - intros alphabet [= <-] symbol Hin. vm_compute in Hin.
    members Hin; subst; compute_done.
  - apply Hfails. simpl. lia.
Defined.

Lemma parse_state_typed_witness : "trans" ∈ ["trans"; "only"].
Proof.
  refine (parse_state_typed (F:=LogInt.t)
            ["s1"; "{"; "trans"; "s1"; ":"; "4"; ";"; "}"] [] "s1"
            [("trans", VMap [("s1", PFloat (Fin 4))])] _
            "trans" (VMap [("s1", PFloat (Fin 4))]) _).
  - vm_compute. reflexivity.
  - reflexivity.
Defined.

Lemma parse_model_exceptions_witness :
  IndexError ∈ [IndexError; ValueError; KeyError; AttributeError].
Proof.
  apply (parse_model_exceptions (F:=LogInt.t)
           ["header { alphabet AB; } begin { trans s1:4; } s1 { label i;"]).
  vm_compute. reflexivity.
Defined.

Lemma optimal_path_exceptions_witness :
  KeyError ∈ [IndexError; KeyError; ValueError; TypeError].
Proof.
  apply (optimal_path_exceptions "ABC" Toy.model). vm_compute. reflexivity.
Defined.
End FurtherWitnesses.
